(** * Virtual order book (package p2): shallow embedding and verification

    The development follows the second, depth-limited version of package
    [p2] (the one that declares [MAX_LEVELS_PER_PAIR] and
    [MAX_PATH_DEPTH]): graph construction with synthetic reverse pairs,
    enumeration of simple paths, per-path greedy volume tracking, the
    sort/merge finaliser and the executor that walks the virtual book.

    Numbers.  The program computes on [float64].  Finite values are
    idealised as exact rationals ([Q]); rounding, overflow and signed
    zeros are not modelled.  The two non-finite values that the program
    manufactures itself, [math.Inf(1)] and [math.NaN()], are kept in the
    type [float64] below.  All divisions of the program are guarded by a
    strict positivity test, so the value of [Qinv 0] is never used.  The
    round trip of [invertOrders], where the rounding itself is the
    subject, is settled on binary64 numbers ([invertOrders64]).

    Maps.  [Graph] is Go's [map[string]map[string]TradingPair], a [gmap]
    of [gmap]s.  Go leaves the iteration order of a map unspecified; the
    model iterates in the order of [map_to_list] and the proofs only use
    that this enumerates the keys of the map.

    Sorting.  [sort.Slice] belongs to Go's library, not to the
    repository.  It is modelled by insertion sort, which is what it runs
    on short slices. *)

From Stdlib Require Import QArith Qpower Qminmax Qabs Lqa Lia ZArith Sorted.
From Stdlib Require Import PrimFloat.
From Stdlib Require SpecFloat FloatOps FloatAxioms.
From stdpp Require Import base option list gmap strings.

Local Open Scope Q_scope.

(** ** Numbers *)

Inductive float64 : Type :=
  | Finite (x : Q)
  | PosInf
  | NaN.

(** [a < b] on finite values, as a boolean. *)
Definition Qltb (a b : Q) : bool :=
  match a ?= b with
  | Lt => true
  | _ => false
  end.

(** [x < m] where [m] may still be the initial [math.Inf(1)]. *)
Definition lt_float64 (x : Q) (m : float64) : bool :=
  match m with
  | Finite y => Qltb x y
  | PosInf => true
  | NaN => false
  end.

(** The merge tolerance [1e-8]. *)
Definition tolerance : Q := 1 # 100000000.

(** ** Data model *)

Definition MAX_LEVELS_PER_PAIR : nat := 5.
Definition MAX_PATH_DEPTH : Z := 5.

Module Level.
Record t : Type := mk { Price : Q; Amount : Q }.
End Level.

Module TradingPair.
Record t : Type := mk {
  Base : string;
  Quote : string;
  AskOrders : list Level.t;
  BidOrders : list Level.t
}.
End TradingPair.

Abbreviation Graph := (gmap string (gmap string TradingPair.t)).

Module VirtualLevel.
Record t : Type := mk {
  Price : Q;
  Amount : Q;
  Route : list string;
  LevelPrices : list Q
}.
End VirtualLevel.

Module VirtualTradingPair.
Record t : Type := mk {
  Base : string;
  Quote : string;
  AskOrders : list VirtualLevel.t;
  BidOrders : list VirtualLevel.t
}.
End VirtualTradingPair.

Module PriceVolumeCombo.
Record t : Type := mk { prices : list Q; depth : Q }.
End PriceVolumeCombo.

Module RouteCandidate.
Record t : Type := mk {
  prices : list Q;
  levelIndices : list nat;
  finalPrice : Q;
  maxVolume : Q
}.
End RouteCandidate.

(** ** Graph builder *)

(** [graph[a][b]] with the comma-ok idiom: a missing row or a missing
    column both give [None]. *)
Definition edge (graph : Graph) (a b : string) : option TradingPair.t :=
  graph !! a ≫= (λ row, row !! b).

(** [if graph[c] == nil { graph[c] = make(...) }] *)
Definition ensureRow (graph : Graph) (c : string) : Graph :=
  match graph !! c with
  | None => <[c := ∅]> graph
  | Some _ => graph
  end.

(** [graph[a][b] = p] *)
Definition setEdge (graph : Graph) (a b : string) (p : TradingPair.t) : Graph :=
  <[a := <[b := p]> (default ∅ (graph !! a))]> graph.

Fixpoint invertOrders (levels : list Level.t) : list Level.t :=
  match levels with
  | [] => []
  | level :: rest =>
      if Qltb 0 (Level.Price level)
      then Level.mk (1 / Level.Price level) (Level.Amount level * Level.Price level)
             :: invertOrders rest
      else invertOrders rest
  end.

(** The pair stored on the forward edge: both sides cut to the cap. *)
Definition limitedPair (pair : TradingPair.t) : TradingPair.t :=
  TradingPair.mk (TradingPair.Base pair) (TradingPair.Quote pair)
    (take MAX_LEVELS_PER_PAIR (TradingPair.AskOrders pair))
    (take MAX_LEVELS_PER_PAIR (TradingPair.BidOrders pair)).

(** The synthetic pair stored on the reverse edge of a (limited) pair. *)
Definition reversePair (limited : TradingPair.t) : TradingPair.t :=
  TradingPair.mk (TradingPair.Quote limited) (TradingPair.Base limited)
    (invertOrders (TradingPair.BidOrders limited))
    (invertOrders (TradingPair.AskOrders limited)).

(** One iteration of the loop of [buildGraph]. *)
Definition buildGraphStep (graph : Graph) (pair : TradingPair.t) : Graph :=
  let graph := ensureRow graph (TradingPair.Base pair) in
  let graph := ensureRow graph (TradingPair.Quote pair) in
  let limited := limitedPair pair in
  let graph := setEdge graph (TradingPair.Base pair) (TradingPair.Quote pair) limited in
  setEdge graph (TradingPair.Quote pair) (TradingPair.Base pair) (reversePair limited).

Definition buildGraph (pairs : list TradingPair.t) : Graph :=
  fold_left buildGraphStep pairs ∅.

(** ** Path enumerator *)

(** [for nextToken := range graph[currentToken]] *)
Definition rangeKeys (graph : Graph) (currentToken : string) : list string :=
  (map_to_list (default ∅ (graph !! currentToken))).*1.

(** [visited[k]]: a missing key reads as [false]. *)
Definition isVisited (visited : gmap string bool) (k : string) : bool :=
  default false (visited !! k).

(** The recursion of [findPathsRecursive].  The [visited] map is shared
    and mutated by the Go code, so it is threaded through: the function
    returns the paths found and the map as it is left.  [fuel] bounds the
    recursion depth; [findAllPaths] passes enough of it (see
    [findPathsRecursive_fuel]). *)
Fixpoint findPathsRecursive (fuel : nat) (graph : Graph)
    (currentToken targetToken : string) (visited : gmap string bool)
    (currentPath : list string) (maxDepth : Z)
    : list (list string) * gmap string bool :=
  if (maxDepth <? Z.of_nat (length currentPath))%Z then ([], visited)
  else if bool_decide (currentToken = targetToken) && (1 <? length currentPath)%nat
  then ([currentPath], visited)
  else
    match fuel with
    | O => ([], visited)
    | S fuel' =>
        let visited := <[currentToken := true]> visited in
        let '(allPaths, visited) :=
          fold_left
            (λ state nextToken,
               let '(allPaths, visited) := state in
               if negb (isVisited visited nextToken)
               then
                 let newPath := currentPath ++ [nextToken] in
                 let '(pathsFromNext, visited) :=
                   findPathsRecursive fuel' graph nextToken targetToken
                     visited newPath maxDepth in
                 (allPaths ++ pathsFromNext, visited)
               else (allPaths, visited))
            (rangeKeys graph currentToken) ([], visited) in
        (allPaths, <[currentToken := false]> visited)
    end.

Definition findAllPaths (graph : Graph) (start end_ : string) (maxDepth : Z)
    : list (list string) :=
  (findPathsRecursive (Z.to_nat maxDepth) graph start end_ ∅ [start] maxDepth).1.

(** ** Per-path combiner and greedy volume tracking *)

(** [for i, x := range l]: the elements of [l] with their positions. *)
Definition enumerate {A : Type} (l : list A) : list (nat * A) :=
  imap (λ i x, (i, x)) l.

(** [allHopLevels[hopIdx][levelIdx].Amount].  Go panics when an index is
    out of range; the indices the program builds are always in range
    ([generateAllRouteCandidates_in_range]), so the default is never
    read. *)
Definition levelAmountAt (allHopLevels : list (list Level.t))
    (hopIdx levelIdx : nat) : Q :=
  default 0 (Level.Amount <$> (allHopLevels !! hopIdx ≫= (λ hop, hop !! levelIdx))).

(** [finalPrice := 1.0; for _, price := range prices { finalPrice *= price }] *)
Definition productOf (prices : list Q) : Q :=
  fold_left Qmult prices 1.

(** The leaf of [generateAllRouteCandidates] ([hopIndex >= len(allHopLevels)]). *)
Definition emitCandidate (allHopLevels : list (list Level.t))
    (currentPrices : list Q) (currentIndices : list nat)
    (candidates : list RouteCandidate.t) : list RouteCandidate.t :=
  let finalPrice := productOf currentPrices in
  let maxVolume :=
    fold_left
      (λ maxVolume '(hopIdx, levelIdx),
         let levelVolume := levelAmountAt allHopLevels hopIdx levelIdx in
         if lt_float64 levelVolume maxVolume then Finite levelVolume else maxVolume)
      (enumerate currentIndices) PosInf in
  match maxVolume with
  | Finite maxVolume =>
      if Qltb 0 maxVolume
      then candidates ++ [RouteCandidate.mk currentPrices currentIndices finalPrice maxVolume]
      else candidates
  | _ => candidates
  end.

(** [generateAllRouteCandidates].  The hop index of the Go code is
    represented by [hops], the hops still to be chosen, that is
    [allHopLevels[hopIndex:]]; the slice behind the [candidates] pointer is
    passed in and returned. *)
Fixpoint generateAllRouteCandidates (allHopLevels hops : list (list Level.t))
    (currentPrices : list Q) (currentIndices : list nat)
    (candidates : list RouteCandidate.t) : list RouteCandidate.t :=
  match hops with
  | [] => emitCandidate allHopLevels currentPrices currentIndices candidates
  | hopLevels :: hops' =>
      fold_left
        (λ candidates '(levelIdx, level),
           generateAllRouteCandidates allHopLevels hops'
             (currentPrices ++ [Level.Price level])
             (currentIndices ++ [levelIdx]) candidates)
        (enumerate hopLevels) candidates
  end.

(** Insertion sort with the comparison function of [sort.Slice]. *)
Fixpoint insertSorted {A : Type} (less : A → A → bool) (x : A) (l : list A) : list A :=
  match l with
  | [] => [x]
  | y :: l' => if less x y then x :: y :: l' else y :: insertSorted less x l'
  end.

Definition sortSlice {A : Type} (less : A → A → bool) (l : list A) : list A :=
  fold_left (λ sorted x, insertSorted less x sorted) l [].

Definition sortCandidatesByPrice (candidates : list RouteCandidate.t) (isAsk : bool)
    : list RouteCandidate.t :=
  sortSlice
    (λ ci cj,
       if isAsk
       then Qltb (RouteCandidate.finalPrice ci) (RouteCandidate.finalPrice cj)
       else Qltb (RouteCandidate.finalPrice cj) (RouteCandidate.finalPrice ci))
    candidates.

(** [remainingVolumes[hopIdx][levelIdx]] *)
Definition remainingAt (remainingVolumes : list (list Q)) (hopIdx levelIdx : nat) : Q :=
  default 0 (remainingVolumes !! hopIdx ≫= (λ row, row !! levelIdx)).

(** [remainingVolumes[hopIdx][levelIdx] -= volume] *)
Definition deduct (remainingVolumes : list (list Q)) (hopIdx levelIdx : nat)
    (volume : Q) : list (list Q) :=
  alter (alter (λ available, available - volume) levelIdx) hopIdx remainingVolumes.

(** The first inner loop of the greedy selection. *)
Definition maxUsableVolume (remainingVolumes : list (list Q))
    (candidate : RouteCandidate.t) : Q :=
  fold_left
    (λ maxUsableVolume '(hopIdx, levelIdx),
       let available := remainingAt remainingVolumes hopIdx levelIdx in
       if Qltb available maxUsableVolume then available else maxUsableVolume)
    (enumerate (RouteCandidate.levelIndices candidate))
    (RouteCandidate.maxVolume candidate).

Definition deductAll (remainingVolumes : list (list Q)) (levelIndices : list nat)
    (volume : Q) : list (list Q) :=
  fold_left
    (λ remainingVolumes '(hopIdx, levelIdx),
       deduct remainingVolumes hopIdx levelIdx volume)
    (enumerate levelIndices) remainingVolumes.

(** One iteration of the greedy loop over the sorted candidates; the
    state is the table of remaining volumes and the result so far. *)
Definition greedyStep (state : list (list Q) * list PriceVolumeCombo.t)
    (candidate : RouteCandidate.t) : list (list Q) * list PriceVolumeCombo.t :=
  let '(remainingVolumes, result) := state in
  let volume := maxUsableVolume remainingVolumes candidate in
  if Qltb 0 volume
  then (deductAll remainingVolumes (RouteCandidate.levelIndices candidate) volume,
        result ++ [PriceVolumeCombo.mk (RouteCandidate.prices candidate) volume])
  else (remainingVolumes, result).

Definition initialVolumes (allHopLevels : list (list Level.t)) : list (list Q) :=
  map (map Level.Amount) allHopLevels.

Definition generateCombinationsWithVolumeTracking
    (allHopLevels : list (list Level.t)) (isAsk : bool) : list PriceVolumeCombo.t :=
  match allHopLevels with
  | [] => []
  | _ =>
      let candidates := generateAllRouteCandidates allHopLevels allHopLevels [] [] [] in
      let candidates := sortCandidatesByPrice candidates isAsk in
      (fold_left greedyStep candidates (initialVolumes allHopLevels, [])).2
  end.

(** The loop of [getAllPriceVolumeCombinations] that collects the level
    list of every hop; [None] is the early return on a missing edge. *)
Fixpoint collectHopLevels (graph : Graph) (path : list string) (isAsk : bool)
    : option (list (list Level.t)) :=
  match path with
  | fromToken :: ((toToken :: _) as rest) =>
      match edge graph fromToken toToken with
      | None => None
      | Some tradingPair =>
          let hopLevels :=
            if isAsk then TradingPair.AskOrders tradingPair
            else TradingPair.BidOrders tradingPair in
          (λ allHopLevels, hopLevels :: allHopLevels) <$> collectHopLevels graph rest isAsk
      end
  | _ => Some []
  end.

Definition getAllPriceVolumeCombinations (graph : Graph) (path : list string)
    (isAsk : bool) : list PriceVolumeCombo.t :=
  if (length path <? 2)%nat then []
  else
    match collectHopLevels graph path isAsk with
    | None => []
    | Some allHopLevels => generateCombinationsWithVolumeTracking allHopLevels isAsk
    end.

Definition calculateOrdersFromPath (graph : Graph) (path : list string) (isAsk : bool)
    : list VirtualLevel.t :=
  if (length path <? 2)%nat then []
  else
    let priceVolumeCombos := getAllPriceVolumeCombinations graph path isAsk in
    let truePath := if isAsk then reverse path else path in
    fold_left
      (λ levels combo,
         let effectivePrice := productOf (PriceVolumeCombo.prices combo) in
         if Qltb 0 (PriceVolumeCombo.depth combo)
         then levels ++ [VirtualLevel.mk effectivePrice (PriceVolumeCombo.depth combo)
                           truePath (PriceVolumeCombo.prices combo)]
         else levels)
      priceVolumeCombos [].

(** ** Virtual-book finaliser *)

Definition sortVirtualLevels (levels : list VirtualLevel.t) (isAsk : bool)
    : list VirtualLevel.t :=
  sortSlice
    (λ li lj,
       if isAsk
       then Qltb (VirtualLevel.Price li) (VirtualLevel.Price lj)
       else Qltb (VirtualLevel.Price lj) (VirtualLevel.Price li))
    levels.

(** What the body of the merge loop does to [current] when [level] falls
    within the tolerance: the amount is added, and the route is replaced
    when [level] is strictly cheaper. *)
Definition absorb (current level : VirtualLevel.t) : VirtualLevel.t :=
  let current :=
    VirtualLevel.mk (VirtualLevel.Price current)
      (VirtualLevel.Amount current + VirtualLevel.Amount level)
      (VirtualLevel.Route current) (VirtualLevel.LevelPrices current) in
  if Qltb (VirtualLevel.Price level) (VirtualLevel.Price current)
  then VirtualLevel.mk (VirtualLevel.Price current) (VirtualLevel.Amount current)
         (VirtualLevel.Route level) (VirtualLevel.LevelPrices current)
  else current.

(** [math.Abs(level.Price - current.Price) < 1e-8] *)
Definition samePrice (level current : VirtualLevel.t) : bool :=
  Qltb (Qabs (VirtualLevel.Price level - VirtualLevel.Price current)) tolerance.

(** The loop of [mergeVirtualLevels] from index 1 on. *)
Fixpoint mergeLoop (merged : list VirtualLevel.t) (current : VirtualLevel.t)
    (levels : list VirtualLevel.t) : list VirtualLevel.t :=
  match levels with
  | [] => merged ++ [current]
  | level :: rest =>
      if samePrice level current
      then mergeLoop merged (absorb current level) rest
      else mergeLoop (merged ++ [current]) level rest
  end.

Definition mergeVirtualLevels (levels : list VirtualLevel.t) : list VirtualLevel.t :=
  match levels with
  | [] => levels
  | first :: rest => mergeLoop [] first rest
  end.

Definition buildVirtualOrderbook (graph : Graph) (baseCurrency quoteCurrency : string)
    : VirtualTradingPair.t :=
  let paths := findAllPaths graph baseCurrency quoteCurrency MAX_PATH_DEPTH in
  let '(askOrders, bidOrders) :=
    fold_left
      (λ '(askOrders, bidOrders) path,
         (askOrders ++ calculateOrdersFromPath graph path true,
          bidOrders ++ calculateOrdersFromPath graph path false))
      paths ([], []) in
  VirtualTradingPair.mk baseCurrency quoteCurrency
    (mergeVirtualLevels (sortVirtualLevels askOrders true))
    (mergeVirtualLevels (sortVirtualLevels bidOrders false)).

(** ** Executor *)

Module Exec.
Record t : Type := mk {
  remainingAmount : Q;
  totalCost : Q;
  executedAmount : Q;
  bestRoute : list VirtualLevel.t
}.
End Exec.

(** The loop of [findBestRouteFromVirtualOrderbook] over the levels. *)
Fixpoint executeLevels (levels : list VirtualLevel.t) (state : Exec.t) : Exec.t :=
  match levels with
  | [] => state
  | level :: rest =>
      if Qle_bool (Exec.remainingAmount state) 0 then state
      else
        let executed := Qmin (Exec.remainingAmount state) (VirtualLevel.Amount level) in
        let cost := executed * VirtualLevel.Price level in
        executeLevels rest
          (Exec.mk (Exec.remainingAmount state - executed)
             (Exec.totalCost state + cost)
             (Exec.executedAmount state + executed)
             (Exec.bestRoute state
                ++ [VirtualLevel.mk (VirtualLevel.Price level) executed
                      (VirtualLevel.Route level) (VirtualLevel.LevelPrices level)]))
  end.

Definition findBestRouteFromVirtualOrderbook (levels : list VirtualLevel.t)
    (targetAmount : Q) : float64 * list VirtualLevel.t :=
  match levels with
  | [] => (NaN, [])
  | _ =>
      let state := executeLevels levels (Exec.mk targetAmount 0 0 []) in
      let effectivePrice :=
        if Qltb 0 (Exec.executedAmount state) && Qltb 0 targetAmount
        then Exec.totalCost state / Qmin (Exec.executedAmount state) targetAmount
        else 0 in
      (Finite effectivePrice, Exec.bestRoute state)
  end.

(** ** Vocabulary of the statements *)

(** Every two neighbours of a list are related by [R]. *)
Definition neighbours {A : Type} (R : A → A → Prop) (l : list A) : Prop :=
  ∀ (i : nat) (a b : A), l !! i = Some a → l !! S i = Some b → R a b.

(** Total quantity of a list of virtual levels. *)
Definition totalAmount (levels : list VirtualLevel.t) : Q :=
  fold_right Qplus 0 (map VirtualLevel.Amount levels).

(** A virtual level has the given price and quantity. *)
Definition levelIs (level : VirtualLevel.t) (expected : Q * Q) : Prop :=
  VirtualLevel.Price level == expected.1 ∧ VirtualLevel.Amount level == expected.2.

(** [x] equals [y] within [1e-9] relative error. *)
Definition withinRelative (x y : Q) : Prop :=
  Qabs (x - y) <= (1 # 1000000000) * Qabs y.

(** *** Graph builder *)

(** [other] is written to the same two graph cells as [pair]. *)
Definition sameCurrencies (other pair : TradingPair.t) : Prop :=
  (TradingPair.Base other = TradingPair.Base pair
   ∧ TradingPair.Quote other = TradingPair.Quote pair)
  ∨ (TradingPair.Base other = TradingPair.Quote pair
     ∧ TradingPair.Quote other = TradingPair.Base pair).

(** The edge [(a, b)] holds the input pair [pair], cut to the cap. *)
Definition storesInput (pair : TradingPair.t) (a b : string) (stored : TradingPair.t)
    : Prop :=
  a = TradingPair.Base pair ∧ b = TradingPair.Quote pair ∧ stored = limitedPair pair.

(** [reversed] is the inversion of [forward]: its asks are the inverted
    bids and its bids the inverted asks. *)
Definition invertedFrom (forward reversed : TradingPair.t) : Prop :=
  TradingPair.AskOrders reversed = invertOrders (TradingPair.BidOrders forward)
  ∧ TradingPair.BidOrders reversed = invertOrders (TradingPair.AskOrders forward).

(** *** Path enumerator *)

(** What a path from [start] to [target] within depth [maxDepth] is. *)
Definition simplePath (graph : Graph) (start target : string) (maxDepth : Z)
    (path : list string) : Prop :=
  (2 ≤ length path)%nat
  ∧ NoDup path
  ∧ head path = Some start
  ∧ last path = Some target
  ∧ (Z.of_nat (length path) ≤ maxDepth)%Z
  ∧ neighbours (λ a b, is_Some (edge graph a b)) path.

(** Two [visited] maps that read the same at every key. *)
Definition sameVisited (visited visited' : gmap string bool) : Prop :=
  ∀ k, isVisited visited' k = isVisited visited k.

(** The body of the loop of [findPathsRecursive] over the neighbours, under
    a name ([findPathsRecursive_unfold]). *)
Definition visitNext (fuel : nat) (graph : Graph) (targetToken : string)
    (currentPath : list string) (maxDepth : Z)
    (state : list (list string) * gmap string bool) (nextToken : string)
    : list (list string) * gmap string bool :=
  let '(allPaths, visited) := state in
  if negb (isVisited visited nextToken)
  then
    let '(pathsFromNext, visited) :=
      findPathsRecursive fuel graph nextToken targetToken visited
        (currentPath ++ [nextToken]) maxDepth in
    (allPaths ++ pathsFromNext, visited)
  else (allPaths, visited).

(** What holds of the arguments at every call of [findPathsRecursive]:
    the path ends in the current token, has no repetition, starts at
    [start] and follows edges; its tokens other than the last are marked
    in [visited], the last is not. *)
Definition pathInvariant (graph : Graph) (start : string)
    (visited : gmap string bool) (currentToken : string)
    (currentPath : list string) : Prop :=
  last currentPath = Some currentToken
  ∧ NoDup currentPath
  ∧ head currentPath = Some start
  ∧ neighbours (λ a b, is_Some (edge graph a b)) currentPath
  ∧ (∀ x, x ∈ currentPath → x ≠ currentToken → isVisited visited x = true)
  ∧ isVisited visited currentToken = false.

(** Calls with [fuel] leave [visited] as they found it and return simple
    paths only. *)
Definition soundAt (graph : Graph) (start targetToken : string) (maxDepth : Z)
    (fuel : nat) : Prop :=
  ∀ currentToken visited currentPath,
    pathInvariant graph start visited currentToken currentPath →
    let result :=
      findPathsRecursive fuel graph currentToken targetToken visited currentPath
        maxDepth in
    sameVisited visited result.2
    ∧ Forall (simplePath graph start targetToken maxDepth) result.1.

(** [x] is immediately followed by [y] in [route]. *)
Fixpoint adjacentIn (x y : string) (route : list string) : bool :=
  match route with
  | x' :: ((y' :: _) as rest) =>
      (bool_decide (x' = x) && bool_decide (y' = y)) || adjacentIn x y rest
  | _ => false
  end.

(** *** Sorting and merging *)

(** [a] may stand before [b] in a slice sorted with [less]. *)
Definition notAfter {A : Type} (less : A → A → bool) (a b : A) : Prop :=
  less b a = false.

(** A relation on prices, read on virtual levels. *)
Definition byPrice (R : Q → Q → Prop) (a b : VirtualLevel.t) : Prop :=
  R (VirtualLevel.Price a) (VirtualLevel.Price b).

(** The prices of two levels are at least the tolerance apart. *)
Definition apart (x y : Q) : Prop := ¬ Qabs (x - y) < tolerance.

(** [level] is within the merge tolerance of [first]. *)
Definition withinTolerance (first level : VirtualLevel.t) : Prop :=
  Qabs (VirtualLevel.Price level - VirtualLevel.Price first) < tolerance.

(** The quantity accumulated on a run that starts with [first]. *)
Definition runAmount (first : VirtualLevel.t) (run : list VirtualLevel.t) : Q :=
  fold_left (λ amount level, amount + VirtualLevel.Amount level) run
    (VirtualLevel.Amount first).

(** The route the merge loop leaves on a run that starts with [first]:
    every level of the run that is strictly cheaper than [first] replaces
    it. *)
Definition runRoute (first : VirtualLevel.t) (run : list VirtualLevel.t) : list string :=
  fold_left
    (λ route level,
       if Qltb (VirtualLevel.Price level) (VirtualLevel.Price first)
       then VirtualLevel.Route level else route)
    run (VirtualLevel.Route first).

(** *** Instrumented greedy selection

    [PriceVolumeCombo] forgets which levels a combination consumes.  To
    speak about the inventory, the greedy loop is run once more with a
    result that keeps, for every emitted combination, the candidate it
    comes from; [greedyTrace_combos] shows that forgetting the candidates
    gives back the result of the program. *)

Definition greedyTraceStep (state : list (list Q) * list (RouteCandidate.t * Q))
    (candidate : RouteCandidate.t) : list (list Q) * list (RouteCandidate.t * Q) :=
  let '(remainingVolumes, trace) := state in
  let volume := maxUsableVolume remainingVolumes candidate in
  if Qltb 0 volume
  then (deductAll remainingVolumes (RouteCandidate.levelIndices candidate) volume,
        trace ++ [(candidate, volume)])
  else (remainingVolumes, trace).

Definition greedyTrace (allHopLevels : list (list Level.t)) (isAsk : bool)
    : list (RouteCandidate.t * Q) :=
  (fold_left greedyTraceStep
     (sortCandidatesByPrice
        (generateAllRouteCandidates allHopLevels allHopLevels [] [] []) isAsk)
     (initialVolumes allHopLevels, [])).2.

(** The combination the program emits for an entry of the trace. *)
Definition comboOf (entry : RouteCandidate.t * Q) : PriceVolumeCombo.t :=
  PriceVolumeCombo.mk (RouteCandidate.prices entry.1) entry.2.

(** The virtual level [calculateOrdersFromPath] builds from a combination. *)
Definition levelOf (truePath : list string) (combo : PriceVolumeCombo.t) : VirtualLevel.t :=
  VirtualLevel.mk (productOf (PriceVolumeCombo.prices combo))
    (PriceVolumeCombo.depth combo) truePath (PriceVolumeCombo.prices combo).

(** The entry consumes level [levelIdx] of hop [hopIdx]. *)
Definition consumes (hopIdx levelIdx : nat) (entry : RouteCandidate.t * Q) : bool :=
  bool_decide (RouteCandidate.levelIndices entry.1 !! hopIdx = Some levelIdx).

(** Total volume the trace takes from level [levelIdx] of hop [hopIdx]. *)
Definition consumed (hopIdx levelIdx : nat) (trace : list (RouteCandidate.t * Q)) : Q :=
  fold_right Qplus 0 (map snd (List.filter (consumes hopIdx levelIdx) trace)).

(** [levelIndices] chooses one existing level in every hop of [shape]. *)
Definition inRange {X : Type} (shape : list (list X)) (levelIndices : list nat) : Prop :=
  length levelIndices = length shape
  ∧ ∀ hopIdx levelIdx, levelIndices !! hopIdx = Some levelIdx →
      ∃ row, shape !! hopIdx = Some row ∧ (levelIdx < length row)%nat.

(** The inventory kept by the greedy loop: the table has the shape of the
    hop levels, and what is left on a level plus what the trace took from
    it is the level's original quantity; a level that started non-negative
    stays so. *)
Definition inventoryInvariant (allHopLevels : list (list Level.t))
    (state : list (list Q) * list (RouteCandidate.t * Q)) : Prop :=
  map length state.1 = map length allHopLevels
  ∧ ∀ hopIdx levelIdx hop level,
      allHopLevels !! hopIdx = Some hop → hop !! levelIdx = Some level →
      remainingAt state.1 hopIdx levelIdx + consumed hopIdx levelIdx state.2
        == Level.Amount level
      ∧ (0 <= Level.Amount level → 0 <= remainingAt state.1 hopIdx levelIdx).

(** ** Scenario data *)

Definition L (price amount : Q) : Level.t := Level.mk price amount.

(** Scenario 1 of the specification. *)
Definition scenario1 : list TradingPair.t :=
  [ TradingPair.mk "KNC" "USDT" [L 1 200; L (14 # 10) 400] [L (9 # 10) 100; L (8 # 10) 300];
    TradingPair.mk "ETH" "USDT" [L 40 10] [L 30 10; L 20 15] ].

(** The request of Scenario 1, evaluated. *)
Definition scenario1Book : VirtualTradingPair.t :=
  buildVirtualOrderbook (buildGraph scenario1) "KNC" "ETH".

(** A book with a single level. *)
Definition oneLevelBook : list VirtualLevel.t :=
  [ VirtualLevel.mk (31 # 10000) 400 ["ETH"; "KNC"] [31 # 10000] ].

(** A pair with ten ask levels. *)
Definition tenAsks : TradingPair.t :=
  TradingPair.mk "KNC" "ETH"
    [L 1 1; L 2 1; L 3 1; L 4 1; L 5 1; L 6 1; L 7 1; L 8 1; L 9 1; L 10 1]
    [L (1 # 2) 1].

(** Scenario 4: two levels of one price, from disjoint edges. *)
Definition equalPriceAsks : list VirtualLevel.t :=
  [ VirtualLevel.mk (5 # 100) 100 ["Q"; "X"; "B"] [1 # 10; 5 # 10];
    VirtualLevel.mk (5 # 100) 150 ["Q"; "Y"; "B"] [2 # 10; 25 # 100] ].

(** Two paths from A to C that share the edge A -> B, whose only ask
    level offers 10 units. *)
Definition sharedEdgePairs : list TradingPair.t :=
  [ TradingPair.mk "A" "B" [L 1 10] [];
    TradingPair.mk "B" "C" [L 1 10] [];
    TradingPair.mk "B" "D" [L 1 10] [];
    TradingPair.mk "D" "C" [L 2 10] [] ].

(** A pair with a zero-price ask level. *)
Definition zeroPricePairs : list TradingPair.t :=
  [ TradingPair.mk "A" "B" [L 0 1] [] ].

(** Two bid levels, sorted by descending price, whose prices differ by
    [2^-30], which is below the tolerance. *)
Definition closeBids : list VirtualLevel.t :=
  [ VirtualLevel.mk 2 1 ["A"; "B"] [2];
    VirtualLevel.mk (2147483647 # 1073741824) 1 ["A"; "C"; "B"]
      [1; 2147483647 # 1073741824] ].

(** ** Further vocabulary *)

(** *** Executor *)

(** What a list of fills costs (asks) or yields (bids). *)
Definition totalCostOf (fills : list VirtualLevel.t) : Q :=
  fold_right Qplus 0
    (map (λ fill, VirtualLevel.Amount fill * VirtualLevel.Price fill) fills).

(** [fill] is taken from [level]: same price, route and per-hop prices,
    and no more than the level offers. *)
Definition filledFrom (fill level : VirtualLevel.t) : Prop :=
  VirtualLevel.Price fill = VirtualLevel.Price level
  ∧ VirtualLevel.Route fill = VirtualLevel.Route level
  ∧ VirtualLevel.LevelPrices fill = VirtualLevel.LevelPrices level
  ∧ VirtualLevel.Amount fill <= VirtualLevel.Amount level.

(** *** Path enumerator *)

(** Only currencies of the current path are marked in [visited]. *)
Definition visitedWithin (visited : gmap string bool) (currentPath : list string) : Prop :=
  ∀ x, isVisited visited x = true → x ∈ currentPath.

(** *** Graph builder *)

(** [pair] is over the currencies [x] and [y], in one direction or the
    other. *)
Definition joins (pair : TradingPair.t) (x y : string) : Prop :=
  (TradingPair.Base pair = x ∧ TradingPair.Quote pair = y)
  ∨ (TradingPair.Base pair = y ∧ TradingPair.Quote pair = x).

(** Prices do not decrease / do not increase along a level list. *)
Definition ascending (levels : list Level.t) : Prop :=
  Sorted (λ a b, Level.Price a <= Level.Price b) levels.

Definition descending (levels : list Level.t) : Prop :=
  Sorted (λ a b, Level.Price b <= Level.Price a) levels.

(** *** Candidates *)

(** The candidate is one choice of a level in every hop: it has one
    index and one price per hop, the price is the price of the chosen
    level, and its volume bound is at most what the chosen level offers. *)
Definition chooses (allHopLevels : list (list Level.t)) (candidate : RouteCandidate.t)
    : Prop :=
  length (RouteCandidate.levelIndices candidate) = length allHopLevels
  ∧ length (RouteCandidate.prices candidate) = length allHopLevels
  ∧ ∀ hopIdx levelIdx,
      RouteCandidate.levelIndices candidate !! hopIdx = Some levelIdx →
      ∃ hop level,
        allHopLevels !! hopIdx = Some hop ∧ hop !! levelIdx = Some level
        ∧ RouteCandidate.prices candidate !! hopIdx = Some (Level.Price level)
        ∧ RouteCandidate.maxVolume candidate <= Level.Amount level.

(** The volume bound of the candidate is the quantity of one of the
    levels it chooses. *)
Definition boundAttained (allHopLevels : list (list Level.t))
    (candidate : RouteCandidate.t) : Prop :=
  ∃ hopIdx levelIdx hop level,
    RouteCandidate.levelIndices candidate !! hopIdx = Some levelIdx
    ∧ allHopLevels !! hopIdx = Some hop ∧ hop !! levelIdx = Some level
    ∧ Level.Amount level = RouteCandidate.maxVolume candidate.

(** What the arguments of [generateAllRouteCandidates] say about the hops
    chosen so far. *)
Definition chosenSoFar (chosen : list (list Level.t)) (currentPrices : list Q)
    (currentIndices : list nat) : Prop :=
  length currentIndices = length chosen
  ∧ length currentPrices = length chosen
  ∧ ∀ hopIdx levelIdx, currentIndices !! hopIdx = Some levelIdx →
      ∃ hop level,
        chosen !! hopIdx = Some hop ∧ hop !! levelIdx = Some level
        ∧ currentPrices !! hopIdx = Some (Level.Price level).

(** Everything that holds of a generated candidate. *)
Definition wellFormed (allHopLevels : list (list Level.t))
    (candidate : RouteCandidate.t) : Prop :=
  chooses allHopLevels candidate
  ∧ boundAttained allHopLevels candidate
  ∧ RouteCandidate.finalPrice candidate = productOf (RouteCandidate.prices candidate)
  ∧ 0 < RouteCandidate.maxVolume candidate.

(** The number of ways to choose one level in every hop. *)
Definition choices (hops : list (list Level.t)) : nat :=
  fold_right (λ hop n, (length hop * n)%nat) 1%nat hops.

(** *** Greedy selection *)

(** One of the levels the candidate chooses has nothing left. *)
Definition exhausted (remainingVolumes : list (list Q)) (candidate : RouteCandidate.t)
    : Prop :=
  ∃ hopIdx levelIdx,
    RouteCandidate.levelIndices candidate !! hopIdx = Some levelIdx
    ∧ remainingAt remainingVolumes hopIdx levelIdx <= 0.

(** The order of candidates by final price: ascending for asks,
    descending for bids. *)
Definition bestFirst (isAsk : bool) (x y : Q) : Prop :=
  if isAsk then x <= y else y <= x.

(** *** Virtual levels *)

(** The level has one per-hop price for every hop of its route. *)
Definition pricedPerHop (level : VirtualLevel.t) : Prop :=
  length (VirtualLevel.Route level) = S (length (VirtualLevel.LevelPrices level)).

(** ** The first version of the package

    The source holds the package twice.  The first version has no cap on
    the levels of a pair, sorts with two hand-written exchange sorts
    instead of [sort.Slice], and its executor takes the side as an
    argument and returns the fills alone; [executeOnVirtualOrderbook]
    belongs to it.  The functions that differ are embedded here under
    their own names. *)

Module V1.

(** [buildGraph]: the pair is stored as it is given. *)
Definition buildGraphStep (graph : Graph) (pair : TradingPair.t) : Graph :=
  let graph := ensureRow graph (TradingPair.Base pair) in
  let graph := ensureRow graph (TradingPair.Quote pair) in
  let graph := setEdge graph (TradingPair.Base pair) (TradingPair.Quote pair) pair in
  setEdge graph (TradingPair.Quote pair) (TradingPair.Base pair)
    (TradingPair.mk (TradingPair.Quote pair) (TradingPair.Base pair)
       (invertOrders (TradingPair.BidOrders pair))
       (invertOrders (TradingPair.AskOrders pair))).

Definition buildGraph (pairs : list TradingPair.t) : Graph :=
  fold_left buildGraphStep pairs ∅.

(** The body of the inner loop of the two sorts:
    [if shouldSwap { a[i], a[j] = a[j], a[i] }].  Go panics on an index
    out of range; the loops below only produce indices within the slice. *)
Definition exchangeStep {A : Type} (shouldSwap : A → A → bool) (i j : nat)
    (slice : list A) : list A :=
  match slice !! i, slice !! j with
  | Some first, Some second =>
      if shouldSwap first second then <[j := first]> (<[i := second]> slice) else slice
  | _, _ => slice
  end.

(** [for j := i + 1; j < n; j++ { ... }] *)
Definition exchangeInner {A : Type} (shouldSwap : A → A → bool) (n i : nat)
    (slice : list A) : list A :=
  fold_left (λ slice j, exchangeStep shouldSwap i j slice) (seq (S i) (n - S i)) slice.

(** [n := len(a); for i := 0; i < n-1; i++ { ... }].  For the empty slice
    [n-1] is [-1] in Go and [0] here; the loop does not run in either
    case. *)
Definition exchangeSort {A : Type} (shouldSwap : A → A → bool) (slice : list A)
    : list A :=
  let n := length slice in
  fold_left (λ slice i, exchangeInner shouldSwap n i slice) (seq 0 (n - 1)) slice.

Definition sortCandidatesByPrice (candidates : list RouteCandidate.t) (isAsk : bool)
    : list RouteCandidate.t :=
  exchangeSort
    (λ ci cj,
       if isAsk
       then Qltb (RouteCandidate.finalPrice cj) (RouteCandidate.finalPrice ci)
       else Qltb (RouteCandidate.finalPrice ci) (RouteCandidate.finalPrice cj))
    candidates.

Definition sortVirtualLevels (levels : list VirtualLevel.t) (isAsk : bool)
    : list VirtualLevel.t :=
  if isAsk
  then exchangeSort
         (λ first second,
            Qltb (VirtualLevel.Price second) (VirtualLevel.Price first)) levels
  else exchangeSort
         (λ first second,
            Qltb (VirtualLevel.Price first) (VirtualLevel.Price second)) levels.

(** An element of [BestRoute]. *)
Module Fill.
Record t : Type := mk {
  Route : list string;
  Price : Q;
  Amount : Q;
  LevelPrices : list Q
}.
End Fill.

Module Exec.
Record t : Type := mk {
  remainingAmount : Q;
  totalCost : Q;
  executedAmount : Q;
  bestRoute : list Fill.t
}.
End Exec.

(** The loop of [findBestRouteFromVirtualOrderbook]. *)
Fixpoint executeLevels (isAsk : bool) (levels : list VirtualLevel.t) (state : Exec.t)
    : Exec.t :=
  match levels with
  | [] => state
  | level :: rest =>
      if Qle_bool (Exec.remainingAmount state) 0 then state
      else
        let executed := Qmin (Exec.remainingAmount state) (VirtualLevel.Amount level) in
        let executedAmount := Exec.executedAmount state + executed in
        let totalCost :=
          if isAsk
          then let cost := executed * VirtualLevel.Price level in
               Exec.totalCost state + cost
          else let received := executed * VirtualLevel.Price level in
               Exec.totalCost state + received in
        executeLevels isAsk rest
          (Exec.mk (Exec.remainingAmount state - executed) totalCost executedAmount
             (Exec.bestRoute state
                ++ [Fill.mk (VirtualLevel.Route level) (VirtualLevel.Price level)
                      executed (VirtualLevel.LevelPrices level)]))
  end.

Definition findBestRouteFromVirtualOrderbook (levels : list VirtualLevel.t)
    (targetAmount : Q) (isAsk : bool) : list Fill.t :=
  match levels with
  | [] => []
  | _ => Exec.bestRoute (executeLevels isAsk levels (Exec.mk targetAmount 0 0 []))
  end.

Definition executeOnVirtualOrderbook (virtualPair : VirtualTradingPair.t)
    (targetAmount : Q) : list Fill.t * list Fill.t :=
  let bestAskRoute :=
    findBestRouteFromVirtualOrderbook
      (VirtualTradingPair.AskOrders virtualPair) targetAmount true in
  let bestBidRoute :=
    findBestRouteFromVirtualOrderbook
      (VirtualTradingPair.BidOrders virtualPair) targetAmount false in
  (bestAskRoute, bestBidRoute).

(** A fill of the second version, written as an element of [BestRoute]. *)
Definition fillOf (fill : VirtualLevel.t) : Fill.t :=
  Fill.mk (VirtualLevel.Route fill) (VirtualLevel.Price fill)
    (VirtualLevel.Amount fill) (VirtualLevel.LevelPrices fill).

(** What holds in the inner loop of the sorts at position [i], before the
    iteration for [j]: the slice is a rearrangement of the one the loop
    started with, nothing before [i] has moved, and the element at [i] need
    not be swapped with any element between [i] and [j]. *)
Definition innerInvariant {A : Type} (shouldSwap : A → A → bool) (n : nat)
    (start : list A) (i j : nat) (slice : list A) : Prop :=
  length slice = n
  ∧ take i slice = take i start
  ∧ slice ≡ₚ start
  ∧ ∀ k y, (i < k < j)%nat → slice !! k = Some y →
      ∃ x, slice !! i = Some x ∧ shouldSwap x y = false.

(** What holds in the outer loop before the iteration for [i]: the slice
    before [i] is in order, and none of its elements need be swapped with
    a later one. *)
Definition outerInvariant {A : Type} (shouldSwap : A → A → bool) (n : nat)
    (start : list A) (i : nat) (slice : list A) : Prop :=
  length slice = n
  ∧ slice ≡ₚ start
  ∧ StronglySorted (λ x y, shouldSwap x y = false) (take i slice)
  ∧ ∀ x y, x ∈ take i slice → y ∈ drop i slice → shouldSwap x y = false.

End V1.

(** ** [float64] as it is

    Where a statement is about the rounding of [float64] itself, the
    exact rationals say nothing.  [invertOrders] is therefore embedded a
    second time, on the binary64 numbers of the kernel ([PrimFloat]), whose
    operations are the IEEE 754 operations of Go's [float64]:
    [PrimFloat.div] and [PrimFloat.mul] round to nearest, ties to even,
    and overflow to an infinity and underflow to a subnormal or zero as
    the hardware does. *)

Module Level64.
Record t : Type := mk { Price : float; Amount : float }.
End Level64.

Fixpoint invertOrders64 (levels : list Level64.t) : list Level64.t :=
  match levels with
  | [] => []
  | level :: rest =>
      if PrimFloat.ltb PrimFloat.zero (Level64.Price level)
      then Level64.mk (PrimFloat.div PrimFloat.one (Level64.Price level))
             (PrimFloat.mul (Level64.Amount level) (Level64.Price level))
             :: invertOrders64 rest
      else invertOrders64 rest
  end.

(** [2^e] as a rational. *)
Definition pow2 (e : Z) : Q := 2 ^ e.

(** The rational a binary64 number stands for; [0] for the infinities and
    NaN, which [isFinite] tells apart. *)
Definition SF2Q (x : SpecFloat.spec_float) : Q :=
  match x with
  | SpecFloat.S754_finite s m e =>
      (if s then - inject_Z (Zpos m) else inject_Z (Zpos m)) * pow2 e
  | _ => 0
  end.

Definition valueOf (x : float) : Q := SF2Q (FloatOps.Prim2SF x).

Definition isFinite (x : float) : bool :=
  match FloatOps.Prim2SF x with
  | SpecFloat.S754_finite _ _ _ | SpecFloat.S754_zero _ => true
  | _ => false
  end.

(** [x] equals [y] within [1e-9] relative error, both being numbers. *)
Definition close64 (x y : float) : Prop :=
  isFinite x = true ∧ isFinite y = true ∧ withinRelative (valueOf x) (valueOf y).

(** The round trip of a level list, as the claim reads it. *)
Definition roundTrip64 (levels : list Level64.t) : Prop :=
  Forall2
    (λ back level,
       close64 (Level64.Price back) (Level64.Price level)
       ∧ close64 (Level64.Amount back) (Level64.Amount level))
    (invertOrders64 (invertOrders64 levels)) levels.

(** A number in the middle of the normal range of binary64: between
    [2^-1020] and [2^1020] in absolute value (about [9e-308] and
    [1e307]). *)
Definition normalRange (q : Q) : Prop :=
  pow2 (-1020) <= Qabs q ∧ Qabs q <= pow2 1020.

(** A level whose inversion neither overflows nor underflows: the price is
    a positive number between [2^-999] and [2^999], so that its reciprocal
    and the reciprocal of that are normal numbers; the quantity is a number
    that is zero or such that the quantity and its product with the price
    are both in the normal range. *)
Definition invertible (level : Level64.t) : Prop :=
  isFinite (Level64.Price level) = true
  ∧ pow2 (-999) <= valueOf (Level64.Price level)
  ∧ valueOf (Level64.Price level) <= pow2 999
  ∧ isFinite (Level64.Amount level) = true
  ∧ (valueOf (Level64.Amount level) == 0
     ∨ (normalRange (valueOf (Level64.Amount level))
        ∧ normalRange
            (valueOf (Level64.Amount level) * valueOf (Level64.Price level)))).

(** ** Scenario data, continued *)

(** One level with the price and the quantity [1e-200], that is the
    binary64 number nearest to it. *)
Definition tinyLevels : list Level64.t :=
  [ Level64.mk 0x1.87e92154ef7acp-665%float 0x1.87e92154ef7acp-665%float ].

(** An everyday level: price [0.3], quantity [100]. *)
Definition everydayLevels : list Level64.t :=
  [ Level64.mk 0x1.3333333333333p-2%float 100%float ].

(** Three pairs that give the request A/B two bids closer than the merge
    tolerance: the direct bid at [2] and the bid through C at
    [1 * 1.999999999]. *)
Definition closeBidPairs : list TradingPair.t :=
  [ TradingPair.mk "A" "B" [] [L 2 10];
    TradingPair.mk "A" "C" [] [L 1 10];
    TradingPair.mk "C" "B" [] [L (1999999999 # 1000000000) 10] ].

(** * Properties *)

(** ** Comparisons *)

Lemma Qltb_lt (a b : Q) : Qltb a b = true ↔ a < b.
Proof.
  unfold Qltb. rewrite Qlt_alt. destruct (a ?= b); split; congruence.
Qed.

Lemma Qltb_ge (a b : Q) : Qltb a b = false ↔ b <= a.
Proof.
  rewrite <- not_true_iff_false, Qltb_lt. split.
  - apply Qnot_lt_le.
  - apply Qle_not_lt.
Qed.

Lemma Qle_bool_gt (a b : Q) : Qle_bool a b = false ↔ b < a.
Proof.
  rewrite <- not_true_iff_false, Qle_bool_iff. split.
  - apply Qnot_le_lt.
  - apply Qlt_not_le.
Qed.

(** ** Executor *)

Section Executor.

Implicit Types (levels : list VirtualLevel.t) (state : Exec.t).

(** An exhausted request stops the loop at once. *)
Lemma executeLevels_stop levels state :
  Exec.remainingAmount state <= 0 → executeLevels levels state = state.
Proof.
  intros Hle. destruct levels as [|level rest]; [done|].
  simpl. apply Qle_bool_iff in Hle. by rewrite Hle.
Qed.

(** The fills are appended to the route the loop started with. *)
Lemma executeLevels_bestRoute levels state :
  ∃ fills,
    Exec.bestRoute (executeLevels levels state) = Exec.bestRoute state ++ fills
    ∧ Exec.remainingAmount (executeLevels levels state)
        == Exec.remainingAmount state - totalAmount fills
    ∧ (0 <= Exec.remainingAmount state →
       0 <= Exec.remainingAmount (executeLevels levels state))
    ∧ (Forall (λ level, 0 <= VirtualLevel.Amount level) levels →
       totalAmount fills <= totalAmount levels)
    ∧ (0 < Exec.remainingAmount (executeLevels levels state) → fills = levels).
Proof.
  revert state. induction levels as [|level rest IH]; intros state.
  - exists []. simpl. rewrite app_nil_r. unfold totalAmount; simpl.
    repeat split; auto with qarith. ring.
  - simpl. destruct (Qle_bool (Exec.remainingAmount state) 0) eqn:Hstop.
    + apply Qle_bool_iff in Hstop. exists []. rewrite app_nil_r.
      unfold totalAmount at 1 2; simpl. repeat split.
      * ring.
      * auto.
      * intros Hall. clear -Hall. unfold totalAmount.
        induction Hall as [|x l Hx _ IHl]; simpl; [lra|]. simpl in IHl. lra.
      * intros Hpos. lra.
    + apply Qle_bool_gt in Hstop.
      set (executed := Qmin (Exec.remainingAmount state) (VirtualLevel.Amount level)).
      set (fill := VirtualLevel.mk (VirtualLevel.Price level) executed
                     (VirtualLevel.Route level) (VirtualLevel.LevelPrices level)).
      match goal with |- context [executeLevels rest ?s] => set (state' := s) end.
      destruct (IH state') as (fills & Hroute & Hrem & Hnn & Hle & Hall).
      assert (Hmin1 : executed <= Exec.remainingAmount state) by apply Q.le_min_l.
      assert (Hmin2 : executed <= VirtualLevel.Amount level) by apply Q.le_min_r.
      exists (fill :: fills). repeat split.
      * rewrite Hroute. subst state'. simpl. by rewrite <- app_assoc.
      * rewrite Hrem. subst state'. unfold totalAmount. simpl. ring.
      * intros _. apply Hnn. subst state'. simpl. lra.
      * intros Hlevels. inversion Hlevels as [|? ? Hlevel Hrest]; subst.
        specialize (Hle Hrest). unfold totalAmount in *. simpl. lra.
      * intros Hpos. specialize (Hall Hpos). subst fills. f_equal.
        assert (Hlt : VirtualLevel.Amount level < Exec.remainingAmount state).
        { apply Qnot_le_lt. intros Hge.
          assert (Heq : executed == Exec.remainingAmount state)
            by (apply Q.min_l; exact Hge).
          assert (Hz : Exec.remainingAmount state' <= 0)
            by (subst state'; simpl; lra).
          rewrite (executeLevels_stop rest state' Hz) in Hpos. lra. }
        subst fill executed. unfold Qmin, GenericMinMax.gmin.
        apply Qgt_alt in Hlt. rewrite Hlt. by destruct level.
Qed.

End Executor.

(** The fills returned are the route accumulated by the loop. *)
Lemma findBestRoute_fills (levels : list VirtualLevel.t) (targetAmount : Q) :
  (findBestRouteFromVirtualOrderbook levels targetAmount).2
  = Exec.bestRoute (executeLevels levels (Exec.mk targetAmount 0 0 [])).
Proof. by destruct levels. Qed.

(** The bound on the fills, shared by the statements below. *)
Lemma fills_bounded (levels : list VirtualLevel.t) (targetAmount : Q) :
  0 <= targetAmount →
  Forall (λ level, 0 <= VirtualLevel.Amount level) levels →
  let fills := (findBestRouteFromVirtualOrderbook levels targetAmount).2 in
  totalAmount fills <= Qmin targetAmount (totalAmount levels)
  ∧ (targetAmount == 0 → fills = [])
  ∧ (totalAmount fills < targetAmount → fills = levels).
Proof.
  intros Htarget Hlevels. cbv zeta. rewrite findBestRoute_fills.
  destruct (executeLevels_bestRoute levels (Exec.mk targetAmount 0 0 []))
    as (fills & Hroute & Hrem & Hnn & Hle & Hall).
  simpl in Hroute, Hrem, Hnn. rewrite Hroute. split; [|split].
  - apply Q.min_glb; [|by apply Hle]. specialize (Hnn Htarget). lra.
  - intros Hzero.
    rewrite executeLevels_stop in Hroute by (simpl; lra).
    simpl in Hroute. by subst fills.
  - intros Hshort. apply Hall. lra.
Qed.



(** C10. On an empty book the executor returns no fill and the price NaN,
    whatever the target; on a non-empty book a target [<= 0] gives no fill
    and the price 0. *)
Theorem executor_empty_book_and_nonpositive_target :
  (∀ targetAmount : Q,
     findBestRouteFromVirtualOrderbook [] targetAmount = (NaN, []))
  ∧ (∀ (levels : list VirtualLevel.t) (targetAmount : Q),
       levels ≠ [] → targetAmount <= 0 →
       findBestRouteFromVirtualOrderbook levels targetAmount = (Finite 0, [])).
Proof.
  split; [done|]. intros levels targetAmount Hne Htarget.
  destruct levels as [|level rest]; [done|].
  unfold findBestRouteFromVirtualOrderbook.
  rewrite executeLevels_stop by exact Htarget. simpl.
  replace (Qltb 0 0) with false by done. done.
Qed.

Lemma executor_empty_book_and_nonpositive_target_witness :
  findBestRouteFromVirtualOrderbook [] 300 = (NaN, [])
  ∧ findBestRouteFromVirtualOrderbook oneLevelBook 0 = (Finite 0, []).
Proof.
  split.
  - apply (proj1 executor_empty_book_and_nonpositive_target).
  - apply (proj2 executor_empty_book_and_nonpositive_target).
    + discriminate.
    + vm_compute; discriminate.
Defined.

(** ** Order inversion *)

Lemma invertOrders_positive (levels : list Level.t) :
  Forall (λ level, 0 < Level.Price level) (invertOrders levels).
Proof.
  induction levels as [|level rest IH]; simpl; [constructor|].
  destruct (Qltb 0 (Level.Price level)) eqn:Hpos; [|done].
  constructor; [|done]. simpl. apply Qltb_lt in Hpos.
  unfold Qdiv. rewrite Qmult_1_l. by apply Qinv_lt_0_compat.
Qed.

(** [invertOrders] keeps the levels with a positive price, in order, and
    maps each [(p, v)] to [(1/p, v*p)]. *)
Lemma invertOrders_filter_map (levels : list Level.t) :
  invertOrders levels
  = map (λ level, Level.mk (1 / Level.Price level)
                    (Level.Amount level * Level.Price level))
      (List.filter (λ level, Qltb 0 (Level.Price level)) levels).
Proof.
  induction levels as [|level rest IH]; [done|]. simpl.
  destruct (Qltb 0 (Level.Price level)); simpl; by rewrite IH.
Qed.

(** With exact rationals in place of [float64], inverting twice a level
    list whose prices are all positive gives back every level as it was,
    hence within [1e-9] relative error.  What the rounding of [float64]
    makes of this is the subject of [invertOrders64_round_trip]. *)
Theorem invertOrders_round_trip (levels : list Level.t) :
  Forall (λ level, 0 < Level.Price level) levels →
  Forall2
    (λ level level',
       withinRelative (Level.Price level') (Level.Price level)
       ∧ withinRelative (Level.Amount level') (Level.Amount level))
    levels (invertOrders (invertOrders levels)).
Proof.
  assert (Hexact : ∀ x y : Q, x == y → withinRelative x y).
  { intros x y Heq. unfold withinRelative.
    assert (Hz : x - y == 0) by lra. rewrite Hz. simpl.
    apply Qmult_le_0_compat; [discriminate|apply Qabs_nonneg]. }
  induction 1 as [|level rest Hpos _ IH]; simpl; [constructor|].
  pose proof Hpos as Hb. apply Qltb_lt in Hb. rewrite Hb. simpl.
  assert (Hinv : 0 < 1 / Level.Price level).
  { unfold Qdiv. rewrite Qmult_1_l. by apply Qinv_lt_0_compat. }
  apply Qltb_lt in Hinv. rewrite Hinv.
  constructor; [|exact IH]. simpl. split; apply Hexact; field; lra.
Qed.

Lemma invertOrders_round_trip_witness :
  Forall2
    (λ level level',
       withinRelative (Level.Price level') (Level.Price level)
       ∧ withinRelative (Level.Amount level') (Level.Amount level))
    [L 30 10; L 20 15] (invertOrders (invertOrders [L 30 10; L 20 15])).
Proof.
  apply invertOrders_round_trip.
  repeat constructor.
Defined.

(** ** Graph builder *)

Section GraphBuilder.

Implicit Types (graph : Graph) (pair : TradingPair.t) (pairs : list TradingPair.t).

Lemma edge_ensureRow graph c a b :
  edge (ensureRow graph c) a b = edge graph a b.
Proof.
  unfold ensureRow, edge. destruct (graph !! c) eqn:Hrow; [done|].
  destruct (decide (a = c)) as [->|Hne].
  - rewrite lookup_insert_eq, Hrow. done.
  - by rewrite lookup_insert_ne.
Qed.

Lemma edge_setEdge graph a b stored x y :
  edge (setEdge graph a b stored) x y
  = if decide (x = a ∧ y = b) then Some stored else edge graph x y.
Proof.
  unfold setEdge, edge. destruct (decide (x = a)) as [->|Hne].
  - rewrite lookup_insert_eq. simpl. destruct (decide (y = b)) as [->|Hne].
    + rewrite lookup_insert_eq. by rewrite decide_True.
    + rewrite lookup_insert_ne by done. rewrite decide_False by tauto.
      by destruct (graph !! a).
  - rewrite lookup_insert_ne by done. by rewrite decide_False by tauto.
Qed.

(** The loop body writes two cells and leaves the others alone; the
    reverse cell is written last. *)
Lemma edge_buildGraphStep graph pair x y :
  edge (buildGraphStep graph pair) x y
  = if decide (x = TradingPair.Quote pair ∧ y = TradingPair.Base pair)
    then Some (reversePair (limitedPair pair))
    else if decide (x = TradingPair.Base pair ∧ y = TradingPair.Quote pair)
         then Some (limitedPair pair)
         else edge graph x y.
Proof.
  unfold buildGraphStep. rewrite !edge_setEdge, !edge_ensureRow. done.
Qed.

Lemma buildGraph_snoc pairs pair :
  buildGraph (pairs ++ [pair]) = buildGraphStep (buildGraph pairs) pair.
Proof. unfold buildGraph. by rewrite fold_left_app. Qed.

(** Pairs over other currencies leave an edge as it is. *)
Lemma edge_fold_buildGraphStep pairs graph pair x y :
  Forall (λ other, ¬ sameCurrencies other pair) pairs →
  (x = TradingPair.Base pair ∧ y = TradingPair.Quote pair)
  ∨ (x = TradingPair.Quote pair ∧ y = TradingPair.Base pair) →
  edge (fold_left buildGraphStep pairs graph) x y = edge graph x y.
Proof.
  intros Hothers Hxy. revert graph.
  induction Hothers as [|other rest Hother _ IH]; intros graph; [done|].
  simpl. rewrite IH, edge_buildGraphStep.
  unfold sameCurrencies in Hother.
  repeat case_decide; try done; exfalso; apply Hother;
    destruct_and?; destruct Hxy as [[-> ->]|[-> ->]]; auto.
Qed.

Lemma buildGraph_stores pairs1 pair pairs2 :
  TradingPair.Base pair ≠ TradingPair.Quote pair →
  Forall (λ other, ¬ sameCurrencies other pair) pairs2 →
  let graph := buildGraph (pairs1 ++ pair :: pairs2) in
  edge graph (TradingPair.Base pair) (TradingPair.Quote pair)
    = Some (limitedPair pair)
  ∧ edge graph (TradingPair.Quote pair) (TradingPair.Base pair)
    = Some (reversePair (limitedPair pair)).
Proof.
  intros Hne Hothers graph. subst graph. unfold buildGraph.
  rewrite fold_left_app. simpl.
  rewrite !(edge_fold_buildGraphStep pairs2 _ pair) by auto.
  rewrite !edge_buildGraphStep.
  repeat case_decide; destruct_and?; try done; tauto.
Qed.

(** Every stored edge has its reverse, and the two come from one input
    pair. *)
Lemma buildGraph_paired pairs x y stored :
  edge (buildGraph pairs) x y = Some stored →
  ∃ back,
    edge (buildGraph pairs) y x = Some back
    ∧ (x ≠ y →
       ∃ pair, pair ∈ pairs
         ∧ ((storesInput pair x y stored ∧ back = reversePair stored)
            ∨ (storesInput pair y x back ∧ stored = reversePair back))).
Proof.
  revert x y stored. induction pairs as [|pair pairs IH] using rev_ind;
    intros x y stored.
  { unfold buildGraph, edge. simpl. by rewrite lookup_empty. }
  rewrite buildGraph_snoc, edge_buildGraphStep. intros Hedge.
  destruct (decide (x = TradingPair.Quote pair ∧ y = TradingPair.Base pair))
    as [[-> ->]|Hrev].
  - injection Hedge as <-.
    destruct (decide (TradingPair.Base pair = TradingPair.Quote pair)) as [Heq|Hne].
    + exists (reversePair (limitedPair pair)). split; [|congruence].
      rewrite edge_buildGraphStep, decide_True; done.
    + exists (limitedPair pair). split.
      * rewrite edge_buildGraphStep, decide_False by (intros [? _]; congruence).
        by rewrite decide_True.
      * intros _. exists pair. split; [apply elem_of_app; right; by apply list_elem_of_singleton|]. by right.
  - destruct (decide (x = TradingPair.Base pair ∧ y = TradingPair.Quote pair))
      as [[-> ->]|Hfwd].
    + injection Hedge as <-. exists (reversePair (limitedPair pair)). split.
      * rewrite edge_buildGraphStep, decide_True; done.
      * intros _. exists pair. split; [apply elem_of_app; right; by apply list_elem_of_singleton|]. by left.
    + destruct (IH _ _ _ Hedge) as (back & Hback & Hfrom).
      exists back. split.
      * rewrite edge_buildGraphStep, !decide_False by (intros [? ?]; tauto). done.
      * intros Hxy. destruct (Hfrom Hxy) as (other & Hin & Hcases).
        exists other. split; [apply elem_of_app; by left|done].
Qed.

End GraphBuilder.

(** C7. An input pair (with distinct currencies, not overwritten by a
    later pair over the same two currencies) is stored with its asks and
    its bids cut to their first 5 levels, and the reverse edge is built from
    the cut lists: its bids are the inversion of the first 5 asks, its asks
    the inversion of the first 5 bids. *)
Theorem level_cap_before_reverse (pairs1 : list TradingPair.t)
    (pair : TradingPair.t) (pairs2 : list TradingPair.t) :
  TradingPair.Base pair ≠ TradingPair.Quote pair →
  Forall (λ other, ¬ sameCurrencies other pair) pairs2 →
  ∃ forward reversed,
    edge (buildGraph (pairs1 ++ pair :: pairs2))
      (TradingPair.Base pair) (TradingPair.Quote pair) = Some forward
    ∧ edge (buildGraph (pairs1 ++ pair :: pairs2))
        (TradingPair.Quote pair) (TradingPair.Base pair) = Some reversed
    ∧ TradingPair.AskOrders forward = take 5 (TradingPair.AskOrders pair)
    ∧ TradingPair.BidOrders forward = take 5 (TradingPair.BidOrders pair)
    ∧ TradingPair.BidOrders reversed
      = invertOrders (take 5 (TradingPair.AskOrders pair))
    ∧ TradingPair.AskOrders reversed
      = invertOrders (take 5 (TradingPair.BidOrders pair))
    ∧ (length (TradingPair.AskOrders forward) ≤ 5)%nat
    ∧ (length (TradingPair.BidOrders reversed) ≤ 5)%nat.
Proof.
  intros Hne Hothers.
  destruct (buildGraph_stores pairs1 pair pairs2 Hne Hothers) as [Hfwd Hrev].
  exists (limitedPair pair), (reversePair (limitedPair pair)).
  repeat split; try done.
  - simpl. rewrite length_take. unfold MAX_LEVELS_PER_PAIR. lia.
  - simpl. rewrite invertOrders_filter_map, length_map.
    etrans; [apply List.filter_length_le|].
    rewrite length_take. unfold MAX_LEVELS_PER_PAIR. lia.
Qed.

Lemma level_cap_before_reverse_witness :
  ∃ forward reversed,
    edge (buildGraph [tenAsks]) "KNC" "ETH" = Some forward
    ∧ edge (buildGraph [tenAsks]) "ETH" "KNC" = Some reversed
    ∧ TradingPair.AskOrders forward = [L 1 1; L 2 1; L 3 1; L 4 1; L 5 1]
    ∧ length (TradingPair.BidOrders reversed) = 5%nat.
Proof.
  assert (Hne : TradingPair.Base tenAsks ≠ TradingPair.Quote tenAsks) by discriminate.
  destruct (level_cap_before_reverse [] tenAsks [] Hne (Forall_nil_2 _))
    as (forward & reversed & Hfwd & Hrev & Hasks & _ & Hbids & _).
  exists forward, reversed. repeat split; [done|done|done|].
  rewrite Hbids. reflexivity.
Defined.

(** C3, as stated, fails on the synthetic edge of a pair that has a
    zero-price ask: the edge B -> A has no bids, while its reverse A -> B
    keeps the zero-price level among its asks. *)
Lemma reverse_of_synthetic_edge_not_inverted :
  ¬ (∀ (pairs : list TradingPair.t) (x y : string) (stored : TradingPair.t),
       edge (buildGraph pairs) x y = Some stored →
       ∃ back, edge (buildGraph pairs) y x = Some back ∧ invertedFrom stored back).
Proof.
  intros Hclaim.
  destruct (Hclaim zeroPricePairs "B" "A"
              (reversePair (limitedPair (TradingPair.mk "A" "B" [L 0 1] []))))
    as (back & Hback & Hasks & _); [reflexivity|].
  vm_compute in Hback. injection Hback as <-. discriminate Hasks.
Qed.

(** C3, amended. Every stored edge has a reverse edge.  When the two
    currencies differ, the two edges come from one input pair: the edge in
    the pair's direction stores the pair cut to the cap, and the opposite
    edge is its inversion: its asks are the inverted bids of the stored pair
    and its bids the inverted asks.  Inverting keeps the levels with a
    positive price, in order, and maps each [(p, v)] to [(1/p, v*p)]. *)
Theorem buildGraph_reverse_edges (pairs : list TradingPair.t) (x y : string)
    (stored : TradingPair.t) :
  edge (buildGraph pairs) x y = Some stored →
  ∃ back,
    edge (buildGraph pairs) y x = Some back
    ∧ (x ≠ y →
       ∃ pair, pair ∈ pairs
         ∧ ((storesInput pair x y stored ∧ invertedFrom stored back)
            ∨ (storesInput pair y x back ∧ invertedFrom back stored)))
    ∧ (∀ levels,
         invertOrders levels
         = map (λ level, Level.mk (1 / Level.Price level)
                           (Level.Amount level * Level.Price level))
             (List.filter (λ level, Qltb 0 (Level.Price level)) levels)).
Proof.
  intros Hedge.
  destruct (buildGraph_paired pairs x y stored Hedge) as (back & Hback & Hfrom).
  exists back. split; [done|]. split.
  - intros Hxy. destruct (Hfrom Hxy) as (pair & Hin & Hcases).
    exists pair. split; [done|].
    destruct Hcases as [[Hst ->]|[Hst ->]]; [left|right]; done.
  - apply invertOrders_filter_map.
Qed.

Lemma buildGraph_reverse_edges_witness :
  ∃ back,
    edge (buildGraph scenario1) "USDT" "ETH" = Some back
    ∧ TradingPair.AskOrders back = [L (1 / 30) (10 * 30); L (1 / 20) (15 * 20)].
Proof.
  destruct (buildGraph_reverse_edges scenario1 "ETH" "USDT"
              (limitedPair (TradingPair.mk "ETH" "USDT" [L 40 10] [L 30 10; L 20 15])))
    as (back & Hback & _ & _); [reflexivity|].
  exists back. split; [done|].
  vm_compute in Hback. injection Hback as <-. reflexivity.
Defined.

(** ** Path enumerator *)

Section Paths.

Variable graph : Graph.
Variable targetToken : string.
Variable maxDepth : Z.

Lemma findPathsRecursive_unfold fuel currentToken visited currentPath :
  findPathsRecursive fuel graph currentToken targetToken visited currentPath maxDepth
  = if (maxDepth <? Z.of_nat (length currentPath))%Z then ([], visited)
    else if bool_decide (currentToken = targetToken) && (1 <? length currentPath)%nat
    then ([currentPath], visited)
    else
      match fuel with
      | O => ([], visited)
      | S fuel' =>
          let result :=
            fold_left (visitNext fuel' graph targetToken currentPath maxDepth)
              (rangeKeys graph currentToken) ([], <[currentToken := true]> visited) in
          (result.1, <[currentToken := false]> result.2)
      end.
Proof.
  destruct fuel; simpl; [done|].
  destruct (maxDepth <? _)%Z; [done|]. destruct (_ && _); [done|].
  fold (visitNext fuel graph targetToken currentPath maxDepth).
  by destruct (fold_left _ _ _).
Qed.


Lemma isVisited_insert (visited : gmap string bool) (k k' : string) (b : bool) :
  isVisited (<[k := b]> visited) k' = if decide (k = k') then b else isVisited visited k'.
Proof.
  unfold isVisited. rewrite lookup_insert. by destruct (decide (k = k')).
Qed.

Lemma elem_of_rangeKeys currentToken nextToken :
  nextToken ∈ rangeKeys graph currentToken →
  is_Some (edge graph currentToken nextToken).
Proof.
  unfold rangeKeys, edge. intros Hin.
  apply list_elem_of_fmap in Hin as ([k stored] & -> & Hin).
  apply elem_of_map_to_list in Hin. simpl.
  destruct (graph !! currentToken) as [row|]; simpl in *.
  - by rewrite Hin.
  - by rewrite lookup_empty in Hin.
Qed.

Lemma neighbours_snoc {A : Type} (R : A → A → Prop) (l : list A) (a b : A) :
  neighbours R l → last l = Some a → R a b → neighbours R (l ++ [b]).
Proof.
  intros Hl Hlast Hab i x y Hx Hy.
  rewrite last_lookup in Hlast.
  assert (Hi : (S i < length (l ++ [b]))%nat) by (by eapply lookup_lt_Some).
  rewrite length_app in Hi. simpl in Hi.
  destruct (decide (S i < length l)%nat) as [Hlt|Hge].
  - rewrite lookup_app_l in Hx, Hy by lia. by eapply Hl.
  - assert (Hlen : length l = S i) by lia.
    rewrite Hlen in Hlast. simpl in Hlast.
    rewrite lookup_app_l in Hx by lia.
    rewrite lookup_app_r in Hy by lia. rewrite Hlen, Nat.sub_diag in Hy.
    simpl in Hy. congruence.
Qed.

Variable start : string.

Local Abbreviation pathInvariant := (pathInvariant graph start).
Local Abbreviation soundAt := (soundAt graph start targetToken maxDepth).

Lemma pathInvariant_next visited marked currentToken currentPath nextToken :
  pathInvariant visited currentToken currentPath →
  sameVisited (<[currentToken := true]> visited) marked →
  nextToken ∈ rangeKeys graph currentToken →
  isVisited marked nextToken = false →
  pathInvariant marked nextToken (currentPath ++ [nextToken]).
Proof.
  intros (Hlast & Hnodup & Hhead & Hchain & Hmarked & Hfresh) Hsame Hin Hnext.
  assert (Hall : ∀ x, x ∈ currentPath → isVisited marked x = true).
  { intros x Hx. rewrite Hsame, isVisited_insert.
    destruct (decide (currentToken = x)); [done|]. by apply Hmarked. }
  assert (Hnotin : nextToken ∉ currentPath).
  { intros Hx. apply Hall in Hx. congruence. }
  repeat split.
  - by rewrite last_snoc.
  - apply NoDup_app. split; [done|]. split; [|apply NoDup_singleton].
    intros x Hx Hx'. apply list_elem_of_singleton in Hx'. by subst.
  - destruct currentPath; [done|]. done.
  - eapply neighbours_snoc; [done|done|]. by apply elem_of_rangeKeys.
  - intros x Hx Hne. apply elem_of_app in Hx as [Hx|Hx]; [by apply Hall|].
    apply list_elem_of_singleton in Hx. done.
  - done.
Qed.

Lemma visitNext_sound fuel visited currentToken currentPath :
  soundAt fuel →
  pathInvariant visited currentToken currentPath →
  ∀ nexts state,
    (∀ nextToken, nextToken ∈ nexts → nextToken ∈ rangeKeys graph currentToken) →
    sameVisited (<[currentToken := true]> visited) state.2 →
    Forall (simplePath graph start targetToken maxDepth) state.1 →
    let result :=
      fold_left (visitNext fuel graph targetToken currentPath maxDepth) nexts state in
    sameVisited (<[currentToken := true]> visited) result.2
    ∧ Forall (simplePath graph start targetToken maxDepth) result.1.
Proof.
  intros IHfuel Hinv nexts.
  induction nexts as [|nextToken nexts IH]; intros [allPaths marked] Hnexts Hsame Hpaths.
  { done. }
  simpl in Hsame, Hpaths. simpl fold_left. apply IH.
  - intros other Hother. apply Hnexts. by right.
  - unfold visitNext. destruct (isVisited marked nextToken) eqn:Hnext; simpl; [done|].
    assert (Hinv' : pathInvariant marked nextToken (currentPath ++ [nextToken])).
    { eapply pathInvariant_next; [done|done| |done]. apply Hnexts. by left. }
    destruct (IHfuel _ _ _ Hinv') as [Hsame' _].
    destruct (findPathsRecursive _ _ _ _ _ _ _) as [pathsFromNext marked'].
    simpl in *. intros k. by rewrite Hsame'.
  - unfold visitNext. destruct (isVisited marked nextToken) eqn:Hnext; simpl; [done|].
    assert (Hinv' : pathInvariant marked nextToken (currentPath ++ [nextToken])).
    { eapply pathInvariant_next; [done|done| |done]. apply Hnexts. by left. }
    destruct (IHfuel _ _ _ Hinv') as [_ Hpaths'].
    destruct (findPathsRecursive _ _ _ _ _ _ _) as [pathsFromNext marked'].
    simpl in *. apply Forall_app. done.
Qed.

Lemma findPathsRecursive_sound fuel : soundAt fuel.
Proof.
  induction fuel as [|fuel IHfuel]; intros currentToken visited currentPath Hinv;
    rewrite findPathsRecursive_unfold;
    destruct (maxDepth <? Z.of_nat (length currentPath))%Z eqn:Hdepth; try done;
    destruct (bool_decide (currentToken = targetToken) && (1 <? length currentPath)%nat)
      eqn:Hemit; try done.
  - (* the path is emitted *)
    simpl. split; [done|]. apply Forall_singleton.
    destruct Hinv as (Hlast & Hnodup & Hhead & Hchain & _).
    apply andb_true_iff in Hemit as [Htarget Hlen].
    apply bool_decide_eq_true in Htarget. subst.
    apply Nat.ltb_lt in Hlen. apply Z.ltb_ge in Hdepth.
    repeat split; done.
  - simpl. split; [done|]. apply Forall_singleton.
    destruct Hinv as (Hlast & Hnodup & Hhead & Hchain & _).
    apply andb_true_iff in Hemit as [Htarget Hlen].
    apply bool_decide_eq_true in Htarget. subst.
    apply Nat.ltb_lt in Hlen. apply Z.ltb_ge in Hdepth.
    repeat split; done.
  - (* the neighbours are visited *)
    cbv zeta.
    destruct (visitNext_sound fuel visited currentToken currentPath IHfuel Hinv
                (rangeKeys graph currentToken) ([], <[currentToken := true]> visited))
      as [Hsame Hpaths]; [done|done|done|].
    simpl. split; [|done].
    intros k. rewrite isVisited_insert. destruct (decide (currentToken = k)) as [<-|Hne].
    + symmetry. apply Hinv.
    + rewrite Hsame, isVisited_insert. by rewrite decide_False.
Qed.

End Paths.

(** C8. A path returned by [findAllPaths] has at least two currencies, no
    currency twice, starts at [start], ends at [end_], has at most
    [maxDepth] currencies, and every two consecutive currencies are joined
    by an edge of the graph. *)
Theorem findAllPaths_sound (graph : Graph) (start end_ : string) (maxDepth : Z)
    (path : list string) :
  path ∈ findAllPaths graph start end_ maxDepth →
  (2 ≤ length path)%nat
  ∧ NoDup path
  ∧ head path = Some start
  ∧ last path = Some end_
  ∧ (Z.of_nat (length path) ≤ maxDepth)%Z
  ∧ ∀ (i : nat) (a b : string),
      path !! i = Some a → path !! S i = Some b → is_Some (edge graph a b).
Proof.
  unfold findAllPaths. intros Hin.
  destruct (findPathsRecursive_sound graph end_ maxDepth start (Z.to_nat maxDepth)
              start ∅ [start]) as [_ Hpaths].
  - unfold pathInvariant. split_and!.
    + done.
    + apply NoDup_singleton.
    + done.
    + intros i a b Ha Hb. by destruct i.
    + intros x Hx Hne. apply list_elem_of_singleton in Hx. done.
    + done.
  - rewrite Forall_forall in Hpaths. apply (Hpaths path Hin).
Qed.

Lemma findAllPaths_sound_witness :
  NoDup ["KNC"; "USDT"; "ETH"]
  ∧ ∀ (i : nat) (a b : string),
      ["KNC"; "USDT"; "ETH"] !! i = Some a → ["KNC"; "USDT"; "ETH"] !! S i = Some b →
      is_Some (edge (buildGraph scenario1) a b).
Proof.
  assert (Hin : ["KNC"; "USDT"; "ETH"]
                ∈ findAllPaths (buildGraph scenario1) "KNC" "ETH" MAX_PATH_DEPTH).
  { vm_compute. left. }
  destruct (findAllPaths_sound _ _ _ _ _ Hin) as (_ & Hnodup & _ & _ & _ & Hedges).
  split; [exact Hnodup|exact Hedges].
Defined.

Lemma fold_left_pointwise {A B : Type} (f g : A → B → A) (l : list B) (a : A) :
  (∀ a b, f a b = g a b) → fold_left f l a = fold_left g l a.
Proof.
  intros Hfg. revert a. induction l as [|b l IH]; intros a; [done|].
  simpl. by rewrite Hfg, IH.
Qed.

(** The fuel is only a device for the termination checker: two amounts
    of fuel that both cover the distance to the depth bound give the same
    result, so the branch for exhausted fuel is never the one that answers. *)
Lemma findPathsRecursive_fuel (graph : Graph) (targetToken : string) (maxDepth : Z)
    (fuel1 fuel2 : nat) (currentToken : string) (visited : gmap string bool)
    (currentPath : list string) :
  (maxDepth < Z.of_nat (length currentPath + fuel1))%Z →
  (maxDepth < Z.of_nat (length currentPath + fuel2))%Z →
  findPathsRecursive fuel1 graph currentToken targetToken visited currentPath maxDepth
  = findPathsRecursive fuel2 graph currentToken targetToken visited currentPath maxDepth.
Proof.
  revert fuel2 currentToken visited currentPath.
  induction fuel1 as [|fuel1 IH]; intros fuel2 currentToken visited currentPath H1 H2;
    rewrite !findPathsRecursive_unfold;
    destruct (maxDepth <? Z.of_nat (length currentPath))%Z eqn:Hdepth; try done;
    destruct (bool_decide (currentToken = targetToken) && (1 <? length currentPath)%nat);
    try done; apply Z.ltb_ge in Hdepth.
  - lia.
  - destruct fuel2 as [|fuel2]; [lia|].
    rewrite (fold_left_pointwise (visitNext fuel1 graph targetToken currentPath maxDepth)
               (visitNext fuel2 graph targetToken currentPath maxDepth)); [done|].
    intros [allPaths marked] nextToken. unfold visitNext.
    destruct (negb (isVisited marked nextToken)); [|done].
    rewrite (IH fuel2); [done| |]; rewrite length_app; simpl; lia.
Qed.

Lemma findAllPaths_fuel (graph : Graph) (start end_ : string) (maxDepth : Z) (fuel : nat) :
  (Z.to_nat maxDepth ≤ fuel)%nat →
  findAllPaths graph start end_ maxDepth
  = (findPathsRecursive fuel graph start end_ ∅ [start] maxDepth).1.
Proof.
  intros Hfuel. unfold findAllPaths. f_equal.
  apply findPathsRecursive_fuel; simpl; lia.
Qed.

(** ** Sorting *)

Section InsertionSort.

Context {A : Type} (less : A → A → bool).
Hypothesis less_asym : ∀ x y, less x y = true → less y x = false.

Local Abbreviation notAfter := (notAfter less).

Lemma insertSorted_HdRel x y l :
  notAfter y x → HdRel notAfter y l → HdRel notAfter y (insertSorted less x l).
Proof.
  intros Hyx Hhd. destruct l as [|z l]; simpl; [by constructor|].
  destruct (less x z); constructor; [done|]. by inversion Hhd.
Qed.

Lemma insertSorted_Sorted x l :
  Sorted notAfter l → Sorted notAfter (insertSorted less x l).
Proof.
  induction 1 as [|y l Hsorted IH Hhd]; simpl; [by repeat constructor|].
  destruct (less x y) eqn:Hless.
  - constructor; [by constructor|]. constructor. by apply less_asym.
  - constructor; [done|]. by apply insertSorted_HdRel.
Qed.

Lemma insertSorted_Permutation x l : insertSorted less x l ≡ₚ x :: l.
Proof.
  induction l as [|y l IH]; simpl; [done|].
  destruct (less x y); [done|]. rewrite IH. apply Permutation_swap.
Qed.

Lemma sortSlice_Sorted l : Sorted notAfter (sortSlice less l).
Proof.
  unfold sortSlice. generalize (Sorted_nil notAfter).
  generalize (@nil A) as sorted. induction l as [|x l IH]; intros sorted Hs; [done|].
  simpl. apply IH. by apply insertSorted_Sorted.
Qed.

Lemma sortSlice_Permutation l : sortSlice less l ≡ₚ l.
Proof.
  unfold sortSlice. rewrite <- (app_nil_r l) at 2.
  generalize (@nil A) as sorted. induction l as [|x l IH]; intros sorted; [done|].
  simpl. rewrite IH, insertSorted_Permutation. by rewrite Permutation_middle.
Qed.

End InsertionSort.

Lemma Sorted_neighbours {A : Type} (R : A → A → Prop) (l : list A) :
  Sorted R l → neighbours R l.
Proof.
  induction 1 as [|x l Hsorted IH Hhd]; intros i a b Ha Hb; [done|].
  destruct i as [|i]; simpl in *.
  - injection Ha as ->. destruct Hhd; [done|]. simpl in Hb. by injection Hb as ->.
  - by eapply IH.
Qed.

(** ** Merging *)

Section Merge.

Implicit Types (current first level : VirtualLevel.t) (levels : list VirtualLevel.t).

Lemma mergeLoop_app merged current levels :
  mergeLoop merged current levels = merged ++ mergeLoop [] current levels.
Proof.
  revert merged current. induction levels as [|level rest IH]; intros merged current.
  - done.
  - simpl. destruct (samePrice level current); [apply IH|].
    rewrite (IH (merged ++ [current])), (IH [current]). by rewrite <- app_assoc.
Qed.

Lemma mergeLoop_cons current level rest :
  mergeLoop [] current (level :: rest)
  = if samePrice level current
    then mergeLoop [] (absorb current level) rest
    else current :: mergeLoop [] level rest.
Proof.
  simpl. destruct (samePrice level current); [done|]. by rewrite mergeLoop_app.
Qed.

Lemma absorb_Price current level :
  VirtualLevel.Price (absorb current level) = VirtualLevel.Price current.
Proof. unfold absorb. simpl. by destruct (Qltb _ _). Qed.

Lemma absorb_Amount current level :
  VirtualLevel.Amount (absorb current level)
  = VirtualLevel.Amount current + VirtualLevel.Amount level.
Proof. unfold absorb. simpl. by destruct (Qltb _ _). Qed.

Lemma absorb_LevelPrices current level :
  VirtualLevel.LevelPrices (absorb current level) = VirtualLevel.LevelPrices current.
Proof. unfold absorb. simpl. by destruct (Qltb _ _). Qed.

Lemma absorb_Route current level :
  VirtualLevel.Route (absorb current level)
  = if Qltb (VirtualLevel.Price level) (VirtualLevel.Price current)
    then VirtualLevel.Route level else VirtualLevel.Route current.
Proof. unfold absorb. simpl. by destruct (Qltb _ _). Qed.

(** The first level of the output carries the price the loop started
    with. *)
Lemma mergeLoop_head current levels :
  ∃ head tail,
    mergeLoop [] current levels = head :: tail
    ∧ VirtualLevel.Price head = VirtualLevel.Price current.
Proof.
  revert current. induction levels as [|level rest IH]; intros current.
  - by exists current, [].
  - rewrite mergeLoop_cons. destruct (samePrice level current).
    + destruct (IH (absorb current level)) as (head & tail & -> & Hprice).
      exists head, tail. by rewrite Hprice, absorb_Price.
    + by eexists _, _.
Qed.

(** A relation on levels that only looks at prices. *)
Variable R : Q → Q → Prop.
Local Abbreviation byPrice := (byPrice R).

(** Levels the loop does not merge are related by [R]. *)
Hypothesis R_unmerged :
  ∀ current level, samePrice level current = false → byPrice current level.

Lemma mergeLoop_unmerged current levels :
  Sorted byPrice (mergeLoop [] current levels).
Proof.
  revert current. induction levels as [|level rest IH]; intros current.
  - by repeat constructor.
  - rewrite mergeLoop_cons. destruct (samePrice level current) eqn:Hsame; [apply IH|].
    constructor; [apply IH|].
    destruct (mergeLoop_head level rest) as (head & tail & -> & Hprice).
    constructor. unfold byPrice. rewrite Hprice. by apply R_unmerged.
Qed.

End Merge.

Section MergeSorted.

(** A transitive relation on prices: merging keeps a list sorted by it. *)
Variable R : Q → Q → Prop.
Hypothesis R_trans : ∀ x y z, R x y → R y z → R x z.
Local Abbreviation byPrice := (byPrice R).

Lemma mergeLoop_sorted current levels :
  StronglySorted byPrice (current :: levels) →
  Sorted byPrice (mergeLoop [] current levels).
Proof.
  revert current. induction levels as [|level rest IH]; intros current Hsorted.
  - by repeat constructor.
  - rewrite mergeLoop_cons.
    apply StronglySorted_inv in Hsorted as [Hrest Hall].
    apply Forall_cons in Hall as [Hlevel Hall].
    destruct (samePrice level current).
    + apply IH. apply StronglySorted_inv in Hrest as [Hrest _].
      constructor; [done|]. eapply Forall_impl; [exact Hall|].
      intros other Hother. unfold byPrice. by rewrite absorb_Price.
    + constructor; [by apply IH|].
      destruct (mergeLoop_head level rest) as (head & tail & -> & Hprice).
      constructor. unfold byPrice. by rewrite Hprice.
Qed.

Lemma mergeVirtualLevels_sorted levels :
  Sorted byPrice levels → Sorted byPrice (mergeVirtualLevels levels).
Proof.
  intros Hsorted. destruct levels as [|first rest]; [done|].
  apply mergeLoop_sorted. apply Sorted_StronglySorted; [|done].
  intros x y z. apply R_trans.
Qed.

End MergeSorted.

Lemma Sorted_weaken {A : Type} (R R' : A → A → Prop) (l : list A) :
  (∀ a b, R a b → R' a b) → Sorted R l → Sorted R' l.
Proof.
  intros Himpl. induction 1 as [|x l Hsorted IH Hhd]; constructor; [done|].
  destruct Hhd; constructor; auto.
Qed.

Lemma sortVirtualLevels_sorted (levels : list VirtualLevel.t) (isAsk : bool) :
  Sorted (byPrice (if isAsk then Qle else flip Qle)) (sortVirtualLevels levels isAsk).
Proof.
  unfold sortVirtualLevels.
  eapply Sorted_weaken; [|apply sortSlice_Sorted].
  - intros a b. unfold notAfter, byPrice. destruct isAsk; simpl; apply Qltb_ge.
  - intros x y. destruct isAsk; rewrite Qltb_lt, Qltb_ge; apply Qlt_le_weak.
Qed.

Lemma mergeVirtualLevels_apart (levels : list VirtualLevel.t) :
  Sorted (byPrice apart) (mergeVirtualLevels levels).
Proof.
  destruct levels as [|first rest]; [constructor|].
  apply mergeLoop_unmerged. intros current level Hsame.
  unfold samePrice in Hsame. apply Qltb_ge in Hsame.
  unfold byPrice, apart. rewrite Qabs_Qminus. by apply Qle_not_lt.
Qed.

(** The loop of [buildVirtualOrderbook] concatenates the orders of the
    paths, side by side. *)
Lemma fold_left_orders {P : Type} (f h : P → list VirtualLevel.t) (paths : list P)
    (asks bids : list VirtualLevel.t) :
  fold_left (λ '(askOrders, bidOrders) path, (askOrders ++ f path, bidOrders ++ h path))
    paths (asks, bids)
  = (asks ++ concat (map f paths), bids ++ concat (map h paths)).
Proof.
  revert asks bids. induction paths as [|path paths IH]; intros asks bids; simpl.
  - by rewrite !app_nil_r.
  - by rewrite IH, !app_assoc.
Qed.

Lemma buildVirtualOrderbook_sides (graph : Graph) (baseCurrency quoteCurrency : string) :
  let paths := findAllPaths graph baseCurrency quoteCurrency MAX_PATH_DEPTH in
  buildVirtualOrderbook graph baseCurrency quoteCurrency
  = VirtualTradingPair.mk baseCurrency quoteCurrency
      (mergeVirtualLevels
         (sortVirtualLevels
            (concat (map (λ path, calculateOrdersFromPath graph path true) paths)) true))
      (mergeVirtualLevels
         (sortVirtualLevels
            (concat (map (λ path, calculateOrdersFromPath graph path false) paths)) false)).
Proof.
  intros paths. unfold buildVirtualOrderbook. fold paths.
  by rewrite (fold_left_orders (λ path, calculateOrdersFromPath graph path true)
                (λ path, calculateOrdersFromPath graph path false)).
Qed.


Lemma samePrice_withinTolerance (first level : VirtualLevel.t) :
  samePrice level first = true ↔ withinTolerance first level.
Proof. apply Qltb_lt. Qed.

Lemma mergeLoop_run (current : VirtualLevel.t) (run rest : list VirtualLevel.t) :
  Forall (withinTolerance current) run →
  match rest with
  | [] => True
  | next :: _ => ¬ withinTolerance current next
  end →
  mergeLoop [] current (run ++ rest)
  = VirtualLevel.mk (VirtualLevel.Price current) (runAmount current run)
      (runRoute current run) (VirtualLevel.LevelPrices current)
    :: mergeVirtualLevels rest.
Proof.
  intros Hrun. revert current Hrun.
  induction run as [|level run IH]; intros current Hrun Hrest.
  - simpl. destruct rest as [|next rest].
    + by destruct current.
    + rewrite mergeLoop_cons.
      rewrite <- samePrice_withinTolerance, not_true_iff_false in Hrest.
      rewrite Hrest. by destruct current.
  - apply Forall_cons in Hrun as [Hlevel Hrun].
    simpl app. rewrite mergeLoop_cons.
    apply samePrice_withinTolerance in Hlevel. rewrite Hlevel.
    rewrite IH.
    + unfold runAmount, runRoute. simpl.
      by rewrite absorb_Price, absorb_Amount, absorb_Route, absorb_LevelPrices.
    + eapply Forall_impl; [exact Hrun|]. intros other.
      unfold withinTolerance. by rewrite absorb_Price.
    + destruct rest; [done|]. unfold withinTolerance in *. by rewrite absorb_Price.
Qed.

Lemma runRoute_first (first : VirtualLevel.t) (run : list VirtualLevel.t) :
  Forall (λ level, VirtualLevel.Price first <= VirtualLevel.Price level) run →
  runRoute first run = VirtualLevel.Route first.
Proof.
  unfold runRoute. induction 1 as [|level run Hlevel _ IH]; [done|].
  simpl. apply Qltb_ge in Hlevel. by rewrite Hlevel.
Qed.

(** On the bid side the route is not that of the first level: two bids
    sorted by descending price and closer than the tolerance are merged
    into one level that carries the route of the second, cheaper, level and
    the per-hop prices of the first. *)
Lemma merge_takes_route_of_cheaper_bid :
  ∃ first second merged,
    closeBids = [first; second]
    ∧ VirtualLevel.Price second <= VirtualLevel.Price first
    ∧ withinTolerance first second
    ∧ mergeVirtualLevels closeBids = [merged]
    ∧ VirtualLevel.Route merged ≠ VirtualLevel.Route first
    ∧ VirtualLevel.Route merged = VirtualLevel.Route second
    ∧ VirtualLevel.LevelPrices merged = VirtualLevel.LevelPrices first.
Proof.
  eexists _, _, _. split; [reflexivity|]. split; [|split].
  - vm_compute. discriminate.
  - vm_compute. reflexivity.
  - vm_compute. repeat split. discriminate.
Qed.

(** What the merge pass makes of a run.  A run is a level [first]
    followed by levels that are each within [1e-8] of the price of [first],
    up to the end of the list or to a level that is not.  The merge pass turns the run into one level
    with the price and the per-hop prices of [first] and the sum of the
    quantities of the run; its route is the route of the last level of the
    run that is strictly cheaper than [first], and the route of [first]
    when there is none, as on a side sorted by ascending price. *)
Theorem mergeVirtualLevels_run (first : VirtualLevel.t)
    (run rest : list VirtualLevel.t) :
  Forall (withinTolerance first) run →
  match rest with
  | [] => True
  | next :: _ => ¬ withinTolerance first next
  end →
  mergeVirtualLevels (first :: run ++ rest)
  = VirtualLevel.mk (VirtualLevel.Price first) (runAmount first run)
      (runRoute first run) (VirtualLevel.LevelPrices first)
    :: mergeVirtualLevels rest
  ∧ (Forall (λ level, VirtualLevel.Price first <= VirtualLevel.Price level) run →
     runRoute first run = VirtualLevel.Route first).
Proof.
  intros Hrun Hrest. split.
  - by apply mergeLoop_run.
  - apply runRoute_first.
Qed.

Lemma mergeVirtualLevels_run_witness :
  mergeVirtualLevels equalPriceAsks
  = [ VirtualLevel.mk (5 # 100) (100 + 150) ["Q"; "X"; "B"] [1 # 10; 5 # 10] ].
Proof.
  assert (Hrun : Forall (withinTolerance (VirtualLevel.mk (5 # 100) 100 ["Q"; "X"; "B"]
                                            [1 # 10; 5 # 10]))
                   [VirtualLevel.mk (5 # 100) 150 ["Q"; "Y"; "B"] [2 # 10; 25 # 100]]).
  { repeat constructor. }
  destruct (mergeVirtualLevels_run _ _ [] Hrun I) as [Hmerge Hroute].
  rewrite Hroute in Hmerge; [exact Hmerge|].
  repeat constructor. vm_compute. discriminate.
Defined.

(** ** Candidates *)

Lemma enumerate_snoc {A : Type} (l : list A) (x : A) :
  enumerate (l ++ [x]) = enumerate l ++ [(length l, x)].
Proof.
  unfold enumerate. rewrite imap_app. simpl. by rewrite Nat.add_0_r.
Qed.

Lemma elem_of_enumerate {A : Type} (l : list A) (i : nat) (x : A) :
  (i, x) ∈ enumerate l ↔ l !! i = Some x.
Proof.
  unfold enumerate. rewrite elem_of_lookup_imap. split.
  - intros (j & y & Heq & Hy). by simplify_eq.
  - intros Hx. by exists i, x.
Qed.

Lemma fold_left_Forall {A B : Type} (P : A → Prop) (f : list A → B → list A)
    (l : list B) (acc : list A) :
  (∀ acc x, x ∈ l → Forall P acc → Forall P (f acc x)) →
  Forall P acc → Forall P (fold_left f l acc).
Proof.
  revert acc. induction l as [|x l IH]; intros acc Hstep Hacc; [done|].
  simpl. apply IH.
  - intros acc' y Hy. apply Hstep. by right.
  - apply Hstep; [by left|done].
Qed.

Section Candidates.

Variable allHopLevels : list (list Level.t).

Lemma emitCandidate_inRange currentPrices currentIndices candidates :
  inRange allHopLevels currentIndices →
  Forall (λ c, inRange allHopLevels (RouteCandidate.levelIndices c)) candidates →
  Forall (λ c, inRange allHopLevels (RouteCandidate.levelIndices c))
    (emitCandidate allHopLevels currentPrices currentIndices candidates).
Proof.
  intros Hidx Hcands. unfold emitCandidate.
  destruct (fold_left _ _ PosInf) as [maxVolume| |]; try done.
  destruct (Qltb 0 maxVolume); [|done].
  apply Forall_app. split; [done|]. by apply Forall_singleton.
Qed.

Lemma generateAllRouteCandidates_inRange_from hops :
  ∀ chosen currentPrices currentIndices candidates,
    allHopLevels = chosen ++ hops →
    inRange chosen currentIndices →
    Forall (λ c, inRange allHopLevels (RouteCandidate.levelIndices c)) candidates →
    Forall (λ c, inRange allHopLevels (RouteCandidate.levelIndices c))
      (generateAllRouteCandidates allHopLevels hops currentPrices currentIndices
         candidates).
Proof.
  induction hops as [|hopLevels hops IH];
    intros chosen currentPrices currentIndices candidates Hall Hidx Hcands.
  - simpl. rewrite app_nil_r in Hall. subst chosen.
    by apply emitCandidate_inRange.
  - simpl. apply fold_left_Forall; [|done].
    intros acc [levelIdx level] Hin Hacc.
    apply elem_of_enumerate in Hin.
    apply (IH (chosen ++ [hopLevels])); [by rewrite <- app_assoc| |done].
    destruct Hidx as [Hlen Hrows]. split.
    + rewrite !length_app. simpl. lia.
    + intros hopIdx levelIdx' Hlookup.
      apply lookup_app_Some in Hlookup as [Hlookup|[Hge Hlookup]].
      * destruct (Hrows _ _ Hlookup) as (row & Hrow & Hlt).
        exists row. split; [|done]. by apply lookup_app_l_Some.
      * apply list_lookup_singleton_Some in Hlookup as [Hzero <-].
        exists hopLevels. split; [|by eapply lookup_lt_Some].
        assert (hopIdx = length chosen) as -> by lia.
        rewrite lookup_app_r by lia. by rewrite Nat.sub_diag.
Qed.

(** The indices of every generated candidate are in range, so that no
    slice access of the program fails. *)
Lemma generateAllRouteCandidates_in_range :
  Forall (λ c, inRange allHopLevels (RouteCandidate.levelIndices c))
    (generateAllRouteCandidates allHopLevels allHopLevels [] [] []).
Proof.
  apply (generateAllRouteCandidates_inRange_from allHopLevels []); [done| |done].
  split; [done|]. intros hopIdx levelIdx Hlookup. done.
Qed.

End Candidates.

(** ** Greedy volume tracking *)

Section Inventory.

Implicit Types (remainingVolumes : list (list Q)) (levelIndices : list nat).

Lemma remainingAt_deduct_same remainingVolumes hopIdx levelIdx volume row available :
  remainingVolumes !! hopIdx = Some row →
  row !! levelIdx = Some available →
  remainingAt (deduct remainingVolumes hopIdx levelIdx volume) hopIdx levelIdx
  = available - volume.
Proof.
  intros Hrow Havailable. unfold remainingAt, deduct.
  rewrite list_lookup_alter_eq, Hrow. simpl.
  by rewrite list_lookup_alter_eq, Havailable.
Qed.

Lemma remainingAt_deduct_other remainingVolumes hopIdx levelIdx volume hopIdx' levelIdx' :
  ¬ (hopIdx = hopIdx' ∧ levelIdx = levelIdx') →
  remainingAt (deduct remainingVolumes hopIdx levelIdx volume) hopIdx' levelIdx'
  = remainingAt remainingVolumes hopIdx' levelIdx'.
Proof.
  intros Hne. unfold remainingAt, deduct.
  destruct (decide (hopIdx = hopIdx')) as [<-|Hhop].
  - rewrite list_lookup_alter_eq.
    destruct (remainingVolumes !! hopIdx) as [row|]; simpl; [|done].
    rewrite list_lookup_alter_ne; [done|]. intros ->. by apply Hne.
  - by rewrite list_lookup_alter_ne.
Qed.

Lemma shape_deduct remainingVolumes hopIdx levelIdx volume :
  map length (deduct remainingVolumes hopIdx levelIdx volume)
  = map length remainingVolumes.
Proof.
  unfold deduct. apply list_eq. intros i.
  rewrite !list_lookup_fmap.
  destruct (decide (hopIdx = i)) as [<-|Hne].
  - rewrite list_lookup_alter_eq.
    destruct (remainingVolumes !! hopIdx); simpl; [|done].
    by rewrite length_alter.
  - by rewrite list_lookup_alter_ne.
Qed.

Lemma deductAll_snoc remainingVolumes levelIndices levelIdx volume :
  deductAll remainingVolumes (levelIndices ++ [levelIdx]) volume
  = deduct (deductAll remainingVolumes levelIndices volume)
      (length levelIndices) levelIdx volume.
Proof.
  unfold deductAll. by rewrite enumerate_snoc, fold_left_app.
Qed.

Lemma shape_deductAll remainingVolumes levelIndices volume :
  map length (deductAll remainingVolumes levelIndices volume)
  = map length remainingVolumes.
Proof.
  induction levelIndices as [|levelIdx levelIndices IH] using rev_ind; [done|].
  by rewrite deductAll_snoc, shape_deduct.
Qed.

(** A row of the same length exists in a table of the same shape. *)
Lemma shape_lookup {X Y : Type} (table : list (list X)) (table' : list (list Y))
    (hopIdx levelIdx : nat) (row : list X) :
  map length table' = map length table →
  table !! hopIdx = Some row → (levelIdx < length row)%nat →
  ∃ row' y, table' !! hopIdx = Some row' ∧ row' !! levelIdx = Some y.
Proof.
  intros Hshape Hrow Hlt.
  assert (Hlen : map length table' !! hopIdx = Some (length row)).
  { rewrite Hshape, list_lookup_fmap, Hrow. done. }
  rewrite list_lookup_fmap in Hlen.
  destruct (table' !! hopIdx) as [row'|] eqn:Hrow'; [|done].
  simpl in Hlen. injection Hlen as Hlen.
  destruct (lookup_lt_is_Some_2 row' levelIdx) as [y Hy]; [lia|].
  by exists row', y.
Qed.

(** The second inner loop takes [volume] from the levels the candidate
    chose, once each, and from no other. *)
Lemma remainingAt_deductAll remainingVolumes levelIndices volume hopIdx levelIdx :
  (∀ h l, levelIndices !! h = Some l →
     ∃ row, remainingVolumes !! h = Some row ∧ (l < length row)%nat) →
  remainingAt (deductAll remainingVolumes levelIndices volume) hopIdx levelIdx
  = if bool_decide (levelIndices !! hopIdx = Some levelIdx)
    then remainingAt remainingVolumes hopIdx levelIdx - volume
    else remainingAt remainingVolumes hopIdx levelIdx.
Proof.
  induction levelIndices as [|last levelIndices IH] using rev_ind; intros Hrows.
  { done. }
  assert (Hrows' : ∀ h l, levelIndices !! h = Some l →
            ∃ row, remainingVolumes !! h = Some row ∧ (l < length row)%nat).
  { intros h l Hl. apply Hrows. by apply lookup_app_l_Some. }
  specialize (IH Hrows'). rewrite deductAll_snoc.
  destruct (decide (length levelIndices = hopIdx ∧ last = levelIdx)) as [[<- <-]|Hne].
  - rewrite bool_decide_eq_true_2
      by (rewrite lookup_app_r, Nat.sub_diag by lia; done).
    rewrite bool_decide_eq_false_2 in IH
      by (rewrite lookup_ge_None_2 by lia; done).
    destruct (Hrows (length levelIndices) last) as (row & Hrow & Hlt).
    { rewrite lookup_app_r, Nat.sub_diag by lia. done. }
    destruct (shape_lookup remainingVolumes
                (deductAll remainingVolumes levelIndices volume)
                (length levelIndices) last row) as (row' & y & Hrow' & Hy);
      [apply shape_deductAll|done|done|].
    rewrite (remainingAt_deduct_same _ _ _ _ row' y Hrow' Hy).
    rewrite <- IH. unfold remainingAt. by rewrite Hrow'; simpl; rewrite Hy.
  - rewrite remainingAt_deduct_other by done. rewrite IH.
    destruct (decide (hopIdx < length levelIndices)%nat) as [Hlt|Hge].
    + by rewrite lookup_app_l by done.
    + rewrite (bool_decide_eq_false_2 (levelIndices !! hopIdx = Some levelIdx))
        by (rewrite lookup_ge_None_2 by lia; done).
      rewrite bool_decide_eq_false_2; [done|].
      rewrite lookup_app_r by lia. intros Hlookup.
      apply list_lookup_singleton_Some in Hlookup as [Hzero <-].
      apply Hne. split; [lia|done].
Qed.

(** The first inner loop returns a volume that is at most the candidate's
    own bound and at most what is left on each of its levels. *)
Lemma maxUsableVolume_bound remainingVolumes candidate :
  maxUsableVolume remainingVolumes candidate <= RouteCandidate.maxVolume candidate
  ∧ ∀ hopIdx levelIdx,
      RouteCandidate.levelIndices candidate !! hopIdx = Some levelIdx →
      maxUsableVolume remainingVolumes candidate
      <= remainingAt remainingVolumes hopIdx levelIdx.
Proof.
  unfold maxUsableVolume. setoid_rewrite <- elem_of_enumerate.
  generalize (enumerate (RouteCandidate.levelIndices candidate)) as choices.
  generalize (RouteCandidate.maxVolume candidate) as bound.
  intros bound choices. revert bound.
  induction choices as [|[h l] choices IH]; intros bound; simpl.
  - split; [lra|]. intros hopIdx levelIdx Hin. by apply elem_of_nil in Hin.
  - destruct (Qltb (remainingAt remainingVolumes h l) bound) eqn:Hlt;
      [apply Qltb_lt in Hlt|apply Qltb_ge in Hlt];
      match goal with |- context [fold_left ?f choices ?b] =>
        destruct (IH b) as [Hbound Hall] end.
    + split; [lra|]. intros hopIdx levelIdx Hin.
      apply elem_of_cons in Hin as [Heq|Hin]; [|by apply Hall].
      by simplify_eq.
    + split; [done|]. intros hopIdx levelIdx Hin.
      apply elem_of_cons in Hin as [Heq|Hin]; [|by apply Hall].
      simplify_eq. lra.
Qed.

End Inventory.

Lemma sum_app (xs ys : list Q) :
  fold_right Qplus 0 (xs ++ ys) == fold_right Qplus 0 xs + fold_right Qplus 0 ys.
Proof.
  induction xs as [|x xs IH]; simpl; [lra|]. rewrite IH. lra.
Qed.

Lemma consumed_snoc (hopIdx levelIdx : nat) (trace : list (RouteCandidate.t * Q))
    (entry : RouteCandidate.t * Q) :
  consumed hopIdx levelIdx (trace ++ [entry])
  == consumed hopIdx levelIdx trace
     + (if consumes hopIdx levelIdx entry then entry.2 else 0).
Proof.
  unfold consumed. rewrite List.filter_app, map_app, sum_app. simpl.
  destruct (consumes hopIdx levelIdx entry); simpl; lra.
Qed.

Section Greedy.

Variable allHopLevels : list (list Level.t).

Lemma inventory_initial : inventoryInvariant allHopLevels (initialVolumes allHopLevels, []).
Proof.
  split; simpl.
  - unfold initialVolumes. rewrite <- list_fmap_compose.
    apply list_fmap_ext. intros i hop _. simpl. by rewrite length_map.
  - intros hopIdx levelIdx hop level Hhop Hlevel.
    unfold remainingAt, initialVolumes, consumed.
    rewrite list_lookup_fmap, Hhop. simpl.
    rewrite list_lookup_fmap, Hlevel. simpl. split; [lra|done].
Qed.

Lemma inventory_step state candidate :
  inRange allHopLevels (RouteCandidate.levelIndices candidate) →
  inventoryInvariant allHopLevels state →
  inventoryInvariant allHopLevels (greedyTraceStep state candidate).
Proof.
  destruct state as [remainingVolumes trace]. intros [_ Hrows] [Hshape Hinv].
  simpl in Hshape, Hinv. unfold greedyTraceStep.
  destruct (Qltb 0 (maxUsableVolume remainingVolumes candidate)) eqn:Hpos; [|done].
  destruct (maxUsableVolume_bound remainingVolumes candidate) as [_ Hbound].
  set (volume := maxUsableVolume remainingVolumes candidate) in *.
  split; simpl.
  - by rewrite shape_deductAll.
  - intros hopIdx levelIdx hop level Hhop Hlevel.
    destruct (Hinv _ _ _ _ Hhop Hlevel) as [Hsum Hnonneg].
    rewrite consumed_snoc, remainingAt_deductAll.
    + unfold consumes. simpl.
      destruct (bool_decide
                  (RouteCandidate.levelIndices candidate !! hopIdx = Some levelIdx))
        eqn:Huses.
      * apply bool_decide_eq_true in Huses. specialize (Hbound _ _ Huses).
        split; [lra|]. intros Hlevel0. specialize (Hnonneg Hlevel0). lra.
      * split; [lra|done].
    + intros h l Hl. destruct (Hrows _ _ Hl) as (row & Hrow & Hlt).
      destruct (shape_lookup allHopLevels remainingVolumes h l row)
        as (row' & y & Hrow' & Hy); [done|done|done|].
      exists row'. split; [done|]. by eapply lookup_lt_Some.
Qed.

Lemma inventory_fold candidates state :
  Forall (λ c, inRange allHopLevels (RouteCandidate.levelIndices c)) candidates →
  inventoryInvariant allHopLevels state →
  inventoryInvariant allHopLevels (fold_left greedyTraceStep candidates state).
Proof.
  intros Hcands. revert state.
  induction Hcands as [|candidate candidates Hc _ IH]; intros state Hinv; [done|].
  simpl. apply IH. by apply inventory_step.
Qed.

(** Forgetting the candidates in the trace gives the result of the
    program's loop. *)
Lemma greedyStep_trace candidates remainingVolumes trace :
  fold_left greedyStep candidates (remainingVolumes, map comboOf trace)
  = ((fold_left greedyTraceStep candidates (remainingVolumes, trace)).1,
     map comboOf (fold_left greedyTraceStep candidates (remainingVolumes, trace)).2).
Proof.
  revert remainingVolumes trace.
  induction candidates as [|candidate candidates IH]; intros remainingVolumes trace.
  { done. }
  simpl. destruct (Qltb 0 (maxUsableVolume remainingVolumes candidate)); [|apply IH].
  rewrite <- IH. by rewrite map_app.
Qed.

Lemma trace_positive candidates state :
  Forall (λ entry, 0 < entry.2) state.2 →
  Forall (λ entry, 0 < entry.2) (fold_left greedyTraceStep candidates state).2.
Proof.
  revert state. induction candidates as [|candidate candidates IH];
    intros [remainingVolumes trace] Htrace; [done|].
  simpl. apply IH.
  destruct (Qltb 0 (maxUsableVolume remainingVolumes candidate)) eqn:Hpos; [|done].
  simpl. apply Forall_app. split; [done|]. apply Forall_singleton.
  by apply Qltb_lt.
Qed.

End Greedy.

Lemma greedyTrace_combos (allHopLevels : list (list Level.t)) (isAsk : bool) :
  map comboOf (greedyTrace allHopLevels isAsk)
  = generateCombinationsWithVolumeTracking allHopLevels isAsk.
Proof.
  unfold greedyTrace, generateCombinationsWithVolumeTracking.
  destruct allHopLevels as [|hop hops]; [done|].
  change (@nil PriceVolumeCombo.t) with (map comboOf []).
  by rewrite greedyStep_trace.
Qed.

Lemma greedyTrace_positive (allHopLevels : list (list Level.t)) (isAsk : bool) :
  Forall (λ entry, 0 < entry.2) (greedyTrace allHopLevels isAsk).
Proof. unfold greedyTrace. by apply trace_positive. Qed.

Lemma greedyTrace_inventory (allHopLevels : list (list Level.t)) (isAsk : bool)
    (hopIdx levelIdx : nat) (hop : list Level.t) (level : Level.t) :
  allHopLevels !! hopIdx = Some hop → hop !! levelIdx = Some level →
  0 <= Level.Amount level →
  consumed hopIdx levelIdx (greedyTrace allHopLevels isAsk) <= Level.Amount level.
Proof.
  intros Hhop Hlevel Hnonneg.
  destruct (inventory_fold allHopLevels
              (sortCandidatesByPrice
                 (generateAllRouteCandidates allHopLevels allHopLevels [] [] []) isAsk)
              (initialVolumes allHopLevels, [])) as [_ Hinv].
  - unfold sortCandidatesByPrice. rewrite sortSlice_Permutation.
    apply generateAllRouteCandidates_in_range.
  - apply inventory_initial.
  - destruct (Hinv _ _ _ _ Hhop Hlevel) as [Hsum Hleft].
    specialize (Hleft Hnonneg). unfold greedyTrace. lra.
Qed.

(** ** Orders of one path *)

Lemma collectHopLevels_cons (graph : Graph) (fromToken toToken : string)
    (rest : list string) (isAsk : bool) :
  collectHopLevels graph (fromToken :: toToken :: rest) isAsk
  = match edge graph fromToken toToken with
    | None => None
    | Some tradingPair =>
        (λ allHopLevels,
           (if isAsk then TradingPair.AskOrders tradingPair
            else TradingPair.BidOrders tradingPair) :: allHopLevels)
        <$> collectHopLevels graph (toToken :: rest) isAsk
    end.
Proof. done. Qed.

(** Hop [hopIdx] of the collected levels is the chosen side of the edge
    between the currencies [hopIdx] and [hopIdx + 1] of the path. *)
Lemma collectHopLevels_lookup (graph : Graph) (path : list string) (isAsk : bool)
    (allHopLevels : list (list Level.t)) (hopIdx : nat) (a b : string)
    (tradingPair : TradingPair.t) :
  collectHopLevels graph path isAsk = Some allHopLevels →
  path !! hopIdx = Some a → path !! S hopIdx = Some b →
  edge graph a b = Some tradingPair →
  allHopLevels !! hopIdx
  = Some (if isAsk then TradingPair.AskOrders tradingPair
          else TradingPair.BidOrders tradingPair).
Proof.
  revert allHopLevels hopIdx.
  induction path as [|fromToken path IH]; intros allHopLevels hopIdx; [done|].
  destruct path as [|toToken rest]; [by destruct hopIdx|].
  intros Hcollect Ha Hb Hedge.
  rewrite collectHopLevels_cons in Hcollect.
  destruct (edge graph fromToken toToken) as [stored|] eqn:Hstored; [|done].
  destruct (collectHopLevels graph (toToken :: rest) isAsk) as [others|] eqn:Hothers;
    [|done].
  simpl in Hcollect. injection Hcollect as <-.
  destruct hopIdx as [|hopIdx].
  - simpl in Ha, Hb. simplify_eq. done.
  - simpl. by apply IH.
Qed.

Lemma fold_levels (truePath : list string) (combos : list PriceVolumeCombo.t)
    (levels : list VirtualLevel.t) :
  Forall (λ combo, 0 < PriceVolumeCombo.depth combo) combos →
  fold_left
    (λ levels combo,
       let effectivePrice := productOf (PriceVolumeCombo.prices combo) in
       if Qltb 0 (PriceVolumeCombo.depth combo)
       then levels ++ [VirtualLevel.mk effectivePrice (PriceVolumeCombo.depth combo)
                         truePath (PriceVolumeCombo.prices combo)]
       else levels)
    combos levels
  = levels ++ map (levelOf truePath) combos.
Proof.
  intros Hcombos. revert levels.
  induction Hcombos as [|combo combos Hcombo _ IH]; intros levels; simpl.
  - by rewrite app_nil_r.
  - apply Qltb_lt in Hcombo. rewrite Hcombo, IH. by rewrite <- app_assoc.
Qed.

Lemma calculateOrdersFromPath_trace (graph : Graph) (path : list string) (isAsk : bool)
    (allHopLevels : list (list Level.t)) :
  collectHopLevels graph path isAsk = Some allHopLevels →
  calculateOrdersFromPath graph path isAsk
  = map (λ entry, levelOf (if isAsk then reverse path else path) (comboOf entry))
      (greedyTrace allHopLevels isAsk).
Proof.
  intros Hcollect. unfold calculateOrdersFromPath, getAllPriceVolumeCombinations.
  destruct (length path <? 2)%nat eqn:Hshort.
  - apply Nat.ltb_lt in Hshort.
    destruct path as [|x [|y rest]]; simpl in Hshort; try lia;
      simpl in Hcollect; by injection Hcollect as <-.
  - rewrite Hcollect, <- greedyTrace_combos, fold_levels.
    + by rewrite <- list_fmap_compose.
    + apply Forall_fmap. eapply Forall_impl; [apply greedyTrace_positive|]. done.
Qed.



(** ** Quantities of the virtual book *)

Lemma calculateOrdersFromPath_positive (graph : Graph) (path : list string)
    (isAsk : bool) :
  Forall (λ level, 0 < VirtualLevel.Amount level)
    (calculateOrdersFromPath graph path isAsk).
Proof.
  unfold calculateOrdersFromPath. destruct (length path <? 2)%nat; [done|].
  apply fold_left_Forall; [|done].
  intros levels combo _ Hlevels.
  destruct (Qltb 0 (PriceVolumeCombo.depth combo)) eqn:Hpos; [|done].
  apply Forall_app. split; [done|]. apply Forall_singleton. by apply Qltb_lt.
Qed.

Lemma mergeLoop_positive (current : VirtualLevel.t) (levels : list VirtualLevel.t) :
  Forall (λ level, 0 < VirtualLevel.Amount level) (current :: levels) →
  Forall (λ level, 0 < VirtualLevel.Amount level) (mergeLoop [] current levels).
Proof.
  revert current. induction levels as [|level rest IH]; intros current Hall; [done|].
  apply Forall_cons in Hall as [Hcurrent Hall].
  apply Forall_cons in Hall as [Hlevel Hrest].
  rewrite mergeLoop_cons. destruct (samePrice level current).
  - apply IH. constructor; [|done]. rewrite absorb_Amount. lra.
  - constructor; [done|]. apply IH. by constructor.
Qed.

(** Every level of a book built by the program has a positive quantity. *)
Lemma buildVirtualOrderbook_positive (graph : Graph) (baseCurrency quoteCurrency : string) :
  Forall (λ level, 0 < VirtualLevel.Amount level)
    (VirtualTradingPair.AskOrders
       (buildVirtualOrderbook graph baseCurrency quoteCurrency))
  ∧ Forall (λ level, 0 < VirtualLevel.Amount level)
      (VirtualTradingPair.BidOrders
         (buildVirtualOrderbook graph baseCurrency quoteCurrency)).
Proof.
  rewrite buildVirtualOrderbook_sides. simpl.
  assert (Hside : ∀ isAsk paths,
            Forall (λ level, 0 < VirtualLevel.Amount level)
              (mergeVirtualLevels
                 (sortVirtualLevels
                    (concat (map (λ path, calculateOrdersFromPath graph path isAsk)
                               paths)) isAsk))).
  { intros isAsk paths.
    assert (Hsorted : Forall (λ level, 0 < VirtualLevel.Amount level)
              (sortVirtualLevels
                 (concat (map (λ path, calculateOrdersFromPath graph path isAsk) paths))
                 isAsk)).
    { unfold sortVirtualLevels. rewrite sortSlice_Permutation.
      apply Forall_concat, Forall_fmap, Forall_forall. intros path _.
      apply calculateOrdersFromPath_positive. }
    destruct (sortVirtualLevels _ _) as [|first rest]; [done|].
    by apply mergeLoop_positive. }
  split; apply Hside.
Qed.

(** On the books the program builds the bound of the executor needs no
    assumption on the quantities. *)
Lemma executor_on_built_book (graph : Graph) (baseCurrency quoteCurrency : string)
    (targetAmount : Q) :
  0 <= targetAmount →
  let book := buildVirtualOrderbook graph baseCurrency quoteCurrency in
  totalAmount (findBestRouteFromVirtualOrderbook
                 (VirtualTradingPair.AskOrders book) targetAmount).2
    <= Qmin targetAmount (totalAmount (VirtualTradingPair.AskOrders book))
  ∧ totalAmount (findBestRouteFromVirtualOrderbook
                   (VirtualTradingPair.BidOrders book) targetAmount).2
      <= Qmin targetAmount (totalAmount (VirtualTradingPair.BidOrders book)).
Proof.
  intros Htarget book.
  destruct (buildVirtualOrderbook_positive graph baseCurrency quoteCurrency)
    as [Hasks Hbids].
  split; apply fills_bounded; try done.
  - eapply Forall_impl; [exact Hasks|]. intros level. apply Qlt_le_weak.
  - eapply Forall_impl; [exact Hbids|]. intros level. apply Qlt_le_weak.
Qed.

(** ** Scenarios *)

(** C2. Scenario 1: the ask side of the virtual book for (KNC, ETH) is
    [(1/30, 200); (1.4/30, 100); (1.4/20, 300)] in this order, and a target
    of 300 is filled by 200 at 1/30 and 100 at 1.4/30, at the effective
    price 34/900. *)
Theorem scenario1_book_and_execution :
  Forall2 levelIs (VirtualTradingPair.AskOrders scenario1Book)
    [ (1 / 30, 200); ((14 # 10) / 30, 100); ((14 # 10) / 20, 300) ]
  ∧ ∃ effectivePrice fills,
      findBestRouteFromVirtualOrderbook (VirtualTradingPair.AskOrders scenario1Book) 300
      = (Finite effectivePrice, fills)
      ∧ Forall2 levelIs fills [ (1 / 30, 200); ((14 # 10) / 30, 100) ]
      ∧ effectivePrice == 34 / 900.
Proof.
  split.
  - vm_compute. repeat constructor.
  - eexists _, _. split; [vm_compute; reflexivity|]. split.
    + vm_compute. repeat constructor.
    + vm_compute. reflexivity.
Qed.


(** * Further properties *)

(** ** Executor: the walk over the book *)

Lemma totalAmount_cons (level : VirtualLevel.t) (levels : list VirtualLevel.t) :
  totalAmount (level :: levels) = VirtualLevel.Amount level + totalAmount levels.
Proof. done. Qed.

Lemma totalCostOf_cons (fill : VirtualLevel.t) (fills : list VirtualLevel.t) :
  totalCostOf (fill :: fills)
  = VirtualLevel.Amount fill * VirtualLevel.Price fill + totalCostOf fills.
Proof. done. Qed.

(** Everything the loop does, read on the fills it appends. *)
Lemma executeLevels_accounts (levels : list VirtualLevel.t) (state : Exec.t) :
  ∃ fills,
    Exec.bestRoute (executeLevels levels state) = Exec.bestRoute state ++ fills
    ∧ Exec.remainingAmount (executeLevels levels state)
        == Exec.remainingAmount state - totalAmount fills
    ∧ Exec.executedAmount (executeLevels levels state)
        == Exec.executedAmount state + totalAmount fills
    ∧ Exec.totalCost (executeLevels levels state)
        == Exec.totalCost state + totalCostOf fills
    ∧ Forall2 filledFrom fills (take (length fills) levels)
    ∧ (Forall (λ level, 0 <= VirtualLevel.Amount level) levels →
       Forall (λ fill, 0 <= VirtualLevel.Amount fill) fills)
    ∧ (∀ i fill level,
         fills !! i = Some fill → levels !! i = Some level →
         (S i < length fills)%nat →
         VirtualLevel.Amount fill = VirtualLevel.Amount level).
Proof.
  revert state. induction levels as [|level rest IH]; intros state.
  { exists []. simpl. rewrite app_nil_r. unfold totalAmount, totalCostOf. simpl.
    split_and!; try done; try lra; constructor. }
  simpl. destruct (Qle_bool (Exec.remainingAmount state) 0) eqn:Hstop.
  { exists []. rewrite app_nil_r. unfold totalAmount, totalCostOf. simpl.
    split_and!; try done; try lra; constructor. }
  apply Qle_bool_gt in Hstop.
  set (executed := Qmin (Exec.remainingAmount state) (VirtualLevel.Amount level)).
  set (fill := VirtualLevel.mk (VirtualLevel.Price level) executed
                 (VirtualLevel.Route level) (VirtualLevel.LevelPrices level)).
  match goal with |- context [executeLevels rest ?s] => set (state' := s) end.
  destruct (IH state') as (fills & Hroute & Hrem & Hexec & Hcost & Hfrom & Hnn & Hwhole).
  assert (Hmin1 : executed <= Exec.remainingAmount state) by apply Q.le_min_l.
  assert (Hmin2 : executed <= VirtualLevel.Amount level) by apply Q.le_min_r.
  exists (fill :: fills). split_and!.
  - rewrite Hroute. subst state'. simpl. by rewrite <- app_assoc.
  - rewrite Hrem, totalAmount_cons. subst state'. simpl. ring.
  - rewrite Hexec, totalAmount_cons. subst state'. simpl. ring.
  - rewrite Hcost, totalCostOf_cons. subst state'. simpl. ring.
  - simpl. constructor; [|done]. by repeat split.
  - intros Hlevels. apply Forall_cons in Hlevels as [Hlevel Hrest].
    constructor; [|by apply Hnn]. simpl. subst executed.
    apply Q.min_glb; [by apply Qlt_le_weak|done].
  - intros i fill' level' Hfill Hlevel Hlast.
    destruct i as [|i]; simpl in *.
    + injection Hfill as <-. injection Hlevel as <-. simpl.
      destruct fills as [|next fills]; [simpl in Hlast; lia|].
      (* another fill follows: the loop went on with something left *)
      assert (Hleft : 0 < Exec.remainingAmount state').
      { apply Qnot_le_lt. intros Hz.
        rewrite (executeLevels_stop rest state' Hz) in Hroute.
        apply (f_equal length) in Hroute. rewrite length_app in Hroute.
        simpl in Hroute. lia. }
      subst state'. simpl in Hleft.
      assert (Hlt : VirtualLevel.Amount level < Exec.remainingAmount state).
      { apply Qnot_le_lt. intros Hge.
        assert (Heq : executed == Exec.remainingAmount state)
          by (apply Q.min_l; exact Hge).
        lra. }
      subst executed. unfold Qmin, GenericMinMax.gmin.
      apply Qgt_alt in Hlt. by rewrite Hlt.
    + eapply Hwhole; [done|done|lia].
Qed.

(** The fills never exceed the target and never go below zero in total
    once the target is non-negative. *)
Lemma fills_within_target (levels : list VirtualLevel.t) (targetAmount : Q) :
  0 <= targetAmount →
  totalAmount (findBestRouteFromVirtualOrderbook levels targetAmount).2 <= targetAmount.
Proof.
  intros Htarget. rewrite findBestRoute_fills.
  destruct (executeLevels_bestRoute levels (Exec.mk targetAmount 0 0 []))
    as (fills & Hroute & Hrem & Hnn & _). simpl in *.
  rewrite Hroute. specialize (Hnn Htarget). lra.
Qed.



(** X2. The fills follow the book from its first level on, skipping
    none: the i-th fill has the price, route and per-hop prices of the
    i-th level and takes no more than it offers, and every fill but the
    last takes its level whole. *)
Theorem executor_fills_follow_book (levels : list VirtualLevel.t) (targetAmount : Q) :
  let fills := (findBestRouteFromVirtualOrderbook levels targetAmount).2 in
  Forall2 filledFrom fills (take (length fills) levels)
  ∧ ∀ (i : nat) (fill level : VirtualLevel.t),
      fills !! i = Some fill → levels !! i = Some level →
      (S i < length fills)%nat →
      VirtualLevel.Amount fill = VirtualLevel.Amount level.
Proof.
  cbv zeta. rewrite findBestRoute_fills.
  destruct (executeLevels_accounts levels (Exec.mk targetAmount 0 0 []))
    as (fills & Hroute & _ & _ & _ & Hfrom & _ & Hwhole). simpl in Hroute.
  rewrite Hroute. by split.
Qed.

Lemma executor_fills_follow_book_witness :
  Forall2 filledFrom
    (findBestRouteFromVirtualOrderbook (VirtualTradingPair.AskOrders scenario1Book) 300).2
    (take 2 (VirtualTradingPair.AskOrders scenario1Book)).
Proof.
  exact (proj1 (executor_fills_follow_book
                  (VirtualTradingPair.AskOrders scenario1Book) 300)).
Defined.

Lemma cost_between (fills : list VirtualLevel.t) (lo hi : Q) :
  Forall (λ fill, 0 <= VirtualLevel.Amount fill) fills →
  (∀ fill, fill ∈ fills → lo <= VirtualLevel.Price fill ∧ VirtualLevel.Price fill <= hi) →
  lo * totalAmount fills <= totalCostOf fills
  ∧ totalCostOf fills <= hi * totalAmount fills.
Proof.
  induction 1 as [|fill fills Hfill _ IH]; intros Hprices.
  { unfold totalAmount, totalCostOf. simpl. lra. }
  rewrite totalAmount_cons, totalCostOf_cons.
  destruct IH as [IHlo IHhi].
  { intros other Hother. apply Hprices. by right. }
  destruct (Hprices fill) as [Hlo Hhi]; [by left|].
  assert (H1 : lo * VirtualLevel.Amount fill
               <= VirtualLevel.Amount fill * VirtualLevel.Price fill).
  { rewrite (Qmult_comm (VirtualLevel.Amount fill)).
    by apply Qmult_le_compat_r. }
  assert (H2 : VirtualLevel.Amount fill * VirtualLevel.Price fill
               <= hi * VirtualLevel.Amount fill).
  { rewrite (Qmult_comm (VirtualLevel.Amount fill)).
    by apply Qmult_le_compat_r. }
  split; lra.
Qed.

Lemma findBestRoute_run (levels : list VirtualLevel.t) (targetAmount : Q) :
  levels ≠ [] →
  findBestRouteFromVirtualOrderbook levels targetAmount
  = (Finite
       (if Qltb 0 (Exec.executedAmount
                     (executeLevels levels (Exec.mk targetAmount 0 0 [])))
           && Qltb 0 targetAmount
        then Exec.totalCost (executeLevels levels (Exec.mk targetAmount 0 0 []))
             / Qmin (Exec.executedAmount
                       (executeLevels levels (Exec.mk targetAmount 0 0 [])))
                 targetAmount
        else 0),
     Exec.bestRoute (executeLevels levels (Exec.mk targetAmount 0 0 []))).
Proof. by destruct levels. Qed.



(** ** Finaliser: what sorting and merging keep *)

Lemma totalAmount_app (xs ys : list VirtualLevel.t) :
  totalAmount (xs ++ ys) == totalAmount xs + totalAmount ys.
Proof. unfold totalAmount. rewrite map_app. apply sum_app. Qed.

Lemma totalAmount_Permutation (xs ys : list VirtualLevel.t) :
  xs ≡ₚ ys → totalAmount xs == totalAmount ys.
Proof.
  induction 1 as [|x xs ys _ IH|x y xs|xs ys zs _ IH1 _ IH2].
  - reflexivity.
  - rewrite !totalAmount_cons, IH. reflexivity.
  - rewrite !totalAmount_cons. ring.
  - by rewrite IH1.
Qed.

Lemma mergeLoop_total (current : VirtualLevel.t) (levels : list VirtualLevel.t) :
  totalAmount (mergeLoop [] current levels)
  == VirtualLevel.Amount current + totalAmount levels.
Proof.
  revert current. induction levels as [|level rest IH]; intros current.
  - unfold totalAmount. simpl. ring.
  - rewrite mergeLoop_cons. destruct (samePrice level current).
    + rewrite IH, absorb_Amount, totalAmount_cons. ring.
    + rewrite !totalAmount_cons, IH. ring.
Qed.

Lemma mergeVirtualLevels_total (levels : list VirtualLevel.t) :
  totalAmount (mergeVirtualLevels levels) == totalAmount levels.
Proof.
  destruct levels as [|first rest]; [reflexivity|].
  simpl. by rewrite mergeLoop_total.
Qed.


(** A list whose neighbours are all apart is left as it is. *)
Lemma mergeLoop_apart (current : VirtualLevel.t) (levels : list VirtualLevel.t) :
  Sorted (byPrice apart) (current :: levels) →
  mergeLoop [] current levels = current :: levels.
Proof.
  revert current. induction levels as [|level rest IH]; intros current Hsorted; [done|].
  apply Sorted_inv in Hsorted as [Hrest Hhd].
  apply HdRel_inv in Hhd. unfold byPrice, apart in Hhd.
  rewrite mergeLoop_cons.
  assert (Hsame : samePrice level current = false).
  { unfold samePrice. apply Qltb_ge. rewrite Qabs_Qminus. by apply Qnot_lt_le. }
  rewrite Hsame. f_equal. by apply IH.
Qed.

(** X5. Merging is idempotent: a merged list has nothing left to merge. *)
Theorem mergeVirtualLevels_idempotent (levels : list VirtualLevel.t) :
  mergeVirtualLevels (mergeVirtualLevels levels) = mergeVirtualLevels levels.
Proof.
  pose proof (mergeVirtualLevels_apart levels) as Hapart.
  destruct (mergeVirtualLevels levels) as [|first rest]; [done|].
  simpl. by apply mergeLoop_apart.
Qed.

(** Merging keeps what holds of the price and per-hop prices of every
    level, and what holds of the route of every level. *)
Lemma mergeLoop_keeps (P : Q → list Q → Prop) (R : list string → Prop)
    (current : VirtualLevel.t) (levels : list VirtualLevel.t) :
  Forall (λ level, P (VirtualLevel.Price level) (VirtualLevel.LevelPrices level)
                   ∧ R (VirtualLevel.Route level)) (current :: levels) →
  Forall (λ level, P (VirtualLevel.Price level) (VirtualLevel.LevelPrices level)
                   ∧ R (VirtualLevel.Route level)) (mergeLoop [] current levels).
Proof.
  revert current. induction levels as [|level rest IH]; intros current Hall; [done|].
  apply Forall_cons in Hall as [[Hcurrent Hroute] Hall].
  pose proof Hall as Hall'. apply Forall_cons in Hall' as [[Hlevel Hroute'] Hrest].
  rewrite mergeLoop_cons. destruct (samePrice level current).
  - apply IH. constructor; [|done].
    rewrite absorb_Price, absorb_LevelPrices, absorb_Route.
    split; [done|]. by destruct (Qltb _ _).
  - constructor; [done|]. by apply IH.
Qed.

Lemma mergeVirtualLevels_keeps (P : Q → list Q → Prop) (R : list string → Prop)
    (levels : list VirtualLevel.t) :
  Forall (λ level, P (VirtualLevel.Price level) (VirtualLevel.LevelPrices level)
                   ∧ R (VirtualLevel.Route level)) levels →
  Forall (λ level, P (VirtualLevel.Price level) (VirtualLevel.LevelPrices level)
                   ∧ R (VirtualLevel.Route level)) (mergeVirtualLevels levels).
Proof.
  destruct levels as [|first rest]; [done|]. apply mergeLoop_keeps.
Qed.

(** The levels computed for a path carry the product of their per-hop
    prices as price, and the path (reversed for asks) as route. *)
Lemma calculateOrdersFromPath_shape (graph : Graph) (path : list string) (isAsk : bool) :
  Forall (λ level,
            VirtualLevel.Price level = productOf (VirtualLevel.LevelPrices level)
            ∧ VirtualLevel.Route level = if isAsk then reverse path else path)
    (calculateOrdersFromPath graph path isAsk).
Proof.
  unfold calculateOrdersFromPath. destruct (length path <? 2)%nat; [done|].
  apply fold_left_Forall; [|done].
  intros levels combo _ Hlevels.
  destruct (Qltb 0 (PriceVolumeCombo.depth combo)); [|done].
  apply Forall_app. split; [done|]. by apply Forall_singleton.
Qed.

(** Both facts, for every level of one side of the finished book. *)
Lemma book_side_shape (graph : Graph) (paths : list (list string)) (isAsk : bool) :
  Forall (λ level,
            VirtualLevel.Price level = productOf (VirtualLevel.LevelPrices level)
            ∧ ∃ path, path ∈ paths
                ∧ VirtualLevel.Route level = if isAsk then reverse path else path)
    (mergeVirtualLevels
       (sortVirtualLevels
          (concat (map (λ path, calculateOrdersFromPath graph path isAsk) paths))
          isAsk)).
Proof.
  apply (mergeVirtualLevels_keeps
           (λ price prices, price = productOf prices)
           (λ route, ∃ path, path ∈ paths
                       ∧ route = if isAsk then reverse path else path)).
  unfold sortVirtualLevels. rewrite sortSlice_Permutation.
  apply Forall_concat, Forall_fmap, Forall_forall. intros path Hpath.
  eapply Forall_impl; [apply calculateOrdersFromPath_shape|].
  intros level [Hprice Hroute]. split; [done|]. by exists path.
Qed.

(** X6. Every route of the finished book is one of the enumerated paths:
    a bid carries a path as enumerated, from the base to the quote
    currency, an ask carries a path reversed, from the quote to the base
    currency. *)
Theorem virtual_book_routes_are_paths (graph : Graph)
    (baseCurrency quoteCurrency : string) :
  let book := buildVirtualOrderbook graph baseCurrency quoteCurrency in
  let paths := findAllPaths graph baseCurrency quoteCurrency MAX_PATH_DEPTH in
  Forall (λ level, reverse (VirtualLevel.Route level) ∈ paths)
    (VirtualTradingPair.AskOrders book)
  ∧ Forall (λ level, VirtualLevel.Route level ∈ paths)
      (VirtualTradingPair.BidOrders book).
Proof.
  cbv zeta. rewrite buildVirtualOrderbook_sides. simpl. split.
  - eapply Forall_impl; [apply (book_side_shape graph _ true)|].
    intros level [_ (path & Hpath & ->)]. by rewrite reverse_involutive.
  - eapply Forall_impl; [apply (book_side_shape graph _ false)|].
    intros level [_ (path & Hpath & ->)]. done.
Qed.

(** X7. On both sides of the finished book the price of a level is the
    product of its per-hop prices. *)
Theorem virtual_book_prices_are_products (graph : Graph)
    (baseCurrency quoteCurrency : string) :
  let book := buildVirtualOrderbook graph baseCurrency quoteCurrency in
  Forall (λ level, VirtualLevel.Price level = productOf (VirtualLevel.LevelPrices level))
    (VirtualTradingPair.AskOrders book)
  ∧ Forall (λ level,
              VirtualLevel.Price level = productOf (VirtualLevel.LevelPrices level))
      (VirtualTradingPair.BidOrders book).
Proof.
  cbv zeta. rewrite buildVirtualOrderbook_sides. simpl. split.
  - eapply Forall_impl; [apply (book_side_shape graph _ true)|]. by intros level [? _].
  - eapply Forall_impl; [apply (book_side_shape graph _ false)|]. by intros level [? _].
Qed.

(** ** Path enumerator: nothing missed, nothing twice *)

Lemma rangeKeys_complete (graph : Graph) (currentToken nextToken : string) :
  is_Some (edge graph currentToken nextToken) →
  nextToken ∈ rangeKeys graph currentToken.
Proof.
  unfold rangeKeys, edge. intros [stored Hstored].
  destruct (graph !! currentToken) as [row|]; simpl in *; [|done].
  apply list_elem_of_fmap. exists (nextToken, stored). split; [done|].
  by apply elem_of_map_to_list.
Qed.

Lemma rangeKeys_NoDup (graph : Graph) (currentToken : string) :
  NoDup (rangeKeys graph currentToken).
Proof. apply NoDup_fst_map_to_list. Qed.

Lemma findAllPaths_simple (graph : Graph) (start end_ : string) (maxDepth : Z) :
  Forall (simplePath graph start end_ maxDepth) (findAllPaths graph start end_ maxDepth).
Proof.
  unfold findAllPaths.
  destruct (findPathsRecursive_sound graph end_ maxDepth start (Z.to_nat maxDepth)
              start ∅ [start]) as [_ Hpaths]; [|done].
  unfold pathInvariant. split_and!.
  - done.
  - apply NoDup_singleton.
  - done.
  - intros i a b Ha Hb. by destruct i.
  - intros x Hx Hne. apply list_elem_of_singleton in Hx. done.
  - done.
Qed.

Section Completeness.

Variable graph : Graph.
Variable start targetToken : string.
Variable maxDepth : Z.

Local Abbreviation visit fuel currentPath :=
  (visitNext fuel graph targetToken currentPath maxDepth).

(** The loop only adds paths. *)
Lemma visitNext_keeps fuel currentPath nexts state path :
  path ∈ state.1 → path ∈ (fold_left (visit fuel currentPath) nexts state).1.
Proof.
  revert state. induction nexts as [|nextToken nexts IH]; intros [allPaths marked] Hin.
  { done. }
  simpl fold_left. apply IH. unfold visitNext.
  destruct (negb (isVisited marked nextToken)); [|done].
  destruct (findPathsRecursive _ _ _ _ _ _ _) as [pathsFromNext marked'].
  simpl in *. apply elem_of_app. by left.
Qed.

Lemma findPathsRecursive_complete fuel :
  ∀ currentToken visited currentPath suffix,
    pathInvariant graph start visited currentToken currentPath →
    visitedWithin visited currentPath →
    simplePath graph start targetToken maxDepth (currentPath ++ suffix) →
    (maxDepth < Z.of_nat (length currentPath + fuel))%Z →
    currentPath ++ suffix
    ∈ (findPathsRecursive fuel graph currentToken targetToken visited currentPath
         maxDepth).1.
Proof.
  induction fuel as [|fuel IHfuel];
    intros currentToken visited currentPath suffix Hinv Hwithin Hpath Hfuel;
    pose proof Hinv as (Hlast & Hnodup & Hhead & Hchain & Hmarked & Hfresh);
    pose proof Hpath as (Hlen & Hnodup' & Hhead' & Hlast' & Hdepth & Hchain');
    rewrite length_app in Hdepth;
    rewrite findPathsRecursive_unfold;
    (destruct (maxDepth <? Z.of_nat (length currentPath))%Z eqn:Htest;
     [apply Z.ltb_lt in Htest; lia|]);
    destruct (bool_decide (currentToken = targetToken) && (1 <? length currentPath)%nat)
      eqn:Hemit.
  1, 3: (* the current path is emitted: nothing can follow the target *)
    apply andb_true_iff in Hemit as [Htarget _];
    apply bool_decide_eq_true in Htarget; subst currentToken;
    destruct suffix as [|next suffix' _] using rev_ind;
    [rewrite app_nil_r; simpl; by left|];
    rewrite app_assoc, last_snoc in Hlast'; injection Hlast' as ->;
    apply NoDup_app in Hnodup' as (_ & Hdisjoint & _);
    exfalso; apply (Hdisjoint targetToken);
    [by apply last_Some_elem_of | apply elem_of_app; right; by left].
  - (* no fuel: the depth bound leaves no room for a suffix *)
    destruct suffix as [|next suffix'].
    + rewrite app_nil_r in *. rewrite Hlast in Hlast'. injection Hlast' as ->.
      rewrite bool_decide_eq_true_2 in Hemit by done. simpl in Hemit.
      apply Nat.ltb_ge in Hemit. lia.
    + simpl in Hdepth. lia.
  - (* the loop reaches the next currency of the path *)
    destruct suffix as [|next suffix'].
    { rewrite app_nil_r in *. rewrite Hlast in Hlast'. injection Hlast' as ->.
      rewrite bool_decide_eq_true_2 in Hemit by done. simpl in Hemit.
      apply Nat.ltb_ge in Hemit. lia. }
    cbv zeta. simpl.
    assert (Hedge : is_Some (edge graph currentToken next)).
    { apply (Hchain' (length currentPath - 1)%nat).
      - rewrite lookup_app_l by (destruct currentPath; simpl in *; [done|lia]).
        rewrite last_lookup in Hlast.
        by replace (length currentPath - 1)%nat with (pred (length currentPath)) by lia.
      - replace (S (length currentPath - 1)) with (length currentPath)
          by (destruct currentPath; simpl in *; [done|lia]).
        by rewrite list_lookup_middle. }
    apply rangeKeys_complete, list_elem_of_split in Hedge as (before & after & Hkeys).
    rewrite Hkeys, fold_left_app. simpl fold_left.
    apply visitNext_keeps.
    destruct (visitNext_sound graph targetToken maxDepth start fuel visited currentToken
                currentPath (findPathsRecursive_sound graph targetToken maxDepth start fuel)
                Hinv before ([], <[currentToken := true]> visited))
      as [Hsame _]; [|done|done|].
    { intros other Hother. rewrite Hkeys. apply elem_of_app. by left. }
    destruct (fold_left _ before _) as [allPaths marked]. simpl in Hsame.
    assert (Hnotin : next ∉ currentPath).
    { apply NoDup_app in Hnodup' as (_ & Hdisjoint & _).
      intros Hin. apply (Hdisjoint next Hin). by left. }
    assert (Hnext : isVisited marked next = false).
    { rewrite Hsame, isVisited_insert.
      destruct (decide (currentToken = next)) as [<-|Hne].
      - exfalso. apply Hnotin. by apply last_Some_elem_of.
      - destruct (isVisited visited next) eqn:Hv; [|done].
        exfalso. by apply Hnotin, Hwithin. }
    unfold visitNext. rewrite Hnext. simpl.
    assert (Hin : (currentPath ++ [next]) ++ suffix'
                  ∈ (findPathsRecursive fuel graph next targetToken marked
                       (currentPath ++ [next]) maxDepth).1).
    { apply IHfuel.
      - eapply pathInvariant_next; [done|done| |done].
        rewrite Hkeys. apply elem_of_app. right. by left.
      - intros x Hx. rewrite Hsame, isVisited_insert in Hx.
        apply elem_of_app. destruct (decide (currentToken = x)) as [<-|Hne].
        + left. by apply last_Some_elem_of.
        + left. by apply Hwithin.
      - by rewrite <- app_assoc.
      - rewrite length_app. simpl. lia. }
    rewrite <- app_assoc in Hin. simpl in Hin.
    destruct (findPathsRecursive _ _ _ _ _ _ _) as [pathsFromNext marked'].
    simpl in *. apply elem_of_app. by right.
Qed.

End Completeness.

(** X8. The enumeration misses nothing: every sequence of at least two
    distinct currencies that starts at [start], ends at [end_], has at most
    [maxDepth] currencies and follows edges of the graph is among the
    paths returned. *)
Theorem findAllPaths_complete (graph : Graph) (start end_ : string) (maxDepth : Z)
    (path : list string) :
  simplePath graph start end_ maxDepth path →
  path ∈ findAllPaths graph start end_ maxDepth.
Proof.
  intros Hpath. pose proof Hpath as (Hlen & _ & Hhead & _ & Hdepth & _).
  destruct path as [|first suffix]; [done|]. simpl in Hhead. injection Hhead as ->.
  unfold findAllPaths.
  apply (findPathsRecursive_complete graph start end_ maxDepth (Z.to_nat maxDepth)
           start ∅ [start] suffix).
  - unfold pathInvariant. split_and!.
    + done.
    + apply NoDup_singleton.
    + done.
    + intros i a b Ha Hb. by destruct i.
    + intros x Hx Hne. apply list_elem_of_singleton in Hx. done.
    + done.
  - intros x Hx. done.
  - done.
  - simpl in *. lia.
Qed.

Lemma findAllPaths_complete_witness :
  ["A"; "B"; "D"; "C"] ∈ findAllPaths (buildGraph sharedEdgePairs) "A" "C" 5.
Proof.
  apply findAllPaths_complete. unfold simplePath. split_and!.
  - simpl. lia.
  - compute_done.
  - reflexivity.
  - reflexivity.
  - simpl. lia.
  - intros i a b Ha Hb.
    destruct i as [|[|[|i]]]; simpl in Ha, Hb; simplify_eq; vm_compute; eauto.
Defined.

Section Distinct.

Variable graph : Graph.
Variable targetToken : string.
Variable maxDepth : Z.

Local Abbreviation visit fuel currentPath :=
  (visitNext fuel graph targetToken currentPath maxDepth).

(** Paths found through different neighbours differ right after the
    current path. *)
Lemma extensions_differ (currentPath path : list string) (n n' : string) :
  (currentPath ++ [n]) `prefix_of` path →
  (currentPath ++ [n']) `prefix_of` path → n = n'.
Proof.
  intros [k ->] [k' Heq]. rewrite <- !app_assoc in Heq.
  apply app_inv_head in Heq. simpl in Heq. by injection Heq.
Qed.

Lemma visitNext_distinct fuel currentPath :
  (∀ nextToken visited,
     NoDup (findPathsRecursive fuel graph nextToken targetToken visited
              (currentPath ++ [nextToken]) maxDepth).1
     ∧ Forall (λ path, (currentPath ++ [nextToken]) `prefix_of` path)
         (findPathsRecursive fuel graph nextToken targetToken visited
            (currentPath ++ [nextToken]) maxDepth).1) →
  ∀ nexts seen state,
    NoDup (seen ++ nexts) →
    NoDup state.1 →
    Forall (λ path, ∃ n, n ∈ seen ∧ (currentPath ++ [n]) `prefix_of` path) state.1 →
    NoDup (fold_left (visit fuel currentPath) nexts state).1
    ∧ Forall (λ path, ∃ n, n ∈ seen ++ nexts ∧ (currentPath ++ [n]) `prefix_of` path)
        (fold_left (visit fuel currentPath) nexts state).1.
Proof.
  intros IHfuel nexts.
  induction nexts as [|nextToken nexts IH]; intros seen [allPaths marked] Hkeys Hnodup Hseen.
  { simpl. by rewrite app_nil_r. }
  simpl fold_left.
  replace (seen ++ nextToken :: nexts) with ((seen ++ [nextToken]) ++ nexts) in *
    by (by rewrite <- app_assoc).
  apply IH; [done| |].
  - unfold visitNext. destruct (negb (isVisited marked nextToken)); [|done].
    destruct (IHfuel nextToken marked) as [Hnew Hprefix].
    destruct (findPathsRecursive _ _ _ _ _ _ _) as [pathsFromNext marked'].
    simpl in *. apply NoDup_app. split_and!; [done| |done].
    intros path Hold Hnew'.
    rewrite Forall_forall in Hseen, Hprefix.
    destruct (Hseen path Hold) as (n & Hn & Hpre).
    pose proof (extensions_differ _ _ _ _ Hpre (Hprefix path Hnew')) as ->.
    apply NoDup_app in Hkeys as (Hkeys & _ & _).
    apply NoDup_app in Hkeys as (_ & Hdisjoint & _).
    apply (Hdisjoint nextToken Hn). by left.
  - unfold visitNext.
    assert (Hold : Forall (λ path, ∃ n, n ∈ seen ++ [nextToken]
                                     ∧ (currentPath ++ [n]) `prefix_of` path) allPaths).
    { eapply Forall_impl; [exact Hseen|]. intros path (n & Hn & Hpre).
      exists n. split; [|done]. apply elem_of_app. by left. }
    destruct (negb (isVisited marked nextToken)); [|done].
    destruct (IHfuel nextToken marked) as [_ Hprefix].
    destruct (findPathsRecursive _ _ _ _ _ _ _) as [pathsFromNext marked'].
    simpl in *. apply Forall_app. split; [done|].
    eapply Forall_impl; [exact Hprefix|]. intros path Hpre.
    exists nextToken. split; [|done]. apply elem_of_app. right. by left.
Qed.

Lemma findPathsRecursive_distinct fuel :
  ∀ currentToken visited currentPath,
    NoDup (findPathsRecursive fuel graph currentToken targetToken visited currentPath
             maxDepth).1
    ∧ Forall (λ path, currentPath `prefix_of` path)
        (findPathsRecursive fuel graph currentToken targetToken visited currentPath
           maxDepth).1.
Proof.
  induction fuel as [|fuel IHfuel]; intros currentToken visited currentPath;
    rewrite findPathsRecursive_unfold;
    destruct (maxDepth <? Z.of_nat (length currentPath))%Z;
    try (split; [apply NoDup_nil_2|done]);
    destruct (bool_decide (currentToken = targetToken) && (1 <? length currentPath)%nat);
    try (split; [apply NoDup_singleton|by apply Forall_singleton]);
    try (split; [apply NoDup_nil_2|done]).
  cbv zeta. simpl.
  destruct (visitNext_distinct fuel currentPath
              (λ nextToken marked, IHfuel nextToken marked (currentPath ++ [nextToken]))
              (rangeKeys graph currentToken) []
              ([], <[currentToken := true]> visited)) as [Hnodup Hprefix].
  - apply rangeKeys_NoDup.
  - apply NoDup_nil_2.
  - done.
  - split; [done|]. eapply Forall_impl; [exact Hprefix|].
    intros path (n & _ & Hpre). etrans; [|exact Hpre]. by apply prefix_app_r.
Qed.

End Distinct.

(** X9. No path is returned twice. *)
Theorem findAllPaths_NoDup (graph : Graph) (start end_ : string) (maxDepth : Z) :
  NoDup (findAllPaths graph start end_ maxDepth).
Proof. apply findPathsRecursive_distinct. Qed.

(** The cases in which no path can exist. *)
Lemma no_path_cases (graph : Graph) (start end_ : string) (maxDepth : Z) :
  start = end_ ∨ (maxDepth < 2)%Z ∨ graph !! start = None
  ∨ (∀ a, edge graph a end_ = None) →
  findAllPaths graph start end_ maxDepth = [].
Proof.
  intros Hcases. pose proof (findAllPaths_simple graph start end_ maxDepth) as Hsimple.
  destruct (findAllPaths graph start end_ maxDepth) as [|path paths]; [done|].
  exfalso. apply Forall_cons in Hsimple as [Hpath _].
  destruct Hpath as (Hlen & Hnodup & Hhead & Hlast & Hdepth & Hchain).
  destruct path as [|first [|second rest]]; simpl in Hlen; try lia.
  simpl in Hhead. injection Hhead as ->.
  destruct Hcases as [->|[Hshort|[Hrow|Hinto]]].
  - apply NoDup_cons in Hnodup as [Hnotin _]. apply Hnotin.
    change (end_ :: second :: rest) with ([end_] ++ second :: rest) in Hlast.
    rewrite last_app_cons in Hlast. by apply last_Some_elem_of.
  - simpl in Hdepth. lia.
  - destruct (Hchain 0%nat start second) as [stored Hstored]; [done|done|].
    unfold edge in Hstored. by rewrite Hrow in Hstored.
  - assert (Hend : ∃ front a, start :: second :: rest = front ++ [a; end_]).
    { change (start :: second :: rest) with ([start] ++ second :: rest) in *.
      rewrite last_app_cons in Hlast.
      destruct rest as [|x rest _] using rev_ind.
      - simpl in Hlast. injection Hlast as ->. by exists [], start.
      - rewrite app_comm_cons, last_snoc in Hlast. injection Hlast as ->.
        destruct rest as [|y rest _] using rev_ind.
        + by exists [start], second.
        + exists (start :: second :: rest), y.
          by rewrite <- !app_assoc. }
    destruct Hend as (front & a & Heq). rewrite Heq in Hchain.
    destruct (Hchain (length front) a end_) as [stored Hstored].
    + by rewrite list_lookup_middle.
    + rewrite lookup_app_r by lia.
      by replace (S (length front) - length front)%nat with 1%nat by lia.
    + by rewrite Hinto in Hstored.
Qed.

(** X10. There is no path at all, hence no error either, when the two
    currencies are the same (no cycle is reported), when fewer than two
    currencies are allowed, when the start has no row in the graph, or when
    no edge leads to the end. *)
Theorem findAllPaths_none (graph : Graph) (start end_ : string) (maxDepth : Z) :
  start = end_ ∨ (maxDepth < 2)%Z ∨ graph !! start = None
  ∨ (∀ a, edge graph a end_ = None) →
  findAllPaths graph start end_ maxDepth = [].
Proof. apply no_path_cases. Qed.

Lemma findAllPaths_none_witness :
  findAllPaths (buildGraph scenario1) "KNC" "KNC" 5 = []
  ∧ findAllPaths (buildGraph scenario1) "KNC" "ETH" 1 = []
  ∧ findAllPaths (buildGraph scenario1) "BTC" "ETH" 5 = [].
Proof.
  split_and!; apply findAllPaths_none.
  - by left.
  - right. left. lia.
  - right. right. left. reflexivity.
Defined.

(** ** Degenerate requests *)

(** X11. A request that has no path gives an empty book, and the executor
    answers it with no fill and the price NaN on both sides.  This is what
    happens when base and quote are the same currency, when the base
    currency is not in the graph, and when no edge leads to the quote
    currency. *)
Theorem missing_currency_gives_empty_book (graph : Graph)
    (baseCurrency quoteCurrency : string) (targetAmount : Q) :
  baseCurrency = quoteCurrency ∨ graph !! baseCurrency = None
  ∨ (∀ a, edge graph a quoteCurrency = None) →
  let book := buildVirtualOrderbook graph baseCurrency quoteCurrency in
  book = VirtualTradingPair.mk baseCurrency quoteCurrency [] []
  ∧ findBestRouteFromVirtualOrderbook (VirtualTradingPair.AskOrders book) targetAmount
    = (NaN, [])
  ∧ findBestRouteFromVirtualOrderbook (VirtualTradingPair.BidOrders book) targetAmount
    = (NaN, []).
Proof.
  intros Hcases. cbv zeta. rewrite buildVirtualOrderbook_sides.
  rewrite (no_path_cases graph baseCurrency quoteCurrency MAX_PATH_DEPTH).
  - done.
  - destruct Hcases as [?|[?|?]]; auto.
Qed.

Lemma missing_currency_gives_empty_book_witness :
  buildVirtualOrderbook (buildGraph scenario1) "BTC" "ETH"
  = VirtualTradingPair.mk "BTC" "ETH" [] [].
Proof.
  refine (proj1 (missing_currency_gives_empty_book (buildGraph scenario1)
                   "BTC" "ETH" 300 _)).
  right. left. reflexivity.
Defined.

(** A hop without levels leaves no combination to generate. *)
Lemma generateAllRouteCandidates_empty_hop (allHopLevels hops : list (list Level.t))
    (currentPrices : list Q) (currentIndices : list nat)
    (candidates : list RouteCandidate.t) :
  [] ∈ hops →
  generateAllRouteCandidates allHopLevels hops currentPrices currentIndices candidates
  = candidates.
Proof.
  revert currentPrices currentIndices candidates.
  induction hops as [|hopLevels hops IH];
    intros currentPrices currentIndices candidates Hin.
  { by apply elem_of_nil in Hin. }
  simpl. apply elem_of_cons in Hin as [<-|Hin]; [done|].
  generalize (enumerate hopLevels) as choices. intros choices. revert candidates.
  induction choices as [|[levelIdx level] choices IHc]; intros candidates; [done|].
  simpl. rewrite IH by done. apply IHc.
Qed.

(** X12. A path yields no order, silently, when it has fewer than two
    currencies, when one of its hops has no edge in the graph, or when the
    chosen side of one of its edges has no level. *)
Theorem calculateOrdersFromPath_nothing (graph : Graph) (path : list string)
    (isAsk : bool) :
  (length path < 2)%nat
  ∨ collectHopLevels graph path isAsk = None
  ∨ (∃ allHopLevels,
       collectHopLevels graph path isAsk = Some allHopLevels ∧ [] ∈ allHopLevels) →
  calculateOrdersFromPath graph path isAsk = [].
Proof.
  intros Hcases. unfold calculateOrdersFromPath, getAllPriceVolumeCombinations.
  destruct (length path <? 2)%nat eqn:Hshort; [done|].
  apply Nat.ltb_ge in Hshort.
  destruct Hcases as [Hlen|[Hmissing|(allHopLevels & Hcollect & Hin)]].
  - lia.
  - by rewrite Hmissing.
  - rewrite Hcollect. unfold generateCombinationsWithVolumeTracking.
    destruct allHopLevels as [|hop hops]; [done|].
    by rewrite generateAllRouteCandidates_empty_hop.
Qed.

Lemma calculateOrdersFromPath_nothing_witness :
  calculateOrdersFromPath (buildGraph sharedEdgePairs) ["A"; "C"] true = []
  ∧ calculateOrdersFromPath (buildGraph sharedEdgePairs) ["A"; "B"; "C"] false = [].
Proof.
  split; apply calculateOrdersFromPath_nothing.
  - right. left. reflexivity.
  - right. right. exists [[]; []]. split; [reflexivity|by left].
Defined.

(** ** Graph builder: what is stored, and where *)

Lemma is_Some_edge_buildGraphStep (graph : Graph) (pair : TradingPair.t) (x y : string) :
  is_Some (edge (buildGraphStep graph pair) x y)
  ↔ joins pair x y ∨ is_Some (edge graph x y).
Proof.
  rewrite edge_buildGraphStep. unfold joins.
  destruct (decide (x = TradingPair.Quote pair ∧ y = TradingPair.Base pair))
    as [[-> ->]|Hrev].
  { split; [|by eauto]. intros _. left. by right. }
  destruct (decide (x = TradingPair.Base pair ∧ y = TradingPair.Quote pair))
    as [[-> ->]|Hfwd].
  { split; [|by eauto]. intros _. left. by left. }
  split; [by right|]. intros [[[<- <-]|[<- <-]]|Hold]; try done; by exfalso; auto.
Qed.

(** X13. The graph has an edge from [x] to [y] exactly when some input
    pair is over these two currencies, in either direction: every pair
    gives both directions, and no edge is invented. *)
Theorem buildGraph_edges (pairs : list TradingPair.t) (x y : string) :
  is_Some (edge (buildGraph pairs) x y) ↔ ∃ pair, pair ∈ pairs ∧ joins pair x y.
Proof.
  induction pairs as [|pair pairs IH] using rev_ind.
  - unfold buildGraph, edge. simpl. rewrite lookup_empty. simpl. split.
    + by intros [? ?].
    + intros (pair & Hin & _). by apply elem_of_nil in Hin.
  - rewrite buildGraph_snoc, is_Some_edge_buildGraphStep, IH. split.
    + intros [Hjoins|(other & Hin & Hjoins)].
      * exists pair. split; [|done]. apply elem_of_app. right. by left.
      * exists other. split; [|done]. apply elem_of_app. by left.
    + intros (other & Hin & Hjoins).
      apply elem_of_app in Hin as [Hin|Hin].
      * right. by exists other.
      * apply list_elem_of_singleton in Hin as ->. by left.
Qed.

Lemma is_Some_row_ensureRow (graph : Graph) (c k : string) :
  is_Some (ensureRow graph c !! k) ↔ k = c ∨ is_Some (graph !! k).
Proof.
  unfold ensureRow. destruct (graph !! c) as [row|] eqn:Hrow.
  - split; [by right|]. intros [->|Hk]; [by rewrite Hrow|done].
  - rewrite lookup_insert. destruct (decide (c = k)) as [->|Hne].
    + split; [by left|by eauto].
    + split; [by right|]. by intros [->|Hk].
Qed.

Lemma is_Some_row_setEdge (graph : Graph) (a b : string) (stored : TradingPair.t)
    (k : string) :
  is_Some (setEdge graph a b stored !! k) ↔ k = a ∨ is_Some (graph !! k).
Proof.
  unfold setEdge. rewrite lookup_insert. destruct (decide (a = k)) as [->|Hne].
  - split; [by left|by eauto].
  - split; [by right|]. by intros [->|Hk].
Qed.

(** X14. A currency has a row in the graph, possibly an empty one,
    exactly when it is the base or the quote of some input pair. *)
Theorem buildGraph_rows (pairs : list TradingPair.t) (c : string) :
  is_Some (buildGraph pairs !! c)
  ↔ ∃ pair, pair ∈ pairs ∧ (c = TradingPair.Base pair ∨ c = TradingPair.Quote pair).
Proof.
  induction pairs as [|pair pairs IH] using rev_ind.
  - unfold buildGraph. simpl. rewrite lookup_empty. split.
    + by intros [? ?].
    + intros (pair & Hin & _). by apply elem_of_nil in Hin.
  - rewrite buildGraph_snoc. unfold buildGraphStep.
    rewrite !is_Some_row_setEdge, !is_Some_row_ensureRow, IH. split.
    + intros Hrow.
      assert (Hcases : c = TradingPair.Base pair ∨ c = TradingPair.Quote pair
                       ∨ ∃ other, other ∈ pairs
                           ∧ (c = TradingPair.Base other ∨ c = TradingPair.Quote other))
        by tauto.
      destruct Hcases as [->|[->|(other & Hin & Hc)]].
      * exists pair. split; [apply elem_of_app; right; by left|by left].
      * exists pair. split; [apply elem_of_app; right; by left|by right].
      * exists other. split; [|done]. apply elem_of_app. by left.
    + intros (other & Hin & Hc). apply elem_of_app in Hin as [Hin|Hin].
      * do 4 right. by exists other.
      * apply list_elem_of_singleton in Hin as ->. destruct Hc as [-> | ->]; auto.
Qed.

(** What is stored on an edge is an input pair cut to the cap, or the
    inversion of one, and is labelled with the currencies of the edge. *)
Lemma buildGraph_stored (pairs : list TradingPair.t) (x y : string)
    (stored : TradingPair.t) :
  edge (buildGraph pairs) x y = Some stored →
  TradingPair.Base stored = x ∧ TradingPair.Quote stored = y
  ∧ ∃ pair, pair ∈ pairs
      ∧ (stored = limitedPair pair ∨ stored = reversePair (limitedPair pair)).
Proof.
  revert stored. induction pairs as [|pair pairs IH] using rev_ind; intros stored.
  { unfold buildGraph, edge. simpl. by rewrite lookup_empty. }
  rewrite buildGraph_snoc, edge_buildGraphStep.
  destruct (decide (x = TradingPair.Quote pair ∧ y = TradingPair.Base pair))
    as [[-> ->]|Hrev].
  { intros [= <-]. split_and!; try done.
    exists pair. split; [apply elem_of_app; right; by left|by right]. }
  destruct (decide (x = TradingPair.Base pair ∧ y = TradingPair.Quote pair))
    as [[-> ->]|Hfwd].
  { intros [= <-]. split_and!; try done.
    exists pair. split; [apply elem_of_app; right; by left|by left]. }
  intros Hedge. destruct (IH _ Hedge) as (Hbase & Hquote & other & Hin & Hcases).
  split_and!; try done. exists other. split; [apply elem_of_app; by left|done].
Qed.

Lemma invertOrders_length (levels : list Level.t) :
  (length (invertOrders levels) ≤ length levels)%nat.
Proof.
  rewrite invertOrders_filter_map, length_map. apply List.filter_length_le.
Qed.

Lemma stored_edge_capped (pairs : list TradingPair.t) (x y : string)
    (stored : TradingPair.t) :
  edge (buildGraph pairs) x y = Some stored →
  (length (TradingPair.AskOrders stored) ≤ 5)%nat
  ∧ (length (TradingPair.BidOrders stored) ≤ 5)%nat.
Proof.
  intros Hedge.
  destruct (buildGraph_stored pairs x y stored Hedge) as (_ & _ & pair & _ & [->| ->]).
  - split; simpl; rewrite length_take; unfold MAX_LEVELS_PER_PAIR; lia.
  - split; simpl; (etrans; [apply invertOrders_length|]); rewrite length_take;
      unfold MAX_LEVELS_PER_PAIR; lia.
Qed.

(** X15. Whatever the input, every stored edge is labelled with its own
    two currencies and holds at most 5 ask levels and at most 5 bid
    levels; this includes the synthetic reverse edges. *)
Theorem stored_edges_labelled_and_capped (pairs : list TradingPair.t) (x y : string)
    (stored : TradingPair.t) :
  edge (buildGraph pairs) x y = Some stored →
  TradingPair.Base stored = x ∧ TradingPair.Quote stored = y
  ∧ (length (TradingPair.AskOrders stored) ≤ 5)%nat
  ∧ (length (TradingPair.BidOrders stored) ≤ 5)%nat.
Proof.
  intros Hedge.
  destruct (buildGraph_stored pairs x y stored Hedge) as (Hbase & Hquote & _).
  destruct (stored_edge_capped pairs x y stored Hedge) as [Hasks Hbids].
  done.
Qed.

Lemma stored_edges_labelled_and_capped_witness :
  ∃ stored,
    edge (buildGraph [tenAsks]) "ETH" "KNC" = Some stored
    ∧ TradingPair.Base stored = "ETH"
    ∧ (length (TradingPair.BidOrders stored) ≤ 5)%nat.
Proof.
  eexists. split; [reflexivity|].
  destruct (stored_edges_labelled_and_capped [tenAsks] "ETH" "KNC" _ eq_refl)
    as (Hbase & _ & _ & Hbids).
  split; [exact Hbase|exact Hbids].
Defined.

(** ** Order inversion and the order of prices *)

Lemma elem_of_invertOrders (levels : list Level.t) (inverted : Level.t) :
  inverted ∈ invertOrders levels →
  ∃ level, level ∈ levels ∧ 0 < Level.Price level
    ∧ Level.Price inverted = 1 / Level.Price level.
Proof.
  induction levels as [|level rest IH]; simpl; intros Hin.
  { by apply elem_of_nil in Hin. }
  destruct (Qltb 0 (Level.Price level)) eqn:Hpos.
  - apply elem_of_cons in Hin as [->|Hin].
    + exists level. split_and!; [by left|by apply Qltb_lt|done].
    + destruct (IH Hin) as (other & Hother & Hprice). exists other.
      split; [by right|done].
  - destruct (IH Hin) as (other & Hother & Hprice). exists other.
    split; [by right|done].
Qed.

Lemma inverse_antitone (p q : Q) : 0 < p → p <= q → 1 / q <= 1 / p.
Proof.
  intros Hp Hpq. apply Qle_shift_div_l; [done|].
  assert (Heq : 1 / q * p == p / q) by (field; lra).
  rewrite Heq. apply Qle_shift_div_r; lra.
Qed.

Lemma invertOrders_antitone (R R' : Level.t → Level.t → Prop) (levels : list Level.t) :
  (∀ a b a' b',
     R a b → 0 < Level.Price a → 0 < Level.Price b →
     Level.Price a' = 1 / Level.Price a → Level.Price b' = 1 / Level.Price b →
     R' a' b') →
  StronglySorted R levels → StronglySorted R' (invertOrders levels).
Proof.
  intros Hanti. induction 1 as [|level rest Hrest IH Hall]; simpl; [constructor|].
  destruct (Qltb 0 (Level.Price level)) eqn:Hpos; [|done].
  apply Qltb_lt in Hpos. constructor; [done|].
  apply Forall_forall. intros inverted Hin.
  apply elem_of_invertOrders in Hin as (other & Hother & Hpos' & Hprice).
  rewrite Forall_forall in Hall. eapply Hanti; [by apply Hall|done|done|done|done].
Qed.

(** X16. Inversion turns the order of prices around: a level list in
    descending price order is inverted into one in ascending order, and an
    ascending one into a descending one, whether or not levels are dropped
    for their non-positive price.  Bids listed best first thus become asks
    listed best first. *)
Theorem invertOrders_reverses_order (levels : list Level.t) :
  (descending levels → ascending (invertOrders levels))
  ∧ (ascending levels → descending (invertOrders levels)).
Proof.
  unfold ascending, descending. split; intros Hsorted.
  - apply StronglySorted_Sorted.
    apply (invertOrders_antitone (λ a b, Level.Price b <= Level.Price a)).
    + intros a b a' b' Hab Ha Hb -> ->. by apply inverse_antitone.
    + apply Sorted_StronglySorted; [|done].
      intros a b c Hab Hbc. simpl in *. lra.
  - apply StronglySorted_Sorted.
    apply (invertOrders_antitone (λ a b, Level.Price a <= Level.Price b)).
    + intros a b a' b' Hab Ha Hb -> ->. by apply inverse_antitone.
    + apply Sorted_StronglySorted; [|done].
      intros a b c Hab Hbc. simpl in *. lra.
Qed.

Lemma invertOrders_reverses_order_witness :
  ascending (invertOrders [L 30 10; L 20 15; L 0 7]).
Proof.
  apply (proj1 (invertOrders_reverses_order [L 30 10; L 20 15; L 0 7])).
  repeat constructor; vm_compute; discriminate.
Defined.

(** ** Candidates: what is generated *)

Section MinimumVolume.

Variable allHopLevels : list (list Level.t).

(** The loop of the leaf that looks for the smallest quantity. *)
Local Abbreviation smallest choices start :=
  (fold_left
     (λ maxVolume '(hopIdx, levelIdx),
        if lt_float64 (levelAmountAt allHopLevels hopIdx levelIdx) maxVolume
        then Finite (levelAmountAt allHopLevels hopIdx levelIdx)
        else maxVolume)
     choices start).

Lemma smallest_bound (chosen : list (nat * nat)) (start : float64) (volume : Q) :
  start ≠ NaN →
  smallest chosen start = Finite volume →
  (∀ h l, (h, l) ∈ chosen → volume <= levelAmountAt allHopLevels h l)
  ∧ (∀ bound, start = Finite bound → volume <= bound)
  ∧ (start = Finite volume
     ∨ ∃ h l, (h, l) ∈ chosen ∧ levelAmountAt allHopLevels h l = volume).
Proof.
  revert start. induction chosen as [|[h l] chosen IH]; intros start Hstart Hresult.
  { simpl in Hresult. subst start. split_and!.
    - intros h l Hin. by apply elem_of_nil in Hin.
    - intros bound [= <-]. lra.
    - by left. }
  simpl in Hresult.
  destruct (lt_float64 (levelAmountAt allHopLevels h l) start) eqn:Hlt.
  - destruct (IH (Finite (levelAmountAt allHopLevels h l)) ltac:(done) Hresult)
      as (Hall & Hbound & Hattained).
    specialize (Hbound _ eq_refl). split_and!.
    + intros h' l' Hin. apply elem_of_cons in Hin as [[= -> ->]|Hin]; [done|by apply Hall].
    + intros bound ->. simpl in Hlt. apply Qltb_lt in Hlt. lra.
    + right. destruct Hattained as [[= <-]|(h' & l' & Hin & Heq)].
      * exists h, l. split; [by left|done].
      * exists h', l'. split; [by right|done].
  - destruct (IH start Hstart Hresult) as (Hall & Hbound & Hattained).
    destruct start as [bound| |]; [|done|done].
    simpl in Hlt. apply Qltb_ge in Hlt. specialize (Hbound _ eq_refl). split_and!.
    + intros h' l' Hin. apply elem_of_cons in Hin as [[= -> ->]|Hin]; [lra|by apply Hall].
    + intros bound' [= <-]. done.
    + destruct Hattained as [Heq|(h' & l' & Hin & Heq)]; [by left|].
      right. exists h', l'. split; [by right|done].
Qed.

Lemma levelAmountAt_lookup (hopIdx levelIdx : nat) (hop : list Level.t) (level : Level.t) :
  allHopLevels !! hopIdx = Some hop → hop !! levelIdx = Some level →
  levelAmountAt allHopLevels hopIdx levelIdx = Level.Amount level.
Proof. intros Hhop Hlevel. unfold levelAmountAt. by rewrite Hhop; simpl; rewrite Hlevel. Qed.

Local Abbreviation wellFormed := (wellFormed allHopLevels).

Lemma emitCandidate_wellFormed currentPrices currentIndices candidates :
  chosenSoFar allHopLevels currentPrices currentIndices →
  Forall wellFormed candidates →
  Forall wellFormed (emitCandidate allHopLevels currentPrices currentIndices candidates).
Proof.
  intros (Hlen & Hlen' & Hrows) Hcands. unfold emitCandidate. cbv zeta.
  destruct (smallest (enumerate currentIndices) PosInf) as [volume| |] eqn:Hsmallest;
    try done.
  destruct (Qltb 0 volume) eqn:Hpos; [|exact Hcands]. apply Qltb_lt in Hpos.
  apply Forall_app. split; [done|]. apply Forall_singleton.
  destruct (smallest_bound (enumerate currentIndices) PosInf volume ltac:(done)
              Hsmallest) as (Hall & _ & Hattained).
  split_and!; simpl; try done.
  - split_and!; simpl; try done.
    intros hopIdx levelIdx Hidx.
    destruct (Hrows _ _ Hidx) as (hop & level & Hhop & Hlevel & Hprice).
    exists hop, level. split_and!; try done.
    rewrite <- (levelAmountAt_lookup _ _ _ _ Hhop Hlevel).
    apply Hall. by apply elem_of_enumerate.
  - destruct Hattained as [|(h & l & Hin & Heq)]; [done|].
    apply elem_of_enumerate in Hin.
    destruct (Hrows _ _ Hin) as (hop & level & Hhop & Hlevel & _).
    exists h, l, hop, level. split_and!; try done.
    by rewrite <- (levelAmountAt_lookup _ _ _ _ Hhop Hlevel).
Qed.

Lemma generateAllRouteCandidates_wellFormed_from hops :
  ∀ chosen currentPrices currentIndices candidates,
    allHopLevels = chosen ++ hops →
    chosenSoFar chosen currentPrices currentIndices →
    Forall wellFormed candidates →
    Forall wellFormed
      (generateAllRouteCandidates allHopLevels hops currentPrices currentIndices
         candidates).
Proof.
  induction hops as [|hopLevels hops IH];
    intros chosen currentPrices currentIndices candidates Hall Hsofar Hcands.
  - simpl. rewrite app_nil_r in Hall. subst chosen.
    by apply emitCandidate_wellFormed.
  - simpl. apply fold_left_Forall; [|done].
    intros acc [levelIdx level] Hin Hacc.
    apply elem_of_enumerate in Hin.
    apply (IH (chosen ++ [hopLevels])); [by rewrite <- app_assoc| |done].
    destruct Hsofar as (Hlen & Hlen' & Hrows). split_and!.
    + rewrite !length_app. simpl. lia.
    + rewrite !length_app. simpl. lia.
    + intros hopIdx levelIdx' Hlookup.
      apply lookup_app_Some in Hlookup as [Hlookup|[Hge Hlookup]].
      * destruct (Hrows _ _ Hlookup) as (hop & level' & Hhop & Hlevel & Hprice).
        exists hop, level'. split_and!; [by apply lookup_app_l_Some|done|].
        by apply lookup_app_l_Some.
      * apply list_lookup_singleton_Some in Hlookup as [Hzero <-].
        assert (hopIdx = length chosen) as -> by lia.
        exists hopLevels, level. split_and!; [|done|].
        -- rewrite lookup_app_r by lia. by rewrite Nat.sub_diag.
        -- rewrite lookup_app_r by lia. by rewrite Hlen', Nat.sub_diag.
Qed.

Lemma generateAllRouteCandidates_wellFormed :
  Forall wellFormed (generateAllRouteCandidates allHopLevels allHopLevels [] [] []).
Proof.
  apply (generateAllRouteCandidates_wellFormed_from allHopLevels []); [done| |done].
  split_and!; try done.
Qed.

End MinimumVolume.

(** X17. Every generated candidate is one choice of a level per hop: it
    has one index and one price per hop, each price is the price of the
    chosen level, its final price is the product of these prices, and its
    volume bound is positive, is at most the quantity of every chosen
    level and is the quantity of one of them. *)
Theorem candidates_are_level_choices (allHopLevels : list (list Level.t)) :
  Forall
    (λ candidate,
       chooses allHopLevels candidate
       ∧ boundAttained allHopLevels candidate
       ∧ RouteCandidate.finalPrice candidate
         = productOf (RouteCandidate.prices candidate)
       ∧ 0 < RouteCandidate.maxVolume candidate)
    (generateAllRouteCandidates allHopLevels allHopLevels [] [] []).
Proof. apply generateAllRouteCandidates_wellFormed. Qed.

(** ** Candidates: how many *)

Lemma emitCandidate_length (allHopLevels : list (list Level.t)) (currentPrices : list Q)
    (currentIndices : list nat) (candidates : list RouteCandidate.t) :
  (length (emitCandidate allHopLevels currentPrices currentIndices candidates)
   ≤ length candidates + 1)%nat.
Proof.
  unfold emitCandidate. cbv zeta.
  destruct (fold_left _ _ PosInf) as [volume| |]; try lia.
  destruct (Qltb 0 volume); [|lia]. rewrite length_app. simpl. lia.
Qed.

Lemma generateAllRouteCandidates_length (allHopLevels hops : list (list Level.t)) :
  ∀ currentPrices currentIndices candidates,
    (length (generateAllRouteCandidates allHopLevels hops currentPrices currentIndices
               candidates)
     ≤ length candidates + choices hops)%nat.
Proof.
  induction hops as [|hopLevels hops IH]; intros currentPrices currentIndices candidates.
  { apply emitCandidate_length. }
  simpl. unfold enumerate. rewrite <- (length_imap (λ i x, (i, x)) hopLevels).
  generalize (imap (λ i x, (i, x)) hopLevels) as chosen. intros chosen.
  revert candidates. induction chosen as [|[levelIdx level] chosen IHc];
    intros candidates; simpl; [lia|].
  etrans; [apply IHc|]. specialize (IH (currentPrices ++ [Level.Price level])
                                      (currentIndices ++ [levelIdx]) candidates).
  lia.
Qed.

Lemma choices_bound (hops : list (list Level.t)) :
  Forall (λ hop, (length hop ≤ 5)%nat) hops → (choices hops ≤ 5 ^ length hops)%nat.
Proof.
  induction 1 as [|hop hops Hhop _ IH]; simpl; [lia|].
  etrans; [apply Nat.mul_le_mono; [exact Hhop|exact IH]|]. lia.
Qed.

(** The hops collected for a path are sides of stored edges, one per
    pair of consecutive currencies. *)
Lemma collectHopLevels_hops (graph : Graph) (path : list string) (isAsk : bool)
    (allHopLevels : list (list Level.t)) :
  collectHopLevels graph path isAsk = Some allHopLevels →
  length allHopLevels = (length path - 1)%nat
  ∧ Forall (λ hop, ∃ x y stored,
                     edge graph x y = Some stored
                     ∧ hop = if isAsk then TradingPair.AskOrders stored
                             else TradingPair.BidOrders stored)
      allHopLevels.
Proof.
  revert allHopLevels. induction path as [|fromToken path IH]; intros allHopLevels.
  { intros [= <-]. done. }
  destruct path as [|toToken rest]; [by intros [= <-]|].
  rewrite collectHopLevels_cons.
  destruct (edge graph fromToken toToken) as [stored|] eqn:Hstored; [|done].
  destruct (collectHopLevels graph (toToken :: rest) isAsk) as [others|]; [|done].
  intros [= <-]. destruct (IH others eq_refl) as [Hlen Hhops]. split.
  - simpl in *. lia.
  - constructor; [|done]. by exists fromToken, toToken, stored.
Qed.

(** X18. The work per path is bounded: for a graph built from input
    pairs and a path returned by the enumeration with the depth bound 5,
    at most 5^4 = 625 candidates are generated on each side. *)
Theorem candidates_per_path_bounded (pairs : list TradingPair.t)
    (baseCurrency quoteCurrency : string) (path : list string) (isAsk : bool)
    (allHopLevels : list (list Level.t)) :
  path ∈ findAllPaths (buildGraph pairs) baseCurrency quoteCurrency MAX_PATH_DEPTH →
  collectHopLevels (buildGraph pairs) path isAsk = Some allHopLevels →
  (length (generateAllRouteCandidates allHopLevels allHopLevels [] [] []) ≤ 625)%nat.
Proof.
  intros Hpath Hcollect.
  pose proof (findAllPaths_simple (buildGraph pairs) baseCurrency quoteCurrency
                MAX_PATH_DEPTH) as Hsimple.
  rewrite Forall_forall in Hsimple.
  destruct (Hsimple path Hpath) as (_ & _ & _ & _ & Hdepth & _).
  destruct (collectHopLevels_hops _ _ _ _ Hcollect) as [Hlen Hhops].
  etrans; [apply generateAllRouteCandidates_length|]. simpl.
  etrans; [apply choices_bound|].
  - eapply Forall_impl; [exact Hhops|]. intros hop (x & y & stored & Hedge & ->).
    destruct (stored_edge_capped pairs x y stored Hedge). by destruct isAsk.
  - change 625%nat with (5 ^ 4)%nat. apply Nat.pow_le_mono_r; [lia|].
    unfold MAX_PATH_DEPTH in Hdepth. lia.
Qed.

Lemma candidates_per_path_bounded_witness :
  (length
     (generateAllRouteCandidates
        [[L 1 200; L (14 # 10) 400]; invertOrders [L 30 10; L 20 15]]
        [[L 1 200; L (14 # 10) 400]; invertOrders [L 30 10; L 20 15]] [] [] [])
   ≤ 625)%nat.
Proof.
  apply (candidates_per_path_bounded scenario1 "KNC" "ETH" ["KNC"; "USDT"; "ETH"] true).
  - vm_compute. left.
  - reflexivity.
Defined.

(** ** Greedy selection: order of the emitted levels *)

Lemma StronglySorted_sublist {A : Type} (R : A → A → Prop) (k l : list A) :
  k `sublist_of` l → StronglySorted R l → StronglySorted R k.
Proof.
  induction 1 as [|x k l Hsub IH|x k l Hsub IH]; intros Hsorted; [done| |].
  - apply StronglySorted_inv in Hsorted as [Hrest Hall].
    constructor; [by apply IH|].
    rewrite Forall_forall in Hall. apply Forall_forall. intros y Hy.
    apply Hall. by eapply sublist_subseteq.
  - apply StronglySorted_inv in Hsorted as [Hrest _]. by apply IH.
Qed.

Lemma bestFirst_trans (isAsk : bool) (x y z : Q) :
  bestFirst isAsk x y → bestFirst isAsk y z → bestFirst isAsk x z.
Proof. unfold bestFirst. destruct isAsk; intros; lra. Qed.

Lemma sortCandidatesByPrice_sorted (candidates : list RouteCandidate.t) (isAsk : bool) :
  StronglySorted
    (λ a b, bestFirst isAsk (RouteCandidate.finalPrice a) (RouteCandidate.finalPrice b))
    (sortCandidatesByPrice candidates isAsk).
Proof.
  apply Sorted_StronglySorted.
  { intros a b c. apply bestFirst_trans. }
  unfold sortCandidatesByPrice.
  eapply Sorted_weaken; [|apply sortSlice_Sorted].
  - intros a b. unfold notAfter, bestFirst. destruct isAsk; apply Qltb_ge.
  - intros x y. destruct isAsk; rewrite Qltb_lt, Qltb_ge; apply Qlt_le_weak.
Qed.

(** The candidates of the trace are candidates of the loop, in the order
    of the loop. *)
Lemma trace_sublist (candidates : list RouteCandidate.t)
    (state : list (list Q) * list (RouteCandidate.t * Q)) :
  ∃ emitted,
    emitted `sublist_of` candidates
    ∧ map fst (fold_left greedyTraceStep candidates state).2
      = map fst state.2 ++ emitted.
Proof.
  revert state. induction candidates as [|candidate candidates IH];
    intros [remainingVolumes trace].
  { exists []. simpl. by rewrite app_nil_r. }
  simpl fold_left.
  destruct (IH (greedyTraceStep (remainingVolumes, trace) candidate))
    as (emitted & Hsub & Heq).
  unfold greedyTraceStep in *.
  destruct (Qltb 0 (maxUsableVolume remainingVolumes candidate)).
  - exists (candidate :: emitted). split; [by constructor|].
    rewrite Heq. simpl. rewrite map_app. simpl. by rewrite <- app_assoc.
  - exists emitted. split; [by constructor|done].
Qed.

Lemma greedyTrace_candidates (allHopLevels : list (list Level.t)) (isAsk : bool) :
  map fst (greedyTrace allHopLevels isAsk)
  `sublist_of` sortCandidatesByPrice
                 (generateAllRouteCandidates allHopLevels allHopLevels [] [] []) isAsk.
Proof.
  unfold greedyTrace.
  destruct (trace_sublist
              (sortCandidatesByPrice
                 (generateAllRouteCandidates allHopLevels allHopLevels [] [] []) isAsk)
              (initialVolumes allHopLevels, [])) as (emitted & Hsub & ->).
  done.
Qed.

Lemma greedyTrace_wellFormed (allHopLevels : list (list Level.t)) (isAsk : bool) :
  Forall (λ entry, wellFormed allHopLevels entry.1) (greedyTrace allHopLevels isAsk).
Proof.
  apply Forall_fmap with (f := fst) (P := wellFormed allHopLevels).
  apply Forall_forall. intros candidate Hin.
  apply (sublist_subseteq _ _ (greedyTrace_candidates allHopLevels isAsk)) in Hin.
  unfold sortCandidatesByPrice in Hin. rewrite sortSlice_Permutation in Hin.
  pose proof (generateAllRouteCandidates_wellFormed allHopLevels) as Hall.
  rewrite Forall_forall in Hall. by apply Hall.
Qed.

Lemma levels_of_sorted_entries (isAsk : bool) (truePath : list string)
    (trace : list (RouteCandidate.t * Q)) :
  Forall (λ entry, RouteCandidate.finalPrice entry.1
                   = productOf (RouteCandidate.prices entry.1)) trace →
  StronglySorted
    (λ a b, bestFirst isAsk (RouteCandidate.finalPrice a) (RouteCandidate.finalPrice b))
    (map fst trace) →
  StronglySorted (byPrice (bestFirst isAsk))
    (map (λ entry, levelOf truePath (comboOf entry)) trace).
Proof.
  induction 1 as [|entry trace Hentry Hprices IH]; simpl; intros Hsorted; [constructor|].
  apply StronglySorted_inv in Hsorted as [Hrest Hall].
  constructor; [by apply IH|].
  rewrite Forall_fmap in Hall. rewrite Forall_fmap.
  rewrite Forall_forall in Hall, Hprices. apply Forall_forall. intros other Hother.
  unfold byPrice. simpl. rewrite <- Hentry, <- (Hprices other Hother).
  by apply Hall.
Qed.

(** X19. The orders computed for one path come out best price first
    already: by ascending price on the ask side, by descending price on the
    bid side. *)
Theorem orders_of_a_path_are_sorted (graph : Graph) (path : list string) (isAsk : bool) :
  Sorted (byPrice (bestFirst isAsk)) (calculateOrdersFromPath graph path isAsk).
Proof.
  destruct (collectHopLevels graph path isAsk) as [allHopLevels|] eqn:Hcollect.
  - rewrite (calculateOrdersFromPath_trace graph path isAsk allHopLevels Hcollect).
    apply StronglySorted_Sorted, levels_of_sorted_entries.
    + eapply Forall_impl; [apply greedyTrace_wellFormed|].
      by intros entry (_ & _ & Hprice & _).
    + eapply StronglySorted_sublist; [apply greedyTrace_candidates|].
      apply sortCandidatesByPrice_sorted.
  - unfold calculateOrdersFromPath, getAllPriceVolumeCombinations.
    rewrite Hcollect. destruct (length path <? 2)%nat; constructor.
Qed.

(** ** Greedy selection: nothing usable is left *)

(** The first inner loop returns the candidate's bound or what is left on
    one of its levels. *)
Lemma maxUsableVolume_attained remainingVolumes candidate :
  maxUsableVolume remainingVolumes candidate = RouteCandidate.maxVolume candidate
  ∨ ∃ hopIdx levelIdx,
      RouteCandidate.levelIndices candidate !! hopIdx = Some levelIdx
      ∧ maxUsableVolume remainingVolumes candidate
        = remainingAt remainingVolumes hopIdx levelIdx.
Proof.
  unfold maxUsableVolume. setoid_rewrite <- elem_of_enumerate.
  generalize (enumerate (RouteCandidate.levelIndices candidate)) as choices.
  generalize (RouteCandidate.maxVolume candidate) as bound.
  intros bound choices. revert bound.
  induction choices as [|[h l] choices IH] using rev_ind; intros bound; [by left|].
  rewrite fold_left_app. simpl.
  destruct (Qltb (remainingAt remainingVolumes h l) _).
  - right. exists h, l. split; [|done]. apply elem_of_app. right. by left.
  - destruct (IH bound) as [Hbound|(hopIdx & levelIdx & Hin & Heq)]; [by left|].
    right. exists hopIdx, levelIdx. split; [|done]. apply elem_of_app. by left.
Qed.

Lemma consumed_nonneg (hopIdx levelIdx : nat) (trace : list (RouteCandidate.t * Q)) :
  Forall (λ entry, 0 < entry.2) trace → 0 <= consumed hopIdx levelIdx trace.
Proof.
  unfold consumed. induction 1 as [|entry trace Hentry _ IH]; simpl; [lra|].
  destruct (consumes hopIdx levelIdx entry); simpl; lra.
Qed.

Lemma chooses_inRange (allHopLevels : list (list Level.t)) (candidate : RouteCandidate.t) :
  chooses allHopLevels candidate →
  inRange allHopLevels (RouteCandidate.levelIndices candidate).
Proof.
  intros (Hlength & _ & Hlevels). split; [done|].
  intros hopIdx levelIdx Hidx.
  destruct (Hlevels _ _ Hidx) as (hop & level & Hhop & Hlevel & _).
  exists hop. split; [done|]. by eapply lookup_lt_Some.
Qed.

Section Exhaustion.

Variable allHopLevels : list (list Level.t).

Local Abbreviation invariant state :=
  (inventoryInvariant allHopLevels state ∧ Forall (λ entry, 0 < entry.2) state.2).

Lemma invariant_step state candidate :
  wellFormed allHopLevels candidate →
  invariant state → invariant (greedyTraceStep state candidate).
Proof.
  intros (Hchooses & _) [Hinv Hpos]. split.
  - apply inventory_step; [by apply chooses_inRange|done].
  - apply (trace_positive [candidate] state Hpos).
Qed.

(** What is left on a level never grows. *)
Lemma remainingAt_step state candidate hopIdx levelIdx :
  wellFormed allHopLevels candidate →
  inventoryInvariant allHopLevels state →
  remainingAt (greedyTraceStep state candidate).1 hopIdx levelIdx
  <= remainingAt state.1 hopIdx levelIdx.
Proof.
  destruct state as [remainingVolumes trace].
  intros (Hchooses & _) [Hshape _]. simpl in Hshape. unfold greedyTraceStep.
  destruct (Qltb 0 (maxUsableVolume remainingVolumes candidate)) eqn:Hpos;
    simpl; [|lra].
  apply Qltb_lt in Hpos. rewrite remainingAt_deductAll.
  - destruct (bool_decide _); lra.
  - intros h l Hl.
    destruct (chooses_inRange _ _ Hchooses) as [_ Hrows].
    destruct (Hrows _ _ Hl) as (row & Hrow & Hlt).
    destruct (shape_lookup allHopLevels remainingVolumes h l row)
      as (row' & y & Hrow' & Hy); [done|done|done|].
    exists row'. split; [done|]. by eapply lookup_lt_Some.
Qed.

Lemma exhausted_step state candidate other :
  wellFormed allHopLevels candidate →
  inventoryInvariant allHopLevels state →
  exhausted state.1 other → exhausted (greedyTraceStep state candidate).1 other.
Proof.
  intros Hcandidate Hinv (hopIdx & levelIdx & Hidx & Hleft).
  exists hopIdx, levelIdx. split; [done|].
  pose proof (remainingAt_step state candidate hopIdx levelIdx Hcandidate Hinv). lra.
Qed.

Lemma exhausted_fold candidates state other :
  Forall (wellFormed allHopLevels) candidates →
  invariant state →
  exhausted state.1 other →
  exhausted (fold_left greedyTraceStep candidates state).1 other.
Proof.
  intros Hcands. revert state.
  induction Hcands as [|candidate candidates Hc _ IH]; intros state Hinv Hother; [done|].
  simpl. apply IH; [by apply invariant_step|].
  apply exhausted_step; [done|apply Hinv|done].
Qed.

(** After its own iteration a candidate has a level with nothing left on
    it. *)
Lemma step_exhausts state candidate :
  wellFormed allHopLevels candidate →
  invariant state →
  exhausted (greedyTraceStep state candidate).1 candidate.
Proof.
  destruct state as [remainingVolumes trace].
  intros (Hchooses & Hattained & _ & Hbound) [[Hshape Hinv] Hpos].
  simpl in Hshape, Hinv, Hpos.
  destruct (maxUsableVolume_bound remainingVolumes candidate) as [_ Hle].
  assert (Hrows : ∀ h l, RouteCandidate.levelIndices candidate !! h = Some l →
            ∃ row, remainingVolumes !! h = Some row ∧ (l < length row)%nat).
  { intros h l Hl.
    destruct (chooses_inRange _ _ Hchooses) as [_ Hrows].
    destruct (Hrows _ _ Hl) as (row & Hrow & Hlt).
    destruct (shape_lookup allHopLevels remainingVolumes h l row)
      as (row' & y & Hrow' & Hy); [done|done|done|].
    exists row'. split; [done|]. by eapply lookup_lt_Some. }
  unfold greedyTraceStep.
  destruct (Qltb 0 (maxUsableVolume remainingVolumes candidate)) eqn:Hvolume;
    [apply Qltb_lt in Hvolume|apply Qltb_ge in Hvolume]; simpl;
    destruct (maxUsableVolume_attained remainingVolumes candidate)
      as [Heq|(hopIdx & levelIdx & Hidx & Heq)].
  - destruct Hattained as (hopIdx & levelIdx & hop & level & Hidx & Hhop & Hlevel & Hamount).
    exists hopIdx, levelIdx. split; [done|].
    rewrite remainingAt_deductAll, bool_decide_eq_true_2 by done.
    destruct (Hinv _ _ _ _ Hhop Hlevel) as [Hsum _].
    pose proof (consumed_nonneg hopIdx levelIdx trace Hpos).
    rewrite Heq. rewrite <- Hamount. lra.
  - exists hopIdx, levelIdx. split; [done|].
    rewrite remainingAt_deductAll, bool_decide_eq_true_2 by done.
    rewrite Heq. lra.
  - rewrite Heq in Hvolume. lra.
  - exists hopIdx, levelIdx. split; [done|]. by rewrite <- Heq.
Qed.

Lemma fold_exhausts candidates state candidate :
  Forall (wellFormed allHopLevels) candidates →
  invariant state →
  candidate ∈ candidates →
  exhausted (fold_left greedyTraceStep candidates state).1 candidate.
Proof.
  intros Hcands. revert state.
  induction Hcands as [|first candidates Hfirst Hrest IH]; intros state Hinv Hin.
  { by apply elem_of_nil in Hin. }
  simpl. apply elem_of_cons in Hin as [->|Hin].
  - apply exhausted_fold; [done|by apply invariant_step|by apply step_exhausts].
  - apply IH; [by apply invariant_step|done].
Qed.

End Exhaustion.



(** ** Routes and per-hop prices *)

Lemma calculateOrdersFromPath_pricedPerHop (graph : Graph) (path : list string)
    (isAsk : bool) :
  Forall pricedPerHop (calculateOrdersFromPath graph path isAsk).
Proof.
  destruct (length path <? 2)%nat eqn:Hshort.
  { unfold calculateOrdersFromPath. by rewrite Hshort. }
  apply Nat.ltb_ge in Hshort.
  destruct (collectHopLevels graph path isAsk) as [allHopLevels|] eqn:Hcollect.
  - rewrite (calculateOrdersFromPath_trace graph path isAsk allHopLevels Hcollect).
    apply Forall_fmap. eapply Forall_impl; [apply greedyTrace_wellFormed|].
    intros entry ((_ & Hprices & _) & _). unfold pricedPerHop. simpl.
    destruct (collectHopLevels_hops graph path isAsk allHopLevels Hcollect) as [Hhops _].
    rewrite Hprices, Hhops. destruct isAsk; rewrite ?length_reverse; lia.
  - unfold calculateOrdersFromPath, getAllPriceVolumeCombinations.
    rewrite Hcollect. by destruct (length path <? 2)%nat.
Qed.

(** On a list sorted by ascending price the merge loop never replaces a
    route: every merged level keeps the route and the per-hop prices of the
    level its run starts with. *)
Lemma mergeLoop_ascending (P : VirtualLevel.t → Prop)
    (current : VirtualLevel.t) (levels : list VirtualLevel.t) :
  (∀ level level', VirtualLevel.Route level = VirtualLevel.Route level' →
     VirtualLevel.LevelPrices level = VirtualLevel.LevelPrices level' →
     P level → P level') →
  StronglySorted (byPrice Qle) (current :: levels) →
  Forall P (current :: levels) →
  Forall P (mergeLoop [] current levels).
Proof.
  intros Hext. revert current.
  induction levels as [|level rest IH]; intros current Hsorted Hall; [done|].
  apply StronglySorted_inv in Hsorted as [Hsorted Hfirst].
  apply Forall_cons in Hall as [Hcurrent Hall].
  apply Forall_cons in Hfirst as [Hlevel Hfirst].
  rewrite mergeLoop_cons. destruct (samePrice level current).
  - apply StronglySorted_inv in Hsorted as [Hsorted _].
    apply Forall_cons in Hall as [_ Hall].
    apply IH.
    + constructor; [done|]. eapply Forall_impl; [exact Hfirst|].
      intros other. unfold byPrice. by rewrite absorb_Price.
    + constructor; [|done]. apply (Hext current); [|by rewrite absorb_LevelPrices|done].
      rewrite absorb_Route. unfold byPrice in Hlevel.
      apply Qltb_ge in Hlevel. by rewrite Hlevel.
  - constructor; [done|]. by apply IH.
Qed.

(** X21. On the ask side of the finished book every level carries one
    per-hop price for every hop of its route. *)
Theorem asks_are_priced_per_hop (graph : Graph) (baseCurrency quoteCurrency : string) :
  Forall pricedPerHop
    (VirtualTradingPair.AskOrders
       (buildVirtualOrderbook graph baseCurrency quoteCurrency)).
Proof.
  rewrite buildVirtualOrderbook_sides. simpl.
  set (orders := concat _).
  pose proof (sortVirtualLevels_sorted orders true) as Hsorted.
  assert (Hall : Forall pricedPerHop (sortVirtualLevels orders true)).
  { unfold sortVirtualLevels. rewrite sortSlice_Permutation.
    apply Forall_concat, Forall_fmap, Forall_forall. intros path _.
    apply calculateOrdersFromPath_pricedPerHop. }
  destruct (sortVirtualLevels orders true) as [|first rest]; [done|].
  apply mergeLoop_ascending; [|
    apply Sorted_StronglySorted; [|exact Hsorted]|done].
  - intros level level'. unfold pricedPerHop. by intros -> ->.
  - intros x y z. unfold byPrice. apply Qle_trans.
Qed.

(** ** The executor on the books the program builds *)

(** X22. Every level of a book built by the program, on either side, has
    a positive quantity. *)
Theorem virtual_book_quantities_positive (graph : Graph)
    (baseCurrency quoteCurrency : string) :
  let book := buildVirtualOrderbook graph baseCurrency quoteCurrency in
  Forall (λ level, 0 < VirtualLevel.Amount level) (VirtualTradingPair.AskOrders book)
  ∧ Forall (λ level, 0 < VirtualLevel.Amount level) (VirtualTradingPair.BidOrders book).
Proof. apply buildVirtualOrderbook_positive. Qed.

Lemma fills_exact (levels : list VirtualLevel.t) (targetAmount : Q) :
  0 <= targetAmount →
  Forall (λ level, 0 <= VirtualLevel.Amount level) levels →
  totalAmount (findBestRouteFromVirtualOrderbook levels targetAmount).2
  == Qmin targetAmount (totalAmount levels).
Proof.
  intros Htarget Hlevels.
  destruct (fills_bounded levels targetAmount Htarget Hlevels) as (Hle & _ & Hall).
  set (fills := (findBestRouteFromVirtualOrderbook levels targetAmount).2) in *.
  destruct (Qlt_le_dec (totalAmount fills) targetAmount) as [Hshort|Hfull].
  - rewrite (Hall Hshort) in *.
    pose proof (Q.le_min_r targetAmount (totalAmount levels)). lra.
  - pose proof (Q.le_min_l targetAmount (totalAmount levels)). lra.
Qed.



(** * The first version *)

(** ** Graph builder *)

Lemma buildGraphStep_limited (graph : Graph) (pair : TradingPair.t) :
  buildGraphStep graph pair = V1.buildGraphStep graph (limitedPair pair).
Proof. done. Qed.

(** X24. The capped graph builder is the first version of the builder run
    on the input pairs cut to the cap; on pairs that have at most five
    levels on either side the two versions build the same graph. *)
Theorem buildGraph_is_uncapped_on_limited_pairs (pairs : list TradingPair.t) :
  buildGraph pairs = V1.buildGraph (map limitedPair pairs)
  ∧ (Forall (λ pair,
               (length (TradingPair.AskOrders pair) ≤ MAX_LEVELS_PER_PAIR)%nat
               ∧ (length (TradingPair.BidOrders pair) ≤ MAX_LEVELS_PER_PAIR)%nat) pairs →
     buildGraph pairs = V1.buildGraph pairs).
Proof.
  assert (Hfold : ∀ graph,
            fold_left buildGraphStep pairs graph
            = fold_left V1.buildGraphStep (map limitedPair pairs) graph).
  { induction pairs as [|pair rest IH]; intros graph; [done|].
    simpl. by rewrite <- IH. }
  split; [apply Hfold|].
  intros Hsmall. unfold buildGraph. rewrite Hfold. unfold V1.buildGraph. f_equal.
  clear Hfold. induction Hsmall as [|pair rest [Hasks Hbids] _ IH]; [done|].
  simpl. rewrite IH. f_equal.
  unfold limitedPair. rewrite !take_ge by done. by destruct pair.
Qed.

Lemma buildGraph_is_uncapped_on_limited_pairs_witness :
  buildGraph scenario1 = V1.buildGraph scenario1.
Proof.
  apply (proj2 (buildGraph_is_uncapped_on_limited_pairs scenario1)).
  unfold scenario1, MAX_LEVELS_PER_PAIR. repeat constructor; simpl; lia.
Defined.

(** ** Exchange sort *)

Lemma StronglySorted_snoc {A : Type} (R : A → A → Prop) (l : list A) (x : A) :
  StronglySorted R l → Forall (λ y, R y x) l → StronglySorted R (l ++ [x]).
Proof.
  induction 1 as [|y l Hl IH Hy]; intros Hall; simpl.
  - repeat constructor.
  - apply Forall_cons in Hall as [Hyx Hall]. constructor; [by apply IH|].
    apply Forall_app. split; [done|]. by apply Forall_singleton.
Qed.

Lemma StronglySorted_weaken {A : Type} (R R' : A → A → Prop) (l : list A) :
  (∀ x y, R x y → R' x y) → StronglySorted R l → StronglySorted R' l.
Proof.
  intros Himpl. induction 1 as [|x l Hl IH Hx]; constructor; [done|].
  eapply Forall_impl; [exact Hx|]. apply Himpl.
Qed.

Section ExchangeSort.

Context {A : Type}.
Variable shouldSwap : A → A → bool.

Hypothesis swapped_inOrder : ∀ x y, shouldSwap x y = true → shouldSwap y x = false.
Hypothesis inOrder_trans :
  ∀ x y z, shouldSwap x y = false → shouldSwap y z = false → shouldSwap x z = false.

Variable n : nat.

Lemma exchangeStep_invariant (start : list A) (i j : nat) (slice : list A) :
  (i < j < n)%nat →
  V1.innerInvariant shouldSwap n start i j slice →
  V1.innerInvariant shouldSwap n start i (S j) (V1.exchangeStep shouldSwap i j slice).
Proof.
  intros [Hij Hjn] (Hlength & Htake & Hperm & Hsmallest).
  destruct (lookup_lt_is_Some_2 slice i) as [first Hfirst]; [lia|].
  destruct (lookup_lt_is_Some_2 slice j) as [second Hsecond]; [lia|].
  unfold V1.exchangeStep. rewrite Hfirst, Hsecond.
  destruct (shouldSwap first second) eqn:Hswap.
  - split_and!.
    + by rewrite !length_insert.
    + by rewrite !take_insert_ge by lia.
    + by rewrite (Permutation_insert_swap slice i j first second).
    + intros k y Hk Hy. exists second. split.
      { rewrite list_lookup_insert_ne by lia.
        apply list_lookup_insert_eq. lia. }
      destruct (decide (k = j)) as [->|Hne].
      * rewrite list_lookup_insert_eq in Hy by (rewrite length_insert; lia).
        injection Hy as <-. by apply swapped_inOrder.
      * rewrite !list_lookup_insert_ne in Hy by lia.
        destruct (Hsmallest k y) as (x & Hx & Hxy); [lia|done|].
        rewrite Hfirst in Hx. injection Hx as <-.
        apply (inOrder_trans second first y); [by apply swapped_inOrder|done].
  - split_and!; try done.
    intros k y Hk Hy. exists first. split; [done|].
    destruct (decide (k = j)) as [->|Hne].
    + rewrite Hsecond in Hy. by injection Hy as <-.
    + destruct (Hsmallest k y) as (x & Hx & Hxy); [lia|done|].
      rewrite Hfirst in Hx. by injection Hx as <-.
Qed.

Lemma exchangeInner_fold (start : list A) (i : nat) (count j : nat) (slice : list A) :
  (i < j)%nat → (j + count = n)%nat →
  V1.innerInvariant shouldSwap n start i j slice →
  V1.innerInvariant shouldSwap n start i n
    (fold_left (λ slice j, V1.exchangeStep shouldSwap i j slice) (seq j count) slice).
Proof.
  revert j slice. induction count as [|count IH]; intros j slice Hij Hn Hinv.
  - simpl. rewrite Nat.add_0_r in Hn. by subst j.
  - simpl. apply IH; [lia|lia|]. apply exchangeStep_invariant; [lia|done].
Qed.

(** After the inner loop the element at [i] may stay before every later
    one; the slice before [i] is untouched. *)
Lemma exchangeInner_invariant (i : nat) (slice : list A) :
  (i < n)%nat → length slice = n →
  V1.innerInvariant shouldSwap n slice i n (V1.exchangeInner shouldSwap n i slice).
Proof.
  intros Hi Hlength. unfold V1.exchangeInner.
  apply exchangeInner_fold; [lia|lia|].
  split_and!; try done. intros k y Hk. lia.
Qed.

Lemma exchangeOuter_step (start : list A) (i : nat) (slice : list A) :
  (i < n)%nat →
  V1.outerInvariant shouldSwap n start i slice →
  V1.outerInvariant shouldSwap n start (S i) (V1.exchangeInner shouldSwap n i slice).
Proof.
  intros Hi (Hlength & Hperm & Hsorted & Hsplit).
  destruct (exchangeInner_invariant i slice Hi Hlength)
    as (Hlength' & Htake & Hperm' & Hsmallest).
  set (slice' := V1.exchangeInner shouldSwap n i slice) in *.
  assert (Hdrop : drop i slice' ≡ₚ drop i slice).
  { apply (Permutation_app_inv_l (take i slice)).
    rewrite <- Htake at 1. by rewrite !take_drop. }
  destruct (lookup_lt_is_Some_2 slice' i) as [smallest Hsmallest_at]; [lia|].
  assert (Hin : smallest ∈ drop i slice).
  { rewrite <- Hdrop. apply list_elem_of_lookup. exists 0%nat.
    by rewrite lookup_drop, Nat.add_0_r. }
  assert (Hlater : ∀ y, y ∈ drop (S i) slice' → shouldSwap smallest y = false).
  { intros y Hy. apply list_elem_of_lookup in Hy as [k Hk].
    rewrite lookup_drop in Hk.
    destruct (Hsmallest (S i + k)%nat y) as (x & Hx & Hxy); [|done|].
    - apply lookup_lt_Some in Hk. lia.
    - rewrite Hsmallest_at in Hx. by injection Hx as <-. }
  split_and!.
  - done.
  - by rewrite Hperm'.
  - rewrite (take_S_r slice' i smallest Hsmallest_at), Htake.
    apply StronglySorted_snoc; [done|].
    apply Forall_forall. intros x Hx. by apply Hsplit.
  - intros x y Hx Hy.
    rewrite (take_S_r slice' i smallest Hsmallest_at), Htake in Hx.
    apply elem_of_app in Hx as [Hx|Hx].
    + apply Hsplit; [done|]. rewrite <- Hdrop.
      rewrite (drop_S slice' smallest i Hsmallest_at). by right.
    + apply list_elem_of_singleton in Hx as ->. by apply Hlater.
Qed.

Lemma exchangeOuter_fold (start : list A) (count i : nat) (slice : list A) :
  (i + count < n)%nat ∨ count = 0%nat →
  V1.outerInvariant shouldSwap n start i slice →
  V1.outerInvariant shouldSwap n start (i + count)
    (fold_left (λ slice i, V1.exchangeInner shouldSwap n i slice) (seq i count) slice).
Proof.
  revert i slice. induction count as [|count IH]; intros i slice Hn Hinv.
  - simpl. by rewrite Nat.add_0_r.
  - simpl. replace (i + S count)%nat with (S i + count)%nat by lia.
    apply IH; [lia|]. apply exchangeOuter_step; [lia|done].
Qed.

End ExchangeSort.

(** The slice comes out rearranged and in order. *)
Lemma exchangeSort_sorted {A : Type} (shouldSwap : A → A → bool) (slice : list A) :
  (∀ x y, shouldSwap x y = true → shouldSwap y x = false) →
  (∀ x y z, shouldSwap x y = false → shouldSwap y z = false → shouldSwap x z = false) →
  V1.exchangeSort shouldSwap slice ≡ₚ slice
  ∧ StronglySorted (λ x y, shouldSwap x y = false) (V1.exchangeSort shouldSwap slice).
Proof.
  intros Hswapped Htrans. unfold V1.exchangeSort.
  destruct (exchangeOuter_fold shouldSwap Hswapped Htrans (length slice) slice
              (length slice - 1) 0 slice) as (Hlength & Hperm & Hsorted & Hsplit).
  { destruct slice; simpl; lia. }
  { split_and!; try done; [constructor|]. intros x y Hx. by apply elem_of_nil in Hx. }
  simpl in Hsorted, Hsplit.
  set (sorted := fold_left _ _ slice) in *.
  split; [done|].
  rewrite <- (take_drop (length slice - 1) sorted).
  destruct (drop (length slice - 1) sorted) as [|last rest] eqn:Hdrop.
  { by rewrite app_nil_r. }
  assert (Hrest : rest = []).
  { apply (f_equal length) in Hdrop. rewrite length_drop in Hdrop.
    simpl in Hdrop. apply nil_length_inv. lia. }
  subst rest. apply StronglySorted_snoc; [done|].
  apply Forall_forall. intros x Hx. apply Hsplit; [done|]. by left.
Qed.


(** X25. The hand-written sort of the virtual levels rearranges the
    slice and leaves it in order of price: ascending on the ask side,
    descending on the bid side. *)
Theorem V1_sortVirtualLevels_sorts (levels : list VirtualLevel.t) (isAsk : bool) :
  V1.sortVirtualLevels levels isAsk ≡ₚ levels
  ∧ StronglySorted (byPrice (bestFirst isAsk)) (V1.sortVirtualLevels levels isAsk).
Proof.
  unfold V1.sortVirtualLevels, byPrice, bestFirst. destruct isAsk.
  - destruct (exchangeSort_sorted
                (λ first second,
                   Qltb (VirtualLevel.Price second) (VirtualLevel.Price first)) levels)
      as [Hperm Hsorted].
    + intros x y. rewrite Qltb_lt, Qltb_ge. apply Qlt_le_weak.
    + intros x y z. rewrite !Qltb_ge. apply Qle_trans.
    + split; [done|]. eapply StronglySorted_weaken; [|exact Hsorted].
      intros x y. by rewrite Qltb_ge.
  - destruct (exchangeSort_sorted
                (λ first second,
                   Qltb (VirtualLevel.Price first) (VirtualLevel.Price second)) levels)
      as [Hperm Hsorted].
    + intros x y. rewrite Qltb_lt, Qltb_ge. apply Qlt_le_weak.
    + intros x y z. rewrite !Qltb_ge. intros Hxy Hyz. by apply Qle_trans with (y := VirtualLevel.Price y).
    + split; [done|]. eapply StronglySorted_weaken; [|exact Hsorted].
      intros x y. by rewrite Qltb_ge.
Qed.

(** X26. The hand-written sort of the route candidates rearranges the
    slice and leaves it in order of final price: ascending for asks,
    descending for bids. *)
Theorem V1_sortCandidatesByPrice_sorts (candidates : list RouteCandidate.t)
    (isAsk : bool) :
  V1.sortCandidatesByPrice candidates isAsk ≡ₚ candidates
  ∧ StronglySorted
      (λ a b, bestFirst isAsk (RouteCandidate.finalPrice a) (RouteCandidate.finalPrice b))
      (V1.sortCandidatesByPrice candidates isAsk).
Proof.
  unfold V1.sortCandidatesByPrice, bestFirst.
  destruct (exchangeSort_sorted
              (λ ci cj,
                 if isAsk
                 then Qltb (RouteCandidate.finalPrice cj) (RouteCandidate.finalPrice ci)
                 else Qltb (RouteCandidate.finalPrice ci) (RouteCandidate.finalPrice cj))
              candidates) as [Hperm Hsorted].
  - intros x y. destruct isAsk; rewrite Qltb_lt, Qltb_ge; apply Qlt_le_weak.
  - intros x y z. destruct isAsk; rewrite !Qltb_ge; intros Hxy Hyz.
    + by apply Qle_trans with (y := RouteCandidate.finalPrice y).
    + by apply Qle_trans with (y := RouteCandidate.finalPrice y).
  - split; [done|]. eapply StronglySorted_weaken; [|exact Hsorted].
    intros x y. destruct isAsk; by rewrite Qltb_ge.
Qed.

(** ** Executor *)

Lemma V1_executeLevels (isAsk : bool) (levels : list VirtualLevel.t)
    (remainingAmount totalCost executedAmount : Q) (bestRoute : list VirtualLevel.t) :
  V1.executeLevels isAsk levels
    (V1.Exec.mk remainingAmount totalCost executedAmount (map V1.fillOf bestRoute))
  = let state :=
      executeLevels levels
        (Exec.mk remainingAmount totalCost executedAmount bestRoute) in
    V1.Exec.mk (Exec.remainingAmount state) (Exec.totalCost state)
      (Exec.executedAmount state) (map V1.fillOf (Exec.bestRoute state)).
Proof.
  revert remainingAmount totalCost executedAmount bestRoute.
  induction levels as [|level rest IH];
    intros remainingAmount totalCost executedAmount bestRoute; [done|].
  simpl. destruct (Qle_bool remainingAmount 0); [done|].
  rewrite <- IH. rewrite map_app. by destruct isAsk.
Qed.

(** X27. The executor of the first version returns, on either side, the
    fills of the depth-limited version: the side it is given makes no
    difference to the walk over the levels. *)
Theorem V1_executor_agrees (virtualPair : VirtualTradingPair.t) (targetAmount : Q) :
  V1.executeOnVirtualOrderbook virtualPair targetAmount
  = (map V1.fillOf
       (findBestRouteFromVirtualOrderbook
          (VirtualTradingPair.AskOrders virtualPair) targetAmount).2,
     map V1.fillOf
       (findBestRouteFromVirtualOrderbook
          (VirtualTradingPair.BidOrders virtualPair) targetAmount).2).
Proof.
  assert (Hside : ∀ isAsk levels,
            V1.findBestRouteFromVirtualOrderbook levels targetAmount isAsk
            = map V1.fillOf (findBestRouteFromVirtualOrderbook levels targetAmount).2).
  { intros isAsk levels. rewrite findBestRoute_fills.
    destruct levels as [|level rest]; [done|].
    unfold V1.findBestRouteFromVirtualOrderbook.
    exact (f_equal V1.Exec.bestRoute
             (V1_executeLevels isAsk (level :: rest) targetAmount 0 0 [])). }
  unfold V1.executeOnVirtualOrderbook. by rewrite !Hside.
Qed.

(** ** Routes of the finished book *)

(** X28. The routes of the finished book are simple and short: a route
    repeats no currency and has between two and five currencies; a bid runs
    from the base to the quote currency, an ask from the quote to the base
    currency. *)
Theorem virtual_book_routes_are_simple (graph : Graph)
    (baseCurrency quoteCurrency : string) :
  let book := buildVirtualOrderbook graph baseCurrency quoteCurrency in
  Forall (λ level,
            NoDup (VirtualLevel.Route level)
            ∧ (2 ≤ length (VirtualLevel.Route level) ≤ 5)%nat
            ∧ head (VirtualLevel.Route level) = Some quoteCurrency
            ∧ last (VirtualLevel.Route level) = Some baseCurrency)
    (VirtualTradingPair.AskOrders book)
  ∧ Forall (λ level,
              NoDup (VirtualLevel.Route level)
              ∧ (2 ≤ length (VirtualLevel.Route level) ≤ 5)%nat
              ∧ head (VirtualLevel.Route level) = Some baseCurrency
              ∧ last (VirtualLevel.Route level) = Some quoteCurrency)
      (VirtualTradingPair.BidOrders book).
Proof.
  cbv zeta. rewrite buildVirtualOrderbook_sides. simpl.
  pose proof (findAllPaths_simple graph baseCurrency quoteCurrency MAX_PATH_DEPTH)
    as Hsimple.
  rewrite Forall_forall in Hsimple. split.
  - eapply Forall_impl; [apply (book_side_shape graph _ true)|].
    intros level [_ (path & Hpath & ->)].
    destruct (Hsimple path Hpath) as (Hlong & Hnodup & Hhead & Hlast & Hdepth & _).
    unfold MAX_PATH_DEPTH in Hdepth.
    rewrite length_reverse, head_reverse, last_reverse.
    split_and!; try done; try lia.
    by apply (NoDup_Permutation_proper _ _ (reverse_Permutation path)).
  - eapply Forall_impl; [apply (book_side_shape graph _ false)|].
    intros level [_ (path & Hpath & ->)].
    destruct (Hsimple path Hpath) as (Hlong & Hnodup & Hhead & Hlast & Hdepth & _).
    unfold MAX_PATH_DEPTH in Hdepth.
    split_and!; try done; lia.
Qed.

(** * The merge pass on the bid side *)

(** C6. The claim asks for the route and the per-hop prices of the first
    level of a merged run; the merge pass breaks it on the bid side.  For
    the pairs A/B, A/C and C/B of [closeBidPairs] the sorted bids of the
    request A/B are the direct bid at [2], with the route A -> B and the
    per-hop price [2], followed by the bid through C at [1.999999999]; they
    are within the tolerance, and the book holds one merged bid that
    carries the three-currency route A -> C -> B of the second level next
    to the single per-hop price of the first. *)
Theorem merged_bid_route_disagrees_with_prices :
  let graph := buildGraph closeBidPairs in
  let sorted :=
    sortVirtualLevels
      (concat (map (λ path, calculateOrdersFromPath graph path false)
                 (findAllPaths graph "A" "B" MAX_PATH_DEPTH))) false in
  ∃ first second merged,
    sorted = [first; second]
    ∧ withinTolerance first second
    ∧ VirtualLevel.Route first = ["A"; "B"]
    ∧ VirtualLevel.LevelPrices first = [2]
    ∧ VirtualTradingPair.BidOrders (buildVirtualOrderbook graph "A" "B") = [merged]
    ∧ VirtualLevel.Route merged = ["A"; "C"; "B"]
    ∧ VirtualLevel.LevelPrices merged = [2]
    ∧ ¬ pricedPerHop merged.
Proof.
  cbv zeta. eexists _, _, _. split_and!.
  - vm_compute. reflexivity.
  - vm_compute. reflexivity.
  - reflexivity.
  - reflexivity.
  - vm_compute. reflexivity.
  - reflexivity.
  - reflexivity.
  - unfold pricedPerHop. simpl. discriminate.
Qed.

(** * Rounding of [float64] *)

(** ** Powers of two *)

Lemma pow2_pos (e : Z) : 0 < pow2 e.
Proof. apply Qpower_0_lt. reflexivity. Qed.

Lemma pow2_add (a b : Z) : pow2 (a + b) == pow2 a * pow2 b.
Proof. apply Qpower_plus. discriminate. Qed.

Lemma pow2_Z (k : Z) : (0 ≤ k)%Z → inject_Z (2 ^ k) == pow2 k.
Proof. intros Hk. by apply Zpower_Qpower. Qed.

Lemma pow2_le (a b : Z) : (a ≤ b)%Z → pow2 a <= pow2 b.
Proof. intros Hab. apply Qpower_le_compat_l; [done|]. discriminate. Qed.

Lemma pow2_lt (a b : Z) : (a < b)%Z → pow2 a < pow2 b.
Proof. intros Hab. apply Qpower_lt_compat_l; [done|]. reflexivity. Qed.

Lemma pow2_lt_inv (a b : Z) : pow2 a < pow2 b → (a < b)%Z.
Proof. intros Hab. eapply Qpower_lt_compat_l_inv; [exact Hab|]. reflexivity. Qed.

Lemma pow2_succ (a : Z) : pow2 (a + 1) == 2 * pow2 a.
Proof. rewrite pow2_add. unfold pow2 at 2. simpl. ring. Qed.

(** ** Number of digits *)

Lemma digits2_size (p : positive) : SpecFloat.digits2_pos p = Pos.size p.
Proof. induction p as [p IH|p IH|]; simpl; by rewrite ?IH. Qed.

Lemma digits_bounds (p : positive) :
  (2 ^ (Zpos (SpecFloat.digits2_pos p) - 1) ≤ Zpos p
   < 2 ^ Zpos (SpecFloat.digits2_pos p))%Z.
Proof.
  rewrite digits2_size.
  pose proof (Pos.size_gt p) as Hgt. pose proof (Pos.size_le p) as Hle.
  apply Pos2Z.pos_lt_pos in Hgt. apply Pos2Z.pos_le_pos in Hle.
  rewrite Pos2Z.inj_pow in Hgt, Hle.
  change (Zpos p~0) with (2 * Zpos p)%Z in Hle.
  split; [|done].
  replace (Zpos (Pos.size p)) with (Z.succ (Zpos (Pos.size p) - 1)) in Hle by lia.
  rewrite Z.pow_succ_r in Hle by lia. lia.
Qed.

Lemma digits_unique (p : positive) (d : Z) :
  (2 ^ (d - 1) ≤ Zpos p < 2 ^ d)%Z → Zpos (SpecFloat.digits2_pos p) = d.
Proof.
  intros [Hlo Hhi]. pose proof (digits_bounds p) as [Hlo' Hhi'].
  assert (Hd : (0 < d)%Z).
  { destruct (Z.lt_trichotomy d 0) as [Hneg|[->|Hpos]]; [| |done].
    - rewrite Z.pow_neg_r in Hhi by done. lia.
    - simpl in Hhi. lia. }
  destruct (Z.lt_trichotomy (Zpos (SpecFloat.digits2_pos p)) d) as [Hlt|[Heq|Hgt]];
    [|done|].
  - assert (2 ^ Zpos (SpecFloat.digits2_pos p) ≤ 2 ^ (d - 1))%Z
      by (apply Z.pow_le_mono_r; lia). lia.
  - assert (2 ^ d ≤ 2 ^ (Zpos (SpecFloat.digits2_pos p) - 1))%Z
      by (apply Z.pow_le_mono_r; lia). lia.
Qed.

(** ** Shifting the mantissa right *)

Lemma shr_1_m (mrs : SpecFloat.shr_record) :
  (0 ≤ SpecFloat.shr_m mrs)%Z →
  SpecFloat.shr_m (SpecFloat.shr_1 mrs) = (SpecFloat.shr_m mrs / 2)%Z.
Proof.
  destruct mrs as [m r s]. simpl. intros Hm.
  destruct m as [|[p|p|]|p]; simpl; try done.
  - change (Zpos p~1) with (2 * Zpos p + 1)%Z. apply Z.div_unique with 1%Z; lia.
  - change (Zpos p~0) with (2 * Zpos p)%Z. apply Z.div_unique with 0%Z; lia.
Qed.

Lemma iter_shr_m (p : positive) (mrs : SpecFloat.shr_record) :
  (0 ≤ SpecFloat.shr_m mrs)%Z →
  SpecFloat.shr_m (SpecFloat.iter_pos SpecFloat.shr_1 p mrs)
  = (SpecFloat.shr_m mrs / 2 ^ Zpos p)%Z.
Proof.
  revert mrs. induction p as [p IH|p IH|]; intros mrs Hm; simpl SpecFloat.iter_pos.
  - assert (H1 : (0 ≤ SpecFloat.shr_m (SpecFloat.shr_1 mrs))%Z).
    { rewrite shr_1_m by done. by apply Z.div_pos. }
    assert (H2 : (0 ≤ SpecFloat.shr_m
                        (SpecFloat.iter_pos SpecFloat.shr_1 p (SpecFloat.shr_1 mrs)))%Z).
    { rewrite IH by done. apply Z.div_pos; [done|]. by apply Z.pow_pos_nonneg. }
    rewrite IH, IH, shr_1_m by done.
    rewrite !Z.div_div by (try apply Z.pow_pos_nonneg; lia).
    f_equal. change (Zpos p~1) with (2 * Zpos p + 1)%Z.
    replace (2 * Zpos p + 1)%Z with (1 + Zpos p + Zpos p)%Z by lia.
    rewrite !Z.pow_add_r by lia. simpl (2 ^ 1)%Z. lia.
  - assert (H2 : (0 ≤ SpecFloat.shr_m (SpecFloat.iter_pos SpecFloat.shr_1 p mrs))%Z).
    { rewrite IH by done. apply Z.div_pos; [done|]. by apply Z.pow_pos_nonneg. }
    rewrite IH, IH by done.
    rewrite !Z.div_div by (try apply Z.pow_pos_nonneg; lia).
    f_equal. change (Zpos p~0) with (2 * Zpos p)%Z.
    replace (2 * Zpos p)%Z with (Zpos p + Zpos p)%Z by lia.
    by rewrite !Z.pow_add_r by lia.
  - by apply shr_1_m.
Qed.

Lemma shr_record_of_loc_m (m : Z) (l : SpecFloat.location) :
  SpecFloat.shr_m (SpecFloat.shr_record_of_loc m l) = m.
Proof. by destruct l as [|[]]. Qed.

(** [shr] by [n] bits, whatever the location: the mantissa is divided by
    [2^n] and the exponent grows by [n]; nothing happens for [n <= 0]. *)
Lemma shr_m_e (m : Z) (l : SpecFloat.location) (e n : Z) :
  (0 ≤ m)%Z →
  SpecFloat.shr_m (SpecFloat.shr (SpecFloat.shr_record_of_loc m l) e n).1
  = (m / 2 ^ Z.max n 0)%Z
  ∧ (SpecFloat.shr (SpecFloat.shr_record_of_loc m l) e n).2 = (e + Z.max n 0)%Z.
Proof.
  intros Hm. unfold SpecFloat.shr. destruct n as [|p|p]; simpl.
  - rewrite shr_record_of_loc_m, Z.div_1_r. split; [done|lia].
  - rewrite iter_shr_m by (by rewrite shr_record_of_loc_m).
    by rewrite shr_record_of_loc_m.
  - rewrite shr_record_of_loc_m, Z.div_1_r. split; [done|lia].
Qed.

Lemma round_nearest_even_cases (m : Z) (l : SpecFloat.location) :
  SpecFloat.round_nearest_even m l = m
  ∨ SpecFloat.round_nearest_even m l = (m + 1)%Z.
Proof.
  destruct l as [|[]]; simpl; auto. destruct (Z.even m); auto.
Qed.

(** ** Rounding a mantissa to 53 digits *)

Lemma fexp_normal (k : Z) :
  (-1021 ≤ k)%Z → SpecFloat.fexp FloatOps.prec FloatOps.emax k = (k - 53)%Z.
Proof.
  intros Hk. unfold SpecFloat.fexp, SpecFloat.emin, FloatOps.prec, FloatOps.emax. lia.
Qed.

Lemma shr_fexp_normal (p : positive) (e : Z) (l : SpecFloat.location) :
  (-1021 ≤ Zpos (SpecFloat.digits2_pos p) + e)%Z →
  SpecFloat.shr_m (SpecFloat.shr_fexp FloatOps.prec FloatOps.emax (Zpos p) e l).1
  = (Zpos p / 2 ^ Z.max (Zpos (SpecFloat.digits2_pos p) - 53) 0)%Z
  ∧ (SpecFloat.shr_fexp FloatOps.prec FloatOps.emax (Zpos p) e l).2
    = (e + Z.max (Zpos (SpecFloat.digits2_pos p) - 53) 0)%Z.
Proof.
  intros Hnormal. unfold SpecFloat.shr_fexp. simpl SpecFloat.Zdigits2.
  rewrite fexp_normal by done.
  replace (Zpos (SpecFloat.digits2_pos p) + e - 53 - e)%Z
    with (Zpos (SpecFloat.digits2_pos p) - 53)%Z by lia.
  by apply shr_m_e.
Qed.

(** A mantissa of at least 53 digits in the normal range is rounded to a
    number with 53 digits, which stands for the mantissa cut to 53 digits
    or for the next one. *)
Lemma binary_round_aux_normal (s : bool) (p : positive) (e : Z) (l : SpecFloat.location) :
  (53 ≤ Zpos (SpecFloat.digits2_pos p))%Z →
  (-1021 ≤ Zpos (SpecFloat.digits2_pos p) + e ≤ 1023)%Z →
  ∃ (mr : positive) (er M : Z),
    SpecFloat.binary_round_aux FloatOps.prec FloatOps.emax s (Zpos p) e l
    = SpecFloat.S754_finite s mr er
    ∧ Zpos (SpecFloat.digits2_pos mr) = 53%Z
    ∧ (M = Zpos p / 2 ^ (Zpos (SpecFloat.digits2_pos p) - 53)
       ∨ M = Zpos p / 2 ^ (Zpos (SpecFloat.digits2_pos p) - 53) + 1)%Z
    ∧ inject_Z (Zpos mr) * pow2 er
      == inject_Z M * pow2 (e + (Zpos (SpecFloat.digits2_pos p) - 53)).
Proof.
  intros Hdigits Hrange.
  set (d := Zpos (SpecFloat.digits2_pos p)) in *.
  pose proof (digits_bounds p) as [Hlo Hhi]. fold d in Hlo, Hhi.
  set (n := (d - 53)%Z).
  assert (Hpow : (0 < 2 ^ n)%Z) by (apply Z.pow_pos_nonneg; lia).
  set (m1 := (Zpos p / 2 ^ n)%Z).
  assert (Hm1 : (2 ^ 52 ≤ m1 < 2 ^ 53)%Z).
  { unfold m1. split.
    - apply Z.div_le_lower_bound; [done|].
      rewrite <- Z.pow_add_r by lia. replace (n + 52)%Z with (d - 1)%Z by lia. done.
    - apply Z.div_lt_upper_bound; [done|].
      rewrite <- Z.pow_add_r by lia. replace (n + 53)%Z with d by lia. done. }
  unfold SpecFloat.binary_round_aux.
  destruct (shr_fexp_normal p e l) as [Hm He]; [fold d; lia|]. fold d in Hm, He.
  rewrite Z.max_l in Hm, He by lia. fold n in Hm, He. fold m1 in Hm.
  destruct (SpecFloat.shr_fexp FloatOps.prec FloatOps.emax (Zpos p) e l)
    as [mrs' e'] eqn:Hfirst.
  simpl in Hm, He. rewrite Hm. subst e'.
  set (m2 := SpecFloat.round_nearest_even m1 (SpecFloat.loc_of_shr_record mrs')).
  assert (Hm2 : m2 = m1 ∨ m2 = (m1 + 1)%Z) by apply round_nearest_even_cases.
  assert (Hpos : (0 < m2)%Z) by lia.
  destruct m2 as [|q|q] eqn:Hq; [lia| |lia].
  destruct (decide (Zpos q < 2 ^ 53)%Z) as [Hsmall|Hcarry].
  - assert (Hdq : Zpos (SpecFloat.digits2_pos q) = 53%Z).
    { apply digits_unique. simpl (53 - 1)%Z. lia. }
    destruct (shr_fexp_normal q (e + n) SpecFloat.loc_Exact) as [Hm' He'];
      [rewrite Hdq; lia|].
    rewrite Hdq in Hm', He'.
    change (Z.max (53 - 53) 0) with 0%Z in Hm', He'.
    change (2 ^ 0)%Z with 1%Z in Hm'.
    rewrite Z.div_1_r in Hm'. rewrite Z.add_0_r in He'.
    destruct (SpecFloat.shr_fexp FloatOps.prec FloatOps.emax (Zpos q) (e + n)
                SpecFloat.loc_Exact) as [mrs'' e''] eqn:Hsecond.
    simpl in Hm', He'. rewrite Hm'. subst e''.
    assert (Hfits : (e + n <=? FloatOps.emax - FloatOps.prec)%Z = true).
    { apply Z.leb_le. unfold FloatOps.emax, FloatOps.prec. lia. }
    rewrite Hfits.
    exists q, (e + n)%Z, (Zpos q). split_and!; [done|done|lia|done].
  - assert (Hq53 : Zpos q = (2 ^ 53)%Z) by lia.
    assert (Hdq : Zpos (SpecFloat.digits2_pos q) = 54%Z).
    { apply digits_unique. rewrite Hq53. simpl (54 - 1)%Z. split; [lia|].
      apply Z.pow_lt_mono_r; lia. }
    destruct (shr_fexp_normal q (e + n) SpecFloat.loc_Exact) as [Hm' He'];
      [rewrite Hdq; lia|].
    rewrite Hdq in Hm', He'.
    change (Z.max (54 - 53) 0) with 1%Z in Hm', He'.
    destruct (SpecFloat.shr_fexp FloatOps.prec FloatOps.emax (Zpos q) (e + n)
                SpecFloat.loc_Exact) as [mrs'' e''] eqn:Hsecond.
    simpl in Hm', He'. rewrite Hm'. subst e''.
    rewrite Hq53. change (2 ^ 53 / 2 ^ 1)%Z with (Zpos (2 ^ 52)%positive).
    assert (Hfits : (e + n + 1 <=? FloatOps.emax - FloatOps.prec)%Z = true).
    { apply Z.leb_le. unfold FloatOps.emax, FloatOps.prec. lia. }
    rewrite Hfits.
    exists (2 ^ 52)%positive, (e + n + 1)%Z, (Zpos q).
    split_and!; [done|done|lia|].
    rewrite Hq53, pow2_succ.
    change (inject_Z (Zpos (2 ^ 52)%positive)) with (inject_Z (2 ^ 52)).
    assert (Hdouble : inject_Z (2 ^ 53) == 2 * inject_Z (2 ^ 52)) by reflexivity.
    rewrite Hdouble. ring.
Qed.

Lemma Qabs_le_iff (x y : Q) : Qabs x <= y ↔ - y <= x ∧ x <= y.
Proof. apply Qabs_Qle_condition. Qed.

(** The rounding error, crudely: when the mantissa and the exponent
    locate a positive real, the rounded number is within [2^-52] of it,
    relatively. *)
Lemma binary_round_aux_close (s : bool) (p : positive) (e : Z)
    (l : SpecFloat.location) (v : Q) :
  (53 ≤ Zpos (SpecFloat.digits2_pos p))%Z →
  (-1021 ≤ Zpos (SpecFloat.digits2_pos p) + e ≤ 1023)%Z →
  inject_Z (Zpos p) * pow2 e <= v →
  v <= inject_Z (Zpos p + 1) * pow2 e →
  ∃ (mr : positive) (er : Z),
    SpecFloat.binary_round_aux FloatOps.prec FloatOps.emax s (Zpos p) e l
    = SpecFloat.S754_finite s mr er
    ∧ Zpos (SpecFloat.digits2_pos mr) = 53%Z
    ∧ Qabs (inject_Z (Zpos mr) * pow2 er - v) <= pow2 (-52) * v.
Proof.
  intros Hdigits Hrange Hlo Hhi.
  destruct (binary_round_aux_normal s p e l Hdigits Hrange)
    as (mr & er & M & Hround & Hmr & HM & Hvalue).
  exists mr, er. split_and!; [done|done|]. rewrite Hvalue. clear Hround Hmr Hvalue.
  set (d := Zpos (SpecFloat.digits2_pos p)) in *.
  pose proof (digits_bounds p) as [Hdlo Hdhi]. fold d in Hdlo, Hdhi.
  set (n := (d - 53)%Z) in *.
  assert (Hn : (0 ≤ n)%Z) by (unfold n; lia).
  assert (Hpow : (0 < 2 ^ n)%Z) by (by apply Z.pow_pos_nonneg).
  set (m1 := (Zpos p / 2 ^ n)%Z) in *.
  assert (Hbelow : (m1 * 2 ^ n ≤ Zpos p)%Z).
  { unfold m1. rewrite Z.mul_comm. by apply Z.mul_div_le. }
  assert (Habove : (Zpos p + 1 ≤ (m1 + 1) * 2 ^ n)%Z).
  { unfold m1. pose proof (Z.mul_succ_div_gt (Zpos p) (2 ^ n) Hpow). lia. }
  assert (Hm1 : (2 ^ 52 ≤ m1)%Z).
  { unfold m1. apply Z.div_le_lower_bound; [done|].
    rewrite <- Z.pow_add_r by lia. replace (n + 52)%Z with (d - 1)%Z by (unfold n; lia).
    done. }
  set (a := pow2 (e + n)).
  assert (Ha : 0 < a) by apply pow2_pos.
  assert (Hscale : ∀ k : Z, inject_Z (k * 2 ^ n) * pow2 e == inject_Z k * a).
  { intros k. unfold a. rewrite inject_Z_mult, pow2_Z, pow2_add by done. ring. }
  assert (Hlo' : inject_Z m1 * a <= v).
  { rewrite <- Hscale. eapply Qle_trans; [|exact Hlo].
    apply Qmult_le_compat_r; [|apply Qlt_le_weak, pow2_pos].
    rewrite <- Zle_Qle. done. }
  assert (Hhi' : v <= (inject_Z m1 + 1) * a).
  { change 1 with (inject_Z 1). rewrite <- inject_Z_plus, <- Hscale.
    eapply Qle_trans; [exact Hhi|].
    apply Qmult_le_compat_r; [|apply Qlt_le_weak, pow2_pos].
    rewrite <- Zle_Qle. done. }
  assert (Hbig : inject_Z (2 ^ 52) <= inject_Z m1) by (by rewrite <- Zle_Qle).
  assert (Hunit : pow2 (-52) * inject_Z (2 ^ 52) == 1) by reflexivity.
  assert (Hulp : a <= pow2 (-52) * v).
  { assert (H1 : pow2 (-52) * (inject_Z (2 ^ 52) * a) <= pow2 (-52) * v).
    { apply Qmult_le_l; [apply pow2_pos|].
      eapply Qle_trans; [|exact Hlo'].
      apply Qmult_le_compat_r; [done|by apply Qlt_le_weak]. }
    rewrite Qmult_assoc, Hunit in H1. lra. }
  apply Qabs_le_iff.
  destruct HM as [->| ->].
  - split; lra.
  - rewrite inject_Z_plus. change (inject_Z 1) with 1. split; lra.
Qed.

(** ** Mantissa, exponent and value *)

Lemma pow2_le_inv (a b : Z) : pow2 a <= pow2 b → (a ≤ b)%Z.
Proof. intros Hab. eapply Qpower_le_compat_l_inv; [exact Hab|]. reflexivity. Qed.

Lemma magnitude_bounds (p : positive) (e : Z) :
  pow2 (Zpos (SpecFloat.digits2_pos p) - 1 + e) <= inject_Z (Zpos p) * pow2 e
  ∧ inject_Z (Zpos p) * pow2 e < pow2 (Zpos (SpecFloat.digits2_pos p) + e).
Proof.
  pose proof (digits_bounds p) as [Hlo Hhi].
  rewrite !pow2_add.
  rewrite <- (pow2_Z (Zpos (SpecFloat.digits2_pos p) - 1)) by lia.
  rewrite <- (pow2_Z (Zpos (SpecFloat.digits2_pos p))) by lia. split.
  - apply Qmult_le_compat_r; [|apply Qlt_le_weak, pow2_pos]. by rewrite <- Zle_Qle.
  - apply Qmult_lt_compat_r; [apply pow2_pos|]. by rewrite <- Zlt_Qlt.
Qed.

Lemma magnitude_pos (p : positive) (e : Z) : 0 < inject_Z (Zpos p) * pow2 e.
Proof.
  apply Qmult_lt_0_compat; [|apply pow2_pos].
  change (inject_Z 0 < inject_Z (Zpos p)). by rewrite <- Zlt_Qlt.
Qed.

(** Where the magnitude lies decides the sum of digits and exponent. *)
Lemma digits_exponent (p : positive) (e a b : Z) :
  pow2 a <= inject_Z (Zpos p) * pow2 e →
  inject_Z (Zpos p) * pow2 e <= pow2 b →
  (a < Zpos (SpecFloat.digits2_pos p) + e ≤ b + 1)%Z.
Proof.
  intros Hlo Hhi. destruct (magnitude_bounds p e) as [Hlo' Hhi']. split.
  - apply pow2_lt_inv. eapply Qle_lt_trans; [exact Hlo|exact Hhi'].
  - assert (Zpos (SpecFloat.digits2_pos p) - 1 + e ≤ b)%Z; [|lia].
    apply pow2_le_inv. eapply Qle_trans; [exact Hlo'|exact Hhi].
Qed.

(** A number of the format that is not too small has all its 53 digits. *)
Lemma normal_digits (x : float) (s : bool) (m : positive) (e : Z) :
  FloatOps.Prim2SF x = SpecFloat.S754_finite s m e →
  pow2 (-1021) <= inject_Z (Zpos m) * pow2 e →
  Zpos (SpecFloat.digits2_pos m) = 53%Z.
Proof.
  intros Hx Hlo. pose proof (FloatAxioms.Prim2SF_valid x) as Hvalid.
  rewrite Hx in Hvalid. unfold SpecFloat.valid_binary, SpecFloat.bounded in Hvalid.
  apply andb_true_iff in Hvalid as [Hcanonical _].
  unfold SpecFloat.canonical_mantissa in Hcanonical. apply Z.eqb_eq in Hcanonical.
  destruct (magnitude_bounds m e) as [_ Hhi].
  assert (Hsum : (-1021 < Zpos (SpecFloat.digits2_pos m) + e)%Z).
  { apply pow2_lt_inv. eapply Qle_lt_trans; [exact Hlo|exact Hhi]. }
  rewrite fexp_normal in Hcanonical by lia. lia.
Qed.

Lemma valueOf_finite (x : float) (s : bool) (m : positive) (e : Z) :
  FloatOps.Prim2SF x = SpecFloat.S754_finite s m e →
  valueOf x = (if s then - inject_Z (Zpos m) else inject_Z (Zpos m)) * pow2 e.
Proof. intros Hx. unfold valueOf. by rewrite Hx. Qed.

Lemma Qabs_valueOf (x : float) (s : bool) (m : positive) (e : Z) :
  FloatOps.Prim2SF x = SpecFloat.S754_finite s m e →
  Qabs (valueOf x) == inject_Z (Zpos m) * pow2 e.
Proof.
  intros Hx. rewrite (valueOf_finite x s m e Hx).
  pose proof (magnitude_pos m e) as Hpos. destruct s.
  - assert (Hopp : - inject_Z (Zpos m) * pow2 e == - (inject_Z (Zpos m) * pow2 e))
      by ring.
    rewrite Hopp, Qabs_opp. apply Qabs_pos. by apply Qlt_le_weak.
  - apply Qabs_pos. by apply Qlt_le_weak.
Qed.

(** A number that is not zero has a mantissa. *)
Lemma finite_nonzero (x : float) :
  isFinite x = true → ¬ valueOf x == 0 →
  ∃ s m e, FloatOps.Prim2SF x = SpecFloat.S754_finite s m e.
Proof.
  unfold isFinite, valueOf.
  destruct (FloatOps.Prim2SF x) as [s|s| |s m e]; simpl; intros Hfinite Hne.
  - exfalso. apply Hne. reflexivity.
  - done.
  - done.
  - by exists s, m, e.
Qed.

Lemma finite_positive (x : float) :
  isFinite x = true → 0 < valueOf x →
  ∃ m e, FloatOps.Prim2SF x = SpecFloat.S754_finite false m e.
Proof.
  intros Hfinite Hpos.
  destruct (finite_nonzero x Hfinite) as (s & m & e & Hx); [lra|].
  rewrite (valueOf_finite x s m e Hx) in Hpos.
  pose proof (magnitude_pos m e). destruct s; [lra|]. by exists m, e.
Qed.

Lemma finite_zero (x : float) :
  isFinite x = true → valueOf x == 0 →
  ∃ s, FloatOps.Prim2SF x = SpecFloat.S754_zero s.
Proof.
  unfold isFinite, valueOf.
  destruct (FloatOps.Prim2SF x) as [s|s| |s m e]; simpl; intros Hfinite Hzero.
  - by exists s.
  - done.
  - done.
  - pose proof (magnitude_pos m e). destruct s; lra.
Qed.

Lemma ltb_zero_positive (x : float) (m : positive) (e : Z) :
  FloatOps.Prim2SF x = SpecFloat.S754_finite false m e →
  PrimFloat.ltb PrimFloat.zero x = true.
Proof.
  intros Hx. rewrite FloatAxioms.ltb_spec, Hx. reflexivity.
Qed.

(** ** The two operations of [invertOrders] *)

Lemma full_digits_lower (p : positive) :
  Zpos (SpecFloat.digits2_pos p) = 53%Z → (2 ^ 52 ≤ Zpos p < 2 ^ 53)%Z.
Proof. intros Hd. pose proof (digits_bounds p) as H. by rewrite Hd in H. Qed.

Lemma digits_at_least (p : positive) (k : Z) :
  (0 ≤ k)%Z → (2 ^ k ≤ Zpos p)%Z → (k < Zpos (SpecFloat.digits2_pos p))%Z.
Proof.
  intros Hk Hp. pose proof (digits_bounds p) as [_ Hhi].
  destruct (Z.lt_ge_cases k (Zpos (SpecFloat.digits2_pos p))) as [|Hge]; [done|].
  assert (2 ^ Zpos (SpecFloat.digits2_pos p) ≤ 2 ^ k)%Z
    by (apply Z.pow_le_mono_r; lia).
  lia.
Qed.

(** [x * y]: in the normal range the product is a number again, with the
    sign of the exact product and within [2^-52] of it. *)
Lemma mul_close (x y : float) (sx sy : bool) (mx my : positive) (ex ey : Z) :
  FloatOps.Prim2SF x = SpecFloat.S754_finite sx mx ex →
  FloatOps.Prim2SF y = SpecFloat.S754_finite sy my ey →
  Zpos (SpecFloat.digits2_pos mx) = 53%Z →
  Zpos (SpecFloat.digits2_pos my) = 53%Z →
  pow2 (-1021) <= Qabs (valueOf x * valueOf y) →
  Qabs (valueOf x * valueOf y) <= pow2 1022 →
  ∃ (mr : positive) (er : Z),
    FloatOps.Prim2SF (PrimFloat.mul x y)
    = SpecFloat.S754_finite (xorb sx sy) mr er
    ∧ Zpos (SpecFloat.digits2_pos mr) = 53%Z
    ∧ Qabs (valueOf (PrimFloat.mul x y) - valueOf x * valueOf y)
      <= pow2 (-52) * Qabs (valueOf x * valueOf y).
Proof.
  intros Hx Hy Hdx Hdy Hlo Hhi.
  set (v := inject_Z (Zpos (mx * my)) * pow2 (ex + ey)).
  assert (Hv : Qabs (valueOf x * valueOf y) == v).
  { rewrite Qabs_Qmult, (Qabs_valueOf x sx mx ex Hx), (Qabs_valueOf y sy my ey Hy).
    unfold v. rewrite Pos2Z.inj_mul, inject_Z_mult, pow2_add. ring. }
  rewrite Hv in Hlo, Hhi.
  pose proof (full_digits_lower mx Hdx) as [Hmx _].
  pose proof (full_digits_lower my Hdy) as [Hmy _].
  assert (Hproduct : (2 ^ 104 ≤ Zpos (mx * my))%Z).
  { rewrite Pos2Z.inj_mul. change (2 ^ 104)%Z with (2 ^ 52 * 2 ^ 52)%Z.
    apply Z.mul_le_mono_nonneg; lia. }
  pose proof (digits_at_least (mx * my) 104 ltac:(lia) Hproduct) as Hdigits.
  pose proof (digits_exponent (mx * my) (ex + ey) (-1021) 1022 Hlo Hhi) as Hrange.
  destruct (binary_round_aux_close (xorb sx sy) (mx * my) (ex + ey)
              SpecFloat.loc_Exact v) as (mr & er & Hround & Hmr & Hclose).
  - lia.
  - lia.
  - unfold v. lra.
  - unfold v. apply Qmult_le_compat_r; [|apply Qlt_le_weak, pow2_pos].
    rewrite <- Zle_Qle. lia.
  - assert (Hresult : FloatOps.Prim2SF (PrimFloat.mul x y)
                      = SpecFloat.S754_finite (xorb sx sy) mr er).
    { rewrite FloatAxioms.mul_spec, Hx, Hy. exact Hround. }
    exists mr, er. split_and!; [done|done|].
    rewrite Hv. rewrite (valueOf_finite _ _ _ _ Hresult).
    rewrite (valueOf_finite x sx mx ex Hx), (valueOf_finite y sy my ey Hy).
    set (V := inject_Z (Zpos mr) * pow2 er) in *.
    assert (Hexact : inject_Z (Zpos mx) * pow2 ex * (inject_Z (Zpos my) * pow2 ey) == v).
    { unfold v. rewrite Pos2Z.inj_mul, inject_Z_mult, pow2_add. ring. }
    destruct sx, sy; simpl xorb; cbv iota.
    + assert (Heq : inject_Z (Zpos mr) * pow2 er
                    - - inject_Z (Zpos mx) * pow2 ex * (- inject_Z (Zpos my) * pow2 ey)
                    == V - v) by (rewrite <- Hexact; unfold V; ring).
      by rewrite Heq.
    + assert (Heq : - inject_Z (Zpos mr) * pow2 er
                    - - inject_Z (Zpos mx) * pow2 ex * (inject_Z (Zpos my) * pow2 ey)
                    == - (V - v)) by (rewrite <- Hexact; unfold V; ring).
      by rewrite Heq, Qabs_opp.
    + assert (Heq : - inject_Z (Zpos mr) * pow2 er
                    - inject_Z (Zpos mx) * pow2 ex * (- inject_Z (Zpos my) * pow2 ey)
                    == - (V - v)) by (rewrite <- Hexact; unfold V; ring).
      by rewrite Heq, Qabs_opp.
    + assert (Heq : inject_Z (Zpos mr) * pow2 er
                    - inject_Z (Zpos mx) * pow2 ex * (inject_Z (Zpos my) * pow2 ey)
                    == V - v) by (rewrite <- Hexact; unfold V; ring).
      by rewrite Heq.
Qed.

Lemma Prim2SF_one :
  FloatOps.Prim2SF PrimFloat.one = SpecFloat.S754_finite false (2 ^ 52)%positive (-52).
Proof. reflexivity. Qed.

(** The quotient and the exponent the division of [1.0] by a number with
    53 digits starts from. *)
Lemma SFdiv_core_one (mp : positive) (ep : Z) :
  Zpos (SpecFloat.digits2_pos mp) = 53%Z → (ep ≤ 969)%Z →
  ∃ l,
    SpecFloat.SFdiv_core_binary FloatOps.prec FloatOps.emax
      (Zpos (2 ^ 52)%positive) (-52) (Zpos mp) ep
    = ((2 ^ 105 / Zpos mp)%Z, (-105 - ep)%Z, l).
Proof.
  intros Hdigits Hep. unfold SpecFloat.SFdiv_core_binary.
  change (SpecFloat.Zdigits2 (Zpos (2 ^ 52)%positive)) with 53%Z.
  change (SpecFloat.Zdigits2 (Zpos mp)) with (Zpos (SpecFloat.digits2_pos mp)).
  rewrite Hdigits.
  replace (53 + -52 - (53 + ep))%Z with (-52 - ep)%Z by lia.
  rewrite fexp_normal by lia.
  rewrite Z.min_l by lia.
  replace (-52 - ep - (-52 - ep - 53))%Z with 53%Z by lia.
  change (Z.shiftl (Zpos (2 ^ 52)%positive) 53) with (2 ^ 105)%Z.
  unfold Z.div.
  destruct (Z.div_eucl (2 ^ 105) (Zpos mp)) as [q r].
  eexists. f_equal. f_equal. lia.
Qed.

(** [1.0 / p]: for a positive [p] of moderate size the quotient is a
    positive number again, and its product with [p] is within [2^-52] of
    one. *)
Lemma div_close (p : float) (mp : positive) (ep : Z) :
  FloatOps.Prim2SF p = SpecFloat.S754_finite false mp ep →
  Zpos (SpecFloat.digits2_pos mp) = 53%Z →
  pow2 (-1000) <= valueOf p → valueOf p <= pow2 1000 →
  ∃ (mr : positive) (er : Z),
    FloatOps.Prim2SF (PrimFloat.div PrimFloat.one p)
    = SpecFloat.S754_finite false mr er
    ∧ Zpos (SpecFloat.digits2_pos mr) = 53%Z
    ∧ Qabs (valueOf (PrimFloat.div PrimFloat.one p) * valueOf p - 1) <= pow2 (-52).
Proof.
  intros Hp Hdigits Hlo Hhi.
  rewrite (valueOf_finite p false mp ep Hp) in *.
  set (P := inject_Z (Zpos mp) * pow2 ep) in *.
  assert (HP : 0 < P) by apply magnitude_pos.
  pose proof (digits_exponent mp ep (-1000) 1000 Hlo Hhi) as Hexponent.
  rewrite Hdigits in Hexponent.
  pose proof (full_digits_lower mp Hdigits) as [Hmp_lo Hmp_hi].
  destruct (SFdiv_core_one mp ep Hdigits) as [l Hcore]; [lia|].
  set (q := (2 ^ 105 / Zpos mp)%Z) in *.
  assert (Hq_lo : (2 ^ 52 ≤ q)%Z).
  { unfold q. apply Z.div_le_lower_bound; [lia|].
    change (2 ^ 105)%Z with (2 ^ 53 * 2 ^ 52)%Z. apply Z.mul_le_mono_nonneg_r; lia. }
  assert (Hq_hi : (q ≤ 2 ^ 53)%Z).
  { unfold q. apply Z.div_le_upper_bound; [lia|].
    change (2 ^ 105)%Z with (2 ^ 52 * 2 ^ 53)%Z. apply Z.mul_le_mono_nonneg_r; lia. }
  assert (Hbelow : (q * Zpos mp ≤ 2 ^ 105)%Z).
  { unfold q. rewrite Z.mul_comm. apply Z.mul_div_le. lia. }
  assert (Habove : (2 ^ 105 ≤ (q + 1) * Zpos mp)%Z).
  { unfold q. pose proof (Z.mul_succ_div_gt (2 ^ 105) (Zpos mp) ltac:(lia)). lia. }
  destruct q as [|qp|qp] eqn:Hq; [lia| |lia].
  pose proof (digits_at_least qp 52 ltac:(lia) Hq_lo) as Hdq_lo.
  assert (Hdq_hi : (Zpos (SpecFloat.digits2_pos qp) ≤ 54)%Z).
  { pose proof (digits_bounds qp) as [Hdlo _].
    destruct (Z.le_gt_cases (Zpos (SpecFloat.digits2_pos qp)) 54) as [|Hgt]; [done|].
    assert (2 ^ 54 ≤ 2 ^ (Zpos (SpecFloat.digits2_pos qp) - 1))%Z
      by (apply Z.pow_le_mono_r; lia).
    assert (2 ^ 53 < 2 ^ 54)%Z by (apply Z.pow_lt_mono_r; lia). lia. }
  assert (Hscale : ∀ k : Z,
            inject_Z k * pow2 (-105 - ep) * P == inject_Z (k * Zpos mp) * pow2 (-105)).
  { intros k. unfold P. rewrite inject_Z_mult.
    replace (-105 - ep)%Z with (-105 + - ep)%Z by lia.
    rewrite pow2_add.
    assert (Hcancel : pow2 (- ep) * pow2 ep == 1).
    { rewrite <- pow2_add. by replace (- ep + ep)%Z with 0%Z by lia. }
    transitivity (inject_Z k * inject_Z (Zpos mp) * pow2 (-105) * (pow2 (- ep) * pow2 ep));
      [ring|]. rewrite Hcancel. ring. }
  assert (Hunit : inject_Z (2 ^ 105) * pow2 (-105) == 1) by reflexivity.
  destruct (binary_round_aux_close false qp (-105 - ep) l (/ P))
    as (mr & er & Hround & Hmr & Hclose).
  - lia.
  - lia.
  - apply Qle_shift_div_l with (a := inject_Z (Zpos qp) * pow2 (-105 - ep)) (b := 1)
      in HP as Hdiv.
    + unfold Qdiv in Hdiv. by rewrite Qmult_1_l in Hdiv.
    + rewrite Hscale, <- Hunit.
      apply Qmult_le_compat_r; [|apply Qlt_le_weak, pow2_pos]. by rewrite <- Zle_Qle.
  - apply Qle_shift_div_r with (a := 1) (c := inject_Z (Zpos qp + 1) * pow2 (-105 - ep))
      in HP as Hdiv.
    + unfold Qdiv in Hdiv. by rewrite Qmult_1_l in Hdiv.
    + rewrite Hscale, <- Hunit.
      apply Qmult_le_compat_r; [|apply Qlt_le_weak, pow2_pos]. by rewrite <- Zle_Qle.
  - assert (Hresult : FloatOps.Prim2SF (PrimFloat.div PrimFloat.one p)
                      = SpecFloat.S754_finite false mr er).
    { rewrite FloatAxioms.div_spec, Prim2SF_one, Hp.
      unfold FloatAxioms.SF64div, SpecFloat.SFdiv. rewrite Hcore. exact Hround. }
    exists mr, er. split_and!; [done|done|].
    rewrite (valueOf_finite _ _ _ _ Hresult).
    set (V := inject_Z (Zpos mr) * pow2 er) in *.
    assert (Heq : V * P - 1 == (V - / P) * P) by (field; lra).
    rewrite Heq, Qabs_Qmult, (Qabs_pos P) by lra.
    assert (Hk : pow2 (-52) == pow2 (-52) * / P * P) by (field; lra).
    rewrite Hk. apply Qmult_le_compat_r; [done|lra].
Qed.

(** ** How the rounding errors add up *)

Lemma pow2_52 : pow2 (-52) == 1 # 4503599627370496.
Proof. reflexivity. Qed.

(** The price: two reciprocals. *)
Lemma price_chain (vp v1 v2 : Q) :
  0 < vp → 0 < v1 →
  Qabs (v1 * vp - 1) <= pow2 (-52) →
  Qabs (v2 * v1 - 1) <= pow2 (-52) →
  Qabs (v2 - vp) <= (1 # 1000000000) * Qabs vp.
Proof.
  rewrite pow2_52. intros Hvp Hv1 H1 H2.
  apply Qabs_le_iff in H1 as [H1lo H1hi]. apply Qabs_le_iff in H2 as [H2lo H2hi].
  rewrite (Qabs_pos vp) by lra. apply Qabs_le_iff. split.
  - apply (Qmult_lt_0_le_reg_r _ _ v1 Hv1). lra.
  - apply (Qmult_lt_0_le_reg_r _ _ v1 Hv1). lra.
Qed.

(** The reciprocal of a price between [2^-999] and [2^999] is between
    [2^-1000] and [2^1000]. *)
Lemma reciprocal_range (vp v1 : Q) :
  0 < v1 → pow2 (-999) <= vp → vp <= pow2 999 →
  Qabs (v1 * vp - 1) <= pow2 (-52) →
  pow2 (-1000) <= v1 ∧ v1 <= pow2 1000.
Proof.
  rewrite pow2_52. intros Hv1 Hlo Hhi H1.
  apply Qabs_le_iff in H1 as [H1lo H1hi].
  assert (Hhalf : pow2 (-1000) * pow2 999 == 1 # 2) by reflexivity.
  assert (Hdouble : pow2 1000 * pow2 (-999) == 2) by reflexivity.
  pose proof (pow2_pos 999) as Hbig. pose proof (pow2_pos (-999)) as Hsmall.
  split.
  - apply (Qmult_lt_0_le_reg_r _ _ (pow2 999) Hbig). rewrite Hhalf.
    assert (v1 * vp <= v1 * pow2 999)
      by (apply Qmult_le_l; [done|done]).
    lra.
  - apply (Qmult_lt_0_le_reg_r _ _ (pow2 (-999)) Hsmall). rewrite Hdouble.
    assert (v1 * pow2 (-999) <= v1 * vp)
      by (apply Qmult_le_l; [done|done]).
    lra.
Qed.

(** The quantity: two products.  First for a quantity that is not
    negative. *)
Lemma amount_range_nonneg (va vp v1 w1 : Q) :
  0 <= va → 0 < vp → 0 < v1 →
  Qabs (v1 * vp - 1) <= pow2 (-52) →
  Qabs (w1 - va * vp) <= pow2 (-52) * Qabs (va * vp) →
  0 <= w1 ∧ (1 # 2) * va <= w1 * v1 ∧ w1 * v1 <= 2 * va
  ∧ (1 - (3 # 4503599627370496)) * va <= w1 * v1
  ∧ w1 * v1 <= (1 + (3 # 4503599627370496)) * va.
Proof.
  rewrite pow2_52. intros Hva Hvp Hv1 H1 H2.
  apply Qabs_le_iff in H1 as [H1lo H1hi].
  assert (Hproduct : 0 <= va * vp) by (apply Qmult_le_0_compat; lra).
  rewrite (Qabs_pos (va * vp)) in H2 by done.
  apply Qabs_le_iff in H2 as [H2lo H2hi].
  assert (Hw1 : 0 <= w1) by lra.
  assert (Hlo : (1 - (1 # 4503599627370496)) * (va * vp) * v1 <= w1 * v1).
  { apply Qmult_le_compat_r; lra. }
  assert (Hhi : w1 * v1 <= (1 + (1 # 4503599627370496)) * (va * vp) * v1).
  { apply Qmult_le_compat_r; lra. }
  assert (Hxlo : (1 - (1 # 4503599627370496)) * va <= (v1 * vp) * va).
  { apply Qmult_le_compat_r; lra. }
  assert (Hxhi : (v1 * vp) * va <= (1 + (1 # 4503599627370496)) * va).
  { apply Qmult_le_compat_r; lra. }
  split_and!; lra.
Qed.

Lemma amount_chain_nonneg (va vp v1 w1 w2 : Q) :
  0 <= va → 0 < vp → 0 < v1 →
  Qabs (v1 * vp - 1) <= pow2 (-52) →
  Qabs (w1 - va * vp) <= pow2 (-52) * Qabs (va * vp) →
  Qabs (w2 - w1 * v1) <= pow2 (-52) * Qabs (w1 * v1) →
  Qabs (w2 - va) <= (1 # 1000000000) * Qabs va.
Proof.
  intros Hva Hvp Hv1 H1 H2 H3.
  destruct (amount_range_nonneg va vp v1 w1 Hva Hvp Hv1 H1 H2)
    as (Hw1 & Hhalf & Hdouble & Hlo & Hhi).
  rewrite pow2_52 in H3.
  rewrite (Qabs_pos (w1 * v1)) in H3 by lra.
  apply Qabs_le_iff in H3 as [H3lo H3hi].
  rewrite (Qabs_pos va) by done. apply Qabs_le_iff. split; lra.
Qed.

(** The same for any sign of the quantity. *)
Lemma amount_range (va vp v1 w1 : Q) :
  0 < vp → 0 < v1 →
  Qabs (v1 * vp - 1) <= pow2 (-52) →
  Qabs (w1 - va * vp) <= pow2 (-52) * Qabs (va * vp) →
  (1 # 2) * Qabs va <= Qabs (w1 * v1) ∧ Qabs (w1 * v1) <= 2 * Qabs va.
Proof.
  intros Hvp Hv1 H1 H2. destruct (Qlt_le_dec va 0) as [Hneg|Hnonneg].
  - assert (Hflip : Qabs (- w1 - - va * vp) <= pow2 (-52) * Qabs (- va * vp)).
    { assert (Ha : - w1 - - va * vp == - (w1 - va * vp)) by ring.
      assert (Hb : - va * vp == - (va * vp)) by ring.
      by rewrite Ha, Hb, !Qabs_opp. }
    destruct (amount_range_nonneg (- va) vp v1 (- w1) ltac:(lra) Hvp Hv1 H1 Hflip)
      as (Hw1 & Hhalf & Hdouble & _).
    assert (Hc : w1 * v1 == - (- w1 * v1)) by ring.
    rewrite Hc, Qabs_opp, (Qabs_pos (- w1 * v1)) by lra.
    rewrite <- (Qabs_opp va), (Qabs_pos (- va)) by lra. split; lra.
  - destruct (amount_range_nonneg va vp v1 w1 Hnonneg Hvp Hv1 H1 H2)
      as (Hw1 & Hhalf & Hdouble & _).
    rewrite (Qabs_pos (w1 * v1)), (Qabs_pos va) by lra. split; lra.
Qed.

Lemma amount_chain (va vp v1 w1 w2 : Q) :
  0 < vp → 0 < v1 →
  Qabs (v1 * vp - 1) <= pow2 (-52) →
  Qabs (w1 - va * vp) <= pow2 (-52) * Qabs (va * vp) →
  Qabs (w2 - w1 * v1) <= pow2 (-52) * Qabs (w1 * v1) →
  Qabs (w2 - va) <= (1 # 1000000000) * Qabs va.
Proof.
  intros Hvp Hv1 H1 H2 H3. destruct (Qlt_le_dec va 0) as [Hneg|Hnonneg].
  - assert (Hflip2 : Qabs (- w1 - - va * vp) <= pow2 (-52) * Qabs (- va * vp)).
    { assert (Ha : - w1 - - va * vp == - (w1 - va * vp)) by ring.
      assert (Hb : - va * vp == - (va * vp)) by ring.
      by rewrite Ha, Hb, !Qabs_opp. }
    assert (Hflip3 : Qabs (- w2 - - w1 * v1) <= pow2 (-52) * Qabs (- w1 * v1)).
    { assert (Ha : - w2 - - w1 * v1 == - (w2 - w1 * v1)) by ring.
      assert (Hb : - w1 * v1 == - (w1 * v1)) by ring.
      by rewrite Ha, Hb, !Qabs_opp. }
    pose proof (amount_chain_nonneg (- va) vp v1 (- w1) (- w2) ltac:(lra) Hvp Hv1
                  H1 Hflip2 Hflip3) as Hchain.
    assert (Hd : - w2 - - va == - (w2 - va)) by ring.
    by rewrite Hd, !Qabs_opp in Hchain.
  - by apply (amount_chain_nonneg va vp v1 w1 w2).
Qed.

(** ** The round trip of [invertOrders] on [float64] *)

Lemma isFinite_finite (x : float) (s : bool) (m : positive) (e : Z) :
  FloatOps.Prim2SF x = SpecFloat.S754_finite s m e → isFinite x = true.
Proof. intros Hx. unfold isFinite. by rewrite Hx. Qed.

(** One level, inverted twice. *)
Lemma invertOrders64_twice (level : Level64.t) (rest : list Level64.t) :
  invertible level →
  ∃ back,
    invertOrders64 (invertOrders64 (level :: rest))
    = back :: invertOrders64 (invertOrders64 rest)
    ∧ close64 (Level64.Price back) (Level64.Price level)
    ∧ close64 (Level64.Amount back) (Level64.Amount level).
Proof.
  destruct level as [p a]. intros (Hpfinite & Hplo & Hphi & Hafinite & Hamount).
  cbn [Level64.Price Level64.Amount] in Hpfinite, Hplo, Hphi, Hafinite, Hamount.
  assert (Hppos : 0 < valueOf p).
  { pose proof (pow2_pos (-999)). lra. }
  destruct (finite_positive p Hpfinite Hppos) as (mp & ep & Hp).
  pose proof (valueOf_finite p false mp ep Hp) as Hvp. cbv iota in Hvp.
  pose proof (pow2_le (-1021) (-1020) ltac:(lia)) as Hsmall.
  pose proof (pow2_le (-1021) (-1000) ltac:(lia)) as Hsmall'.
  pose proof (pow2_le (-1000) (-999) ltac:(lia)) as Hsmall''.
  pose proof (pow2_le 999 1000 ltac:(lia)) as Hlarge.
  pose proof (pow2_le 1020 1021 ltac:(lia)) as Hlarge'.
  pose proof (pow2_le 1021 1022 ltac:(lia)) as Hlarge''.
  assert (Hdp : Zpos (SpecFloat.digits2_pos mp) = 53%Z).
  { apply (normal_digits p false mp ep Hp). rewrite <- Hvp. lra. }
  (* the first inversion *)
  pose proof (ltb_zero_positive p mp ep Hp) as Hkeep.
  destruct (div_close p mp ep Hp Hdp) as (m1 & e1 & Hp1 & Hd1 & Hx1); [lra|lra|].
  set (p1 := PrimFloat.div PrimFloat.one p) in *.
  pose proof (valueOf_finite p1 false m1 e1 Hp1) as Hv1. cbv iota in Hv1.
  assert (Hv1pos : 0 < valueOf p1) by (rewrite Hv1; apply magnitude_pos).
  destruct (reciprocal_range (valueOf p) (valueOf p1) Hv1pos Hplo Hphi Hx1)
    as [Hv1lo Hv1hi].
  (* the second inversion *)
  pose proof (ltb_zero_positive p1 m1 e1 Hp1) as Hkeep1.
  destruct (div_close p1 m1 e1 Hp1 Hd1) as (m2 & e2 & Hp2 & Hd2 & Hx2); [lra|lra|].
  set (p2 := PrimFloat.div PrimFloat.one p1) in *.
  exists (Level64.mk p2 (PrimFloat.mul (PrimFloat.mul a p) p1)).
  split; [|split].
  - cbn [invertOrders64 Level64.Price Level64.Amount]. rewrite Hkeep.
    cbn [invertOrders64 Level64.Price Level64.Amount]. fold p1. by rewrite Hkeep1.
  - cbn [Level64.Price]. split_and!; [by eapply isFinite_finite|done|].
    by apply (price_chain (valueOf p) (valueOf p1) (valueOf p2)).
  - cbn [Level64.Amount].
    destruct Hamount as [Hzero|[[Halo Hahi] [Hproduct_lo Hproduct_hi]]].
    + destruct (finite_zero a Hafinite Hzero) as [sa Ha].
      assert (Ha1 : FloatOps.Prim2SF (PrimFloat.mul a p)
                    = SpecFloat.S754_zero (xorb sa false)).
      { by rewrite FloatAxioms.mul_spec, Ha, Hp. }
      assert (Ha2 : FloatOps.Prim2SF (PrimFloat.mul (PrimFloat.mul a p) p1)
                    = SpecFloat.S754_zero (xorb (xorb sa false) false)).
      { by rewrite FloatAxioms.mul_spec, Ha1, Hp1. }
      split_and!; [unfold isFinite; by rewrite Ha2|done|].
      unfold withinRelative, valueOf. rewrite Ha2, Ha. done.
    + pose proof (pow2_pos (-1020)) as Hpos1020.
      assert (Hne : ¬ valueOf a == 0).
      { intros Hzero. rewrite Hzero in Halo. change (Qabs 0) with 0 in Halo. lra. }
      destruct (finite_nonzero a Hafinite Hne) as (sa & ma & ea & Ha).
      pose proof (Qabs_valueOf a sa ma ea Ha) as Hva.
      assert (Hda : Zpos (SpecFloat.digits2_pos ma) = 53%Z).
      { apply (normal_digits a sa ma ea Ha). rewrite <- Hva. lra. }
      destruct (mul_close a p sa false ma mp ea ep Ha Hp Hda Hdp)
        as (ma1 & ea1 & Ha1 & Hda1 & Hw1); [lra|lra|].
      set (a1 := PrimFloat.mul a p) in *.
      destruct (amount_range (valueOf a) (valueOf p) (valueOf p1) (valueOf a1)
                  Hppos Hv1pos Hx1 Hw1) as [Hhalf Hdouble].
      assert (Hhalf1020 : (1 # 2) * pow2 (-1020) == pow2 (-1021)) by reflexivity.
      assert (Hdouble1020 : 2 * pow2 1020 == pow2 1021) by reflexivity.
      destruct (mul_close a1 p1 (xorb sa false) false ma1 m1 ea1 e1 Ha1 Hp1 Hda1 Hd1)
        as (ma2 & ea2 & Ha2 & Hda2 & Hw2); [lra|lra|].
      split_and!; [by eapply isFinite_finite|done|].
      by apply (amount_chain (valueOf a) (valueOf p) (valueOf p1) (valueOf a1)).
Qed.

(** C9, amended. On [float64] the round trip holds as long as no result
    leaves the normal range: when every level has a price between [2^-999]
    and [2^999] and a quantity that is zero, or that is between [2^-1020]
    and [2^1020] in absolute value as is its product with the price, no
    level is dropped, and every level of
    [invertOrders(invertOrders(levels))] has a price and a quantity within
    [1e-9] relative error of those of the corresponding original level. *)
Theorem invertOrders64_round_trip (levels : list Level64.t) :
  Forall invertible levels → roundTrip64 levels.
Proof.
  unfold roundTrip64. induction 1 as [|level rest Hlevel _ IH]; [constructor|].
  destruct (invertOrders64_twice level rest Hlevel) as (back & -> & Hprice & Hamount).
  by constructor.
Qed.

Lemma invertOrders64_round_trip_witness : roundTrip64 everydayLevels.
Proof.
  apply invertOrders64_round_trip.
  constructor; [|constructor].
  unfold invertible, normalRange. split_and!.
  - reflexivity.
  - vm_compute. discriminate.
  - vm_compute. discriminate.
  - reflexivity.
  - right. split_and!; vm_compute; discriminate.
Defined.

(** C9, as stated, fails on [float64]: the level with the positive price
    and the quantity [1e-200] comes back with the quantity [0], the product
    of price and quantity, [1e-400], having underflowed to zero in the
    first inversion. *)
Lemma round_trip_loses_quantity_on_underflow :
  Forall (λ level, 0 < valueOf (Level64.Price level)) tinyLevels
  ∧ invertOrders64 (invertOrders64 tinyLevels)
    = [Level64.mk 0x1.87e92154ef7acp-665%float 0%float]
  ∧ ¬ roundTrip64 tinyLevels.
Proof.
  split_and!.
  - repeat constructor.
  - vm_compute. reflexivity.
  - unfold roundTrip64. intros Hclose.
    apply Forall2_cons_1 in Hclose as [[_ (_ & _ & Hamount)] _].
    unfold withinRelative in Hamount. vm_compute in Hamount. by apply Hamount.
Qed.
